(** * Load balancer with per-client rate limiting: a shallow embedding

    The Go sources are embedded function by function.  Machine integers
    are [Z] with their wrap-around written out, [float64] is the IEEE-754
    binary64 model of [SpecFloat], [time.Time] is its monotonic reading in
    nanoseconds, Go strings are byte strings, and the Go maps are [gmap]s.
    Calls of [time.Now] become arguments, log lines and sleeps become events
    of a trace, and the shared pool is passed explicitly. *)

From Stdlib Require Import ZArith Lia Ascii String List Bool.
From Stdlib Require Import Floats.SpecFloat.
From Stdlib Require Import QArith Qround Qpower Lqa.
From stdpp Require Import gmap strings list pretty.

Open Scope Z_scope.

(** ** Machine integers *)

Module Int64.

Definition min_int : Z := - 2 ^ 63.
Definition max_int : Z := 2 ^ 63 - 1.

(** Two's complement wrap-around of a signed 64-bit result. *)
Definition wrap (z : Z) : Z := (z + 2 ^ 63) mod 2 ^ 64 - 2 ^ 63.

Definition add (a b : Z) : Z := wrap (a + b).
Definition sub (a b : Z) : Z := wrap (a - b).
Definition mul (a b : Z) : Z := wrap (a * b).

Definition in_range (z : Z) : Prop := min_int <= z <= max_int.
Definition in_rangeb (z : Z) : bool := (min_int <=? z) && (z <=? max_int).

End Int64.

Module Uint64.

Definition wrap (z : Z) : Z := z mod 2 ^ 64.
Definition add (a b : Z) : Z := wrap (a + b).
Definition in_range (z : Z) : Prop := 0 <= z < 2 ^ 64.

End Uint64.

(** ** float64

    Binary64 values and operations, rounding to nearest even as Go does.
    The conversion [int64(f)] truncates toward zero; when the truncated
    value does not fit, the language leaves the result to the
    implementation, which is what the class [GoArch] stands for. *)

Module Float64.

Definition t : Type := spec_float.

Definition prec : Z := 53.
Definition emax : Z := 1024.

Definition zero : t := S754_zero false.

Definition of_int (z : Z) : t := binary_normalize prec emax z 0 false.

Definition mul (x y : t) : t := SFmul prec emax x y.
Definition add (x y : t) : t := SFadd prec emax x y.
Definition div (x y : t) : t := SFdiv prec emax x y.

(** [x <= y], [x < y] and [x > y]; all false on NaN. *)
Definition leb (x y : t) : bool := SFleb x y.
Definition ltb (x y : t) : bool := SFltb x y.
Definition gtb (x y : t) : bool := SFltb y x.

(** The integer part of a finite value, rounded toward zero. *)
Definition trunc (x : t) : option Z :=
  match x with
  | S754_zero _ => Some 0
  | S754_finite s m e => Some (cond_Zopp s (Z.shiftl (Zpos m) e))
  | S754_infinity _ | S754_nan => None
  end.

Class GoArch := { convert_unrepresentable : t -> Z }.

Definition to_int64 `{GoArch} (x : t) : Z :=
  match trunc x with
  | Some z => if Int64.in_rangeb z then z else Int64.wrap (convert_unrepresentable x)
  | None => Int64.wrap (convert_unrepresentable x)
  end.

(** amd64: CVTTSD2SQ yields the integer indefinite value. *)
Definition amd64 : GoArch := {| convert_unrepresentable := fun _ => Int64.min_int |}.

(** arm64: FCVTZS saturates, and NaN converts to 0. *)
Definition arm64 : GoArch :=
  {| convert_unrepresentable := fun x =>
       match x with
       | S754_infinity false | S754_finite false _ _ => Int64.max_int
       | S754_infinity true | S754_finite true _ _ => Int64.min_int
       | _ => 0
       end |}.

End Float64.

(** ** package time *)

Module Time.

(** A [time.Time] carrying a monotonic clock reading, in nanoseconds. *)
Definition t : Type := Z.
Definition Duration : Type := Z.

Definition Nanosecond : Duration := 1.
Definition Millisecond : Duration := 1000000.
Definition Second : Duration := 1000000000.
Definition Minute : Duration := 60 * Second.

Definition minDuration : Duration := Int64.min_int.
Definition maxDuration : Duration := Int64.max_int.

(** [t.Sub(u)] on monotonic readings: the difference, saturated. *)
Definition Sub (t u : t) : Duration :=
  let d := Int64.sub t u in
  if (d <? 0) && (u <? t) then maxDuration
  else if (0 <? d) && (t <? u) then minDuration
  else d.

(** [d.Seconds()]: [float64(sec) + float64(nsec)/1e9]. *)
Definition Seconds (d : Duration) : Float64.t :=
  let sec := Z.quot d Second in
  let nsec := Z.rem d Second in
  Float64.add (Float64.of_int sec)
              (Float64.div (Float64.of_int nsec) (Float64.of_int 1000000000)).

End Time.

(** ** package ratelimiter *)

Module Bucket.

Record t : Type := mk {
  capacity : Z;
  tokens : Z;
  refillRate : Float64.t;
  lastRefill : Time.t;
  lastAccess : Time.t
}.

Definition NewBucket (now : Time.t) (capacity : Z) (rate : Float64.t) : option t :=
  if (capacity <=? 0) || Float64.leb rate Float64.zero then None
  else Some {| capacity := capacity;
               tokens := capacity;
               refillRate := rate;
               lastRefill := now;
               lastAccess := now |}.

Section WithArch.
Context `{arch : Float64.GoArch}.

(** [int64(duration.Seconds() * b.refillRate)] *)
Definition tokensToAdd (duration : Time.Duration) (rate : Float64.t) : Z :=
  Float64.to_int64 (Float64.mul (Time.Seconds duration) rate).

Definition refill (now : Time.t) (b : t) : t :=
  let duration := Time.Sub now (lastRefill b) in
  if duration <=? 0 then b
  else
    let tokens1 := Int64.add (tokens b) (tokensToAdd duration (refillRate b)) in
    let tokens2 := if capacity b <? tokens1 then capacity b else tokens1 in
    {| capacity := capacity b;
       tokens := tokens2;
       refillRate := refillRate b;
       lastRefill := now;
       lastAccess := lastAccess b |}.

(** [Allow] reads the clock twice: [now] inside [refill], [now'] for
    [lastAccess]. *)
Definition Allow (now now' : Time.t) (b : t) : bool * t :=
  let b1 := refill now b in
  if 1 <=? tokens b1 then
    (true, {| capacity := capacity b1;
              tokens := Int64.sub (tokens b1) 1;
              refillRate := refillRate b1;
              lastRefill := lastRefill b1;
              lastAccess := now' |})
  else (false, b1).

(** A run of [Allow] calls, one per pair of clock readings. *)
Fixpoint AllowSeq (times : list (Time.t * Time.t)) (b : t) : list bool * t :=
  match times with
  | [] => ([], b)
  | (now, now') :: rest =>
      let '(ok, b1) := Allow now now' b in
      let '(oks, b2) := AllowSeq rest b1 in
      (ok :: oks, b2)
  end.

End WithArch.

Definition IsInactive (now : Time.t) (threshold : Time.Duration) (b : t) : bool :=
  threshold <? Time.Sub now (lastAccess b).

End Bucket.

(** ** Effects

    What a function does besides returning: the lines it hands to the
    [log] package (format and arguments, unformatted), its sleeps, and the
    goroutines it starts; [Called] marks a call on a shared object where
    the number of calls matters. *)

Inductive Arg : Type :=
| AStr (s : string)
| AInt (z : Z)
| AFloat (f : Float64.t)
| ADuration (d : Time.Duration).

Inductive Event : Type :=
| Printf (format : string) (args : list Arg)
| Println (line : string)
| Sleep (d : Time.Duration)
| Go (routine : string)
| Called (method : string).

(** The severity a line announces is the prefix of its format. *)
Definition is_warning (e : Event) : bool :=
  match e with
  | Printf format _ => String.prefix "WARN:" format
  | Println line => String.prefix "WARN:" line
  | _ => false
  end.

Definition is_error (e : Event) : bool :=
  match e with
  | Printf format _ => String.prefix "ERROR:" format
  | Println line => String.prefix "ERROR:" line
  | _ => false
  end.

Module BucketStore.

(** [LimitProvider.GetLimit]: capacity, rate and the [found] flag. *)
Definition LimitProvider : Type := string -> Z * Float64.t * bool.

Record t : Type := mk {
  buckets : gmap string Bucket.t;
  defaultCapacity : Z;
  defaultRefillRate : Float64.t;
  limitProvider : option LimitProvider
}.

Definition NewBucketStore (defaultCapacity : Z) (defaultRefillRate : Float64.t)
    (provider : option LimitProvider) : option t * list Event :=
  if (defaultCapacity <=? 0) || Float64.leb defaultRefillRate Float64.zero then
    (None,
     [Printf "ERROR: Invalid default parameters for NewBucketStore: capacity=%d, rate=%.2f"
             [AInt defaultCapacity; AFloat defaultRefillRate]])
  else
    (Some {| buckets := ∅;
             defaultCapacity := defaultCapacity;
             defaultRefillRate := defaultRefillRate;
             limitProvider := provider |},
     [match provider with
      | Some _ => Println "INFO: BucketStore initialized with a custom LimitProvider."
      | None => Println "INFO: BucketStore initialized without a custom LimitProvider (using defaults only)."
      end]).

(** The parameters chosen for a bucket about to be created, whether they
    are custom, and what the choice logs. *)
Definition chooseLimits (clientID : string) (s : t) : Z * Float64.t * bool * list Event :=
  let capacity := defaultCapacity s in
  let rate := defaultRefillRate s in
  match limitProvider s with
  | Some provider =>
      let '(customCapacity, customRate, found) := provider clientID in
      if found then
        if (0 <? customCapacity) && Float64.gtb customRate Float64.zero then
          (customCapacity, customRate, true,
           [Printf "INFO: Using custom rate limit for client %s: capacity=%d, rate=%.2f/s"
                   [AStr clientID; AInt customCapacity; AFloat customRate]])
        else
          (capacity, rate, false,
           [Printf "WARN: Found invalid custom limit for client %s (capacity=%d, rate=%.2f). Using defaults."
                   [AStr clientID; AInt customCapacity; AFloat customRate]])
      else (capacity, rate, false, [])
  | None => (capacity, rate, false, [])
  end.

(** The part of [GetOrCreateBucket] that runs under the write lock once
    both look-ups have missed. *)
Definition createBucket (now : Time.t) (clientID : string) (s : t)
    : option Bucket.t * t * list Event :=
  let '(capacity, rate, isCustom, evs) := chooseLimits clientID s in
  match Bucket.NewBucket now capacity rate with
  | None =>
      (None, s,
       evs ++ [Printf "ERROR: Failed to create new bucket for client %s with capacity %d, rate %.2f"
                      [AStr clientID; AInt capacity; AFloat rate]])
  | Some newBucket =>
      (Some newBucket,
       {| buckets := <[clientID := newBucket]> (buckets s);
          defaultCapacity := defaultCapacity s;
          defaultRefillRate := defaultRefillRate s;
          limitProvider := limitProvider s |},
       evs ++ (if isCustom then []
               else [Printf "INFO: Created new bucket for client %s (Default Capacity: %d, Default Rate: %.2f/s)"
                            [AStr clientID; AInt capacity; AFloat rate]]))
  end.

Definition GetOrCreateBucket (now : Time.t) (clientID : string) (s : t)
    : option Bucket.t * t * list Event :=
  match buckets s !! clientID with
  | Some bucket => (Some bucket, s, [])
  | None =>
      match buckets s !! clientID with
      | Some bucket => (Some bucket, s, [])
      | None => createBucket now clientID s
      end
  end.

End BucketStore.

Module Limiter.

Record t : Type := mk {
  store : BucketStore.t;
  cleanupInterval : Time.Duration
}.

Definition NewLimiter (store : option BucketStore.t) (cleanupInterval : Time.Duration)
    : option t * list Event :=
  match store with
  | None => (None, [Println "ERROR: Cannot create Limiter with a nil BucketStore"])
  | Some store =>
      let '(cleanupInterval1, evs) :=
        if cleanupInterval <=? 0 then
          (Int64.mul 5 Time.Minute,
           [Printf "WARN: Invalid cleanupInterval (%v) for Limiter, using default 5m"
                   [ADuration cleanupInterval]])
        else (cleanupInterval, []) in
      (Some {| store := store; cleanupInterval := cleanupInterval1 |},
       evs ++ [Go "runCleanup"])
  end.

(** The clock readings one [Limiter.Allow] consumes: one in [NewBucket]
    when the bucket is created, two in [Bucket.Allow]. *)
Record Clock : Type := mkClock {
  atCreate : Time.t;
  atRefill : Time.t;
  atAccess : Time.t
}.

Definition Allow `{arch : Float64.GoArch} (clk : Clock) (clientID : string) (l : t)
    : bool * t * list Event :=
  let '(bucket, store1, evs) := BucketStore.GetOrCreateBucket (atCreate clk) clientID (store l) in
  match bucket with
  | None =>
      (false, {| store := store1; cleanupInterval := cleanupInterval l |},
       evs ++ [Printf "ERROR: Could not get or create bucket for client %s in Limiter.Allow"
                      [AStr clientID]])
  | Some bucket =>
      let '(ok, bucket1) := Bucket.Allow (atRefill clk) (atAccess clk) bucket in
      (ok,
       {| store := {| BucketStore.buckets := <[clientID := bucket1]> (BucketStore.buckets store1);
                      BucketStore.defaultCapacity := BucketStore.defaultCapacity store1;
                      BucketStore.defaultRefillRate := BucketStore.defaultRefillRate store1;
                      BucketStore.limitProvider := BucketStore.limitProvider store1 |};
          cleanupInterval := cleanupInterval l |},
       evs)
  end.

(** [l.cleanupInterval * 2], the threshold [runCleanup] computes when it
    starts. *)
Definition inactivityThreshold (l : t) : Time.Duration :=
  Int64.mul (cleanupInterval l) 2.

(** The loop [for id, bucket := range l.store.buckets] of [runCleanup],
    over the entries in the order the runtime yields them; [clock id] is
    the reading [time.Since] takes when the Bucket of [id] is examined. *)
Fixpoint sweep (clock : string -> Time.t) (threshold : Time.Duration)
    (entries : list (string * Bucket.t)) (buckets : gmap string Bucket.t) (cleanedCount : Z)
    : gmap string Bucket.t * Z * list Event :=
  match entries with
  | [] => (buckets, cleanedCount, [])
  | (id, bucket) :: rest =>
      if Bucket.IsInactive (clock id) threshold bucket then
        let '(buckets1, cleanedCount1, evs) :=
          sweep clock threshold rest (delete id buckets) (Int64.add cleanedCount 1) in
        (buckets1, cleanedCount1,
         Printf "DEBUG: Cleaned up inactive bucket for client %s" [AStr id] :: evs)
      else sweep clock threshold rest buckets cleanedCount
  end.

(** What [runCleanup] does on one tick of its ticker. *)
Definition cleanup (clock : string -> Time.t) (entries : list (string * Bucket.t)) (l : t)
    : t * Z * list Event :=
  let '(buckets1, cleanedCount, evs) :=
    sweep clock (inactivityThreshold l) entries (BucketStore.buckets (store l)) 0 in
  ({| store := {| BucketStore.buckets := buckets1;
                  BucketStore.defaultCapacity := BucketStore.defaultCapacity (store l);
                  BucketStore.defaultRefillRate := BucketStore.defaultRefillRate (store l);
                  BucketStore.limitProvider := BucketStore.limitProvider (store l) |};
      cleanupInterval := cleanupInterval l |},
   cleanedCount,
   Println "DEBUG: Running limiter cleanup..." :: evs
   ++ (if 0 <? cleanedCount
       then [Printf "INFO: Limiter cleanup finished. Removed %d inactive buckets."
                    [AInt cleanedCount]]
       else [])).

End Limiter.

(** ** package strings *)

Module strings.

Definition HasPrefix (s prefix : string) : bool := String.prefix prefix s.

Definition HasSuffix (s suffix : string) : bool :=
  (String.length suffix <=? String.length s)%nat
  && String.eqb (String.substring (String.length s - String.length suffix)
                                  (String.length suffix) s) suffix.

Fixpoint LastIndex_from (i : Z) (s substr : string) : Z :=
  match s with
  | EmptyString => if String.eqb substr EmptyString then i else -1
  | String _ s' =>
      let later := LastIndex_from (i + 1) s' substr in
      if later =? -1 then (if String.prefix substr s then i else -1) else later
  end.

(** Index of the last instance of [substr] in [s], or -1. *)
Definition LastIndex (s substr : string) : Z := LastIndex_from 0 s substr.

(** The slice expression [s[lo:hi]]. *)
Definition slice (s : string) (lo hi : Z) : string :=
  String.substring (Z.to_nat lo) (Z.to_nat (hi - lo)) s.

Definition len (s : string) : Z := Z.of_nat (String.length s).

Definition TrimPrefix (s prefix : string) : string :=
  if HasPrefix s prefix then slice s (len prefix) (len s) else s.

Definition in_cutset (cutset : string) (c : ascii) : bool :=
  existsb (Ascii.eqb c) (list_ascii_of_string cutset).

Fixpoint TrimLeft (s cutset : string) : string :=
  match s with
  | EmptyString => EmptyString
  | String c s' => if in_cutset cutset c then TrimLeft s' cutset else s
  end.

Fixpoint TrimRight (s cutset : string) : string :=
  match s with
  | EmptyString => EmptyString
  | String c s' =>
      match TrimRight s' cutset with
      | EmptyString => if in_cutset cutset c then EmptyString else String c EmptyString
      | kept => String c kept
      end
  end.

(** [strings.Trim] for a cutset of ASCII bytes: the leading and the
    trailing bytes of [s] that are in [cutset] are removed. *)
Definition Trim (s cutset : string) : string := TrimLeft (TrimRight s cutset) cutset.

End strings.

(** ** package net/http *)

Module http.

Definition StatusTooManyRequests : Z := 429.
Definition StatusInternalServerError : Z := 500.
Definition StatusBadGateway : Z := 502.
Definition StatusServiceUnavailable : Z := 503.

Definition StatusOK : Z := 200.
Definition StatusNoContent : Z := 204.
Definition StatusBadRequest : Z := 400.
Definition StatusNotFound : Z := 404.
Definition StatusMethodNotAllowed : Z := 405.
Definition StatusNotImplemented : Z := 501.

Definition MethodGet : string := "GET".
Definition MethodPost : string := "POST".
Definition MethodDelete : string := "DELETE".

(** What a handler has sent: the header map as it was when the status
    line went out, the status, and the body bytes. *)
Record ResponseWriter : Type := mkWriter {
  header : gmap string (list string);
  status : option Z;
  body : string
}.

Definition NewRecorder : ResponseWriter :=
  {| header := ∅; status := None; body := EmptyString |}.

(** Header changes after the status line is out are not sent. *)
Definition Header_Set (key value : string) (w : ResponseWriter) : ResponseWriter :=
  match status w with
  | Some _ => w
  | None => {| header := <[key := [value]]> (header w); status := status w; body := body w |}
  end.

Definition Header_Del (key : string) (w : ResponseWriter) : ResponseWriter :=
  match status w with
  | Some _ => w
  | None => {| header := delete key (header w); status := status w; body := body w |}
  end.

Definition WriteHeader (code : Z) (w : ResponseWriter) : ResponseWriter :=
  match status w with
  | Some _ => w
  | None => {| header := header w; status := Some code; body := body w |}
  end.

Definition Write (data : string) (w : ResponseWriter) : ResponseWriter :=
  let w1 := WriteHeader 200 w in
  {| header := header w1; status := status w1; body := body w1 +:+ data |}.

Definition newline : string := String (ascii_of_nat 10) EmptyString.

(** [http.Error]: a plain-text reply. *)
Definition Error (w : ResponseWriter) (error : string) (code : Z) : ResponseWriter :=
  let w1 := Header_Del "Content-Length" w in
  let w2 := Header_Set "Content-Type" "text/plain; charset=utf-8" w1 in
  let w3 := Header_Set "X-Content-Type-Options" "nosniff" w2 in
  let w4 := WriteHeader code w3 in
  Write (error +:+ newline) w4.

(** A request; [ctxRetry] is the value its context holds under the key
    [Retry], when there is one. *)
Record Request : Type := mkRequest {
  Method : string;
  Host : string;
  Path : string;
  RemoteAddr : string;
  ctxRetry : option Z
}.

Definition WithRetry (attempts : Z) (r : Request) : Request :=
  {| Method := Method r; Host := Host r; Path := Path r;
     RemoteAddr := RemoteAddr r; ctxRetry := Some attempts |}.

(** A handler over a state of type [S]. *)
Definition Handler (S : Type) : Type :=
  ResponseWriter -> Request -> S -> ResponseWriter * S * list Event.

End http.

(** ** package encoding/json, as far as [APIError] needs it *)

Module json.

Definition dquote : ascii := ascii_of_nat 34.
Definition backslash : ascii := ascii_of_nat 92.

Definition hexdigit (n : N) : ascii :=
  match String.get (N.to_nat n) "0123456789abcdef" with
  | Some c => c
  | None => "0"%char
  end.

(** One byte of a string value.  Bytes from 0x80 on are copied, as the
    encoder does for well-formed UTF-8 outside U+2028 and U+2029; the
    encoder escapes HTML by default. *)
Definition escape_byte (c : ascii) : string :=
  let n := N_of_ascii c in
  if (n =? 34)%N || (n =? 92)%N then String backslash (String c EmptyString)
  else if (n =? 8)%N then String backslash "b"
  else if (n =? 12)%N then String backslash "f"
  else if (n =? 10)%N then String backslash "n"
  else if (n =? 13)%N then String backslash "r"
  else if (n =? 9)%N then String backslash "t"
  else if (n <? 32)%N || (n =? 60)%N || (n =? 62)%N || (n =? 38)%N then
    String backslash
      (String "u" (String "0" (String "0"
         (String (hexdigit (N.shiftr n 4)) (String (hexdigit (N.land n 15)) EmptyString)))))
  else String c EmptyString.

Fixpoint escape (s : string) : string :=
  match s with
  | EmptyString => EmptyString
  | String c s' => escape_byte c +:+ escape s'
  end.

Definition quote (s : string) : string :=
  String dquote (s +:+ String dquote EmptyString).

Definition encode_string (s : string) : string := quote (escape s).
Definition encode_int (z : Z) : string := pretty z.

(** Reads a text written with ['] for the double quote. *)
Fixpoint lit (s : string) : string :=
  match s with
  | EmptyString => EmptyString
  | String c s' => String (if Ascii.eqb c "'"%char then dquote else c) (lit s')
  end.

End json.

(** ** package httputil *)

Module httputil.

Record APIError : Type := mkAPIError {
  Code : Z;
  Message : string
}.

(** [json.Marshal] of an [APIError]: the fields in order under their
    tags. *)
Definition Marshal (e : APIError) : string :=
  "{" +:+ json.quote "code" +:+ ":" +:+ json.encode_int (Code e) +:+ ","
      +:+ json.quote "message" +:+ ":" +:+ json.encode_string (Message e) +:+ "}".

(** [Encoder.Encode] ends the value with a newline. *)
Definition Encode (e : APIError) (w : http.ResponseWriter) : http.ResponseWriter :=
  http.Write (Marshal e +:+ http.newline) w.

Definition RespondWithError (w : http.ResponseWriter) (code : Z) (message : string)
    : http.ResponseWriter * list Event :=
  let errResponse := {| Code := code; Message := message |} in
  let w1 := http.Header_Set "Content-Type" "application/json; charset=utf-8" w in
  let w2 := http.WriteHeader code w1 in
  (Encode errResponse w2,
   [Printf "ERROR: Responding with error: code=%d, message=%s" [AInt code; AStr message]]).

(** [RespondWithJSON]; [marshalled] is what [json.Marshal(payload)]
    returns, the bytes or the error. *)
Definition RespondWithJSON (w : http.ResponseWriter) (code : Z) (marshalled : string + string)
    : http.ResponseWriter * list Event :=
  match marshalled with
  | inr err =>
      let '(w1, evs) :=
        RespondWithError w http.StatusInternalServerError "Failed to generate response" in
      (w1, Printf "ERROR: Failed to marshal JSON payload: %v" [AStr err] :: evs)
  | inl response =>
      let w1 := http.Header_Set "Content-Type" "application/json; charset=utf-8" w in
      let w2 := http.WriteHeader code w1 in
      (http.Write response w2, [])
  end.

End httputil.

(** ** package balancer *)

Module Backend.

(** Modelled from the spec: the type [Backend] and its methods [IsAlive]
    and [SetAlive] are not among the sources.  The spec gives a Backend a
    parsed URL, immutable, and a boolean [Alive] read and written
    atomically; the reverse-proxy engine is a parameter of the handler
    below. *)
Record t : Type := mk {
  URL : string;
  Alive : bool
}.

Definition IsAlive (b : t) : bool := Alive b.
Definition SetAlive (alive : bool) (b : t) : t := {| URL := URL b; Alive := alive |}.

End Backend.

Module ServerPool.

(** [backends] holds the Backends the slice points to, so a [*Backend] is
    an index into it. *)
Record t : Type := mk {
  backends : list Backend.t;
  current : Z;
  healthCheckInterval : Time.Duration;
  healthCheckTimeout : Time.Duration
}.

Definition Store (idx : Z) (s : t) : t :=
  {| backends := backends s; current := idx;
     healthCheckInterval := healthCheckInterval s;
     healthCheckTimeout := healthCheckTimeout s |}.

(** [backend.SetAlive(alive)] through the pointer held at index [i]. *)
Definition SetAlive (i : nat) (alive : bool) (s : t) : t :=
  {| backends := alter (Backend.SetAlive alive) i (backends s);
     current := current s;
     healthCheckInterval := healthCheckInterval s;
     healthCheckTimeout := healthCheckTimeout s |}.

Definition GetBackends (s : t) : list Backend.t := backends s.

(** The scan of [GetNextPeer] from loop index [i] on, [todo] iterations
    being left.  An index outside the slice would panic; the result is
    then [None] with the pool untouched, and [scan_index_in_range] shows
    that the case never arises. *)
Fixpoint scan (todo : nat) (numBackends currentIdx i : Z) (s : t) : option nat * t :=
  match todo with
  | O => (None, s)
  | S todo' =>
      let nextIdx := Uint64.add (Uint64.add currentIdx 1) i mod numBackends in
      match backends s !! Z.to_nat nextIdx with
      | Some b =>
          if Backend.IsAlive b then (Some (Z.to_nat nextIdx), Store nextIdx s)
          else scan todo' numBackends currentIdx (i + 1) s
      | None => (None, s)
      end
  end.

Definition GetNextPeer (s : t) : option nat * t :=
  let numBackends := Z.of_nat (length (backends s)) in
  if numBackends =? 0 then (None, s)
  else
    let currentIdx := current s in
    scan (length (backends s)) numBackends currentIdx 0 s.

Definition GetRetryFromContext (r : http.Request) : Z :=
  match http.ctxRetry r with
  | Some retry => retry
  | None => 0
  end.

(** The closure installed as [proxy.ErrorHandler] for the Backend at
    index [i], whose URL is [url]; [e] is the text of the error. *)
Definition ErrorHandler (i : nat) (url : string) (e : string) : http.Handler t :=
  fun writer request s =>
    let retries := GetRetryFromContext request in
    let '(s1, evs) :=
      if retries <? 1 then
        (SetAlive i false s,
         [Printf "WARN: Marking backend %s as down due to connection error: %v"
                 [AStr url; AStr e]])
      else
        (s, [Printf "WARN: Backend %s connection error on retry %d: %v"
                    [AStr url; AInt retries; AStr e]]) in
    (http.Error writer "Bad Gateway: Error connecting to backend" http.StatusBadGateway,
     s1,
     Printf "ERROR: Proxy error connecting to backend %s: %v" [AStr url; AStr e] :: evs).

Section NewServerPool.

(** [url.Parse], from the standard library. *)
Variable url_Parse : string -> option string.

Fixpoint addBackends (backendUrls : list string) (acc : list Backend.t)
    : list Backend.t * list Event :=
  match backendUrls with
  | [] => (acc, [])
  | backendURLStr :: rest =>
      match url_Parse backendURLStr with
      | None =>
          let '(bs, evs) := addBackends rest acc in
          (bs, Printf "ERROR: Invalid backend URL '%s': %v. Skipping." [AStr backendURLStr] :: evs)
      | Some backendURL =>
          let backend := {| Backend.URL := backendURL; Backend.Alive := false |} in
          let '(bs, evs) := addBackends rest (acc ++ [backend]) in
          (bs, Printf "INFO: Added backend: %s" [AStr backendURLStr] :: evs)
      end
  end.

Definition NewServerPool (backendUrls : list string) (checkInterval checkTimeout : Time.Duration)
    : t * list Event :=
  let '(bs, evs) := addBackends backendUrls [] in
  ({| backends := bs; current := 0;
      healthCheckInterval := checkInterval; healthCheckTimeout := checkTimeout |},
   evs ++ (if (length bs =? 0)%nat
           then [Println "WARN: ServerPool initialized, but contains no valid backends."]
           else [])).

End NewServerPool.

Section HealthCheck.

(** [u.Host] and [net.DialTimeout], from the standard library; the dial
    returns its error, if any. *)
Variable url_Host : string -> string.
Variable net_DialTimeout : string -> string -> Time.Duration -> option string.

Definition isBackendAlive (u : string) (timeout : Time.Duration) : bool :=
  match net_DialTimeout "tcp" (url_Host u) timeout with
  | Some _ => false
  | None => true
  end.

(** The goroutine [runHealthCheckCycle] starts for the Backend at index
    [i]. *)
Definition checkBackend (i : nat) (s : t) : t * list Event :=
  match backends s !! i with
  | None => (s, [])
  | Some backend =>
      let alive := isBackendAlive (Backend.URL backend) (healthCheckTimeout s) in
      (SetAlive i alive s,
       [Printf "INFO: Health Check: Backend %s is %s"
               [AStr (Backend.URL backend); AStr (if alive then "up" else "down")]])
  end.

Fixpoint runGoroutines (schedule : list nat) (s : t) : t * list Event :=
  match schedule with
  | [] => (s, [])
  | i :: rest =>
      let '(s1, evs1) := checkBackend i s in
      let '(s2, evs2) := runGoroutines rest s1 in
      (s2, evs1 ++ evs2)
  end.

(** One cycle: a goroutine per Backend of the slice, then the wait for all
    of them; [schedule] is the order in which the goroutines run. *)
Definition runHealthCheckCycle (schedule : list nat) (s : t) : t * list Event :=
  let '(s1, evs) := runGoroutines schedule s in
  (s1,
   Println "INFO: Starting health check cycle..." :: evs
   ++ [Println "INFO: Health check cycle completed."]).

End HealthCheck.

(** A run of [k] calls of [GetNextPeer]. *)
Fixpoint GetNextPeerSeq (k : nat) (s : t) : list (option nat) * t :=
  match k with
  | O => ([], s)
  | S k' =>
      let '(peer, s1) := GetNextPeer s in
      let '(peers, s2) := GetNextPeerSeq k' s1 in
      (peer :: peers, s2)
  end.

End ServerPool.

Module Dispatcher.

Section Handler.

(** What the other goroutines (health checker, other requests) do to the
    pool while this request sleeps after failed attempt number [k]. *)
Variable interference : Z -> ServerPool.t -> ServerPool.t.

(** The reverse-proxy engine of the Backend at an index: what a reachable
    upstream makes it write, or the error of a failed connection. *)
Variable RoundTrip : nat -> http.Request -> (http.ResponseWriter -> http.ResponseWriter) + string.

Definition ReverseProxy_ServeHTTP (peer : nat) : http.Handler ServerPool.t :=
  fun w r s =>
    match RoundTrip peer r with
    | inl respond => (respond w, s, [])
    | inr e =>
        let url := match ServerPool.backends s !! peer with
                   | Some b => Backend.URL b
                   | None => EmptyString
                   end in
        ServerPool.ErrorHandler peer url e w r s
    end.

Record Selection : Type := mkSelection {
  sel_peer : option nat;
  sel_attempts : Z;
  sel_pool : ServerPool.t;
  sel_trace : list Event
}.

(** The loop [for attempts < maxAttempts]; [None] when [fuel] runs out. *)
Fixpoint selectPeer (fuel : nat) (r : http.Request) (attempts maxAttempts : Z)
    (s : ServerPool.t) : option Selection :=
  if attempts <? maxAttempts then
    match fuel with
    | O => None
    | S fuel' =>
        let '(found, s1) := ServerPool.GetNextPeer s in
        match found with
        | Some _ => Some (mkSelection found attempts s1 [Called "GetNextPeer"])
        | None =>
            match selectPeer fuel' r (attempts + 1) maxAttempts (interference attempts s1) with
            | Some sel =>
                Some (mkSelection (sel_peer sel) (sel_attempts sel) (sel_pool sel)
                        (Called "GetNextPeer"
                         :: Printf "WARN: Attempt %d: No alive peer found for request [%s %s]. Retrying..."
                                   [AInt (attempts + 1); AStr (http.Method r); AStr (http.Path r)]
                         :: Sleep (10 * Time.Millisecond) :: sel_trace sel))
            | None => None
            end
        end
    end
  else Some (mkSelection None attempts s []).

(** The handler returned for a pool with backends; [None] when the loop
    ran out of fuel. *)
Definition dispatch (w : http.ResponseWriter) (r : http.Request) (s : ServerPool.t)
    : option (http.ResponseWriter * ServerPool.t * list Event) :=
  let received :=
    Printf "INFO: Received request: %s %s %s from %s"
           [AStr (http.Method r); AStr (http.Host r); AStr (http.Path r);
            AStr (http.RemoteAddr r)] in
  let maxAttempts := Z.of_nat (length (ServerPool.GetBackends s)) in
  match selectPeer (length (ServerPool.GetBackends s)) r 0 maxAttempts s with
  | None => None
  | Some sel =>
      match sel_peer sel with
      | None =>
          let '(w1, evs) :=
            httputil.RespondWithError w http.StatusServiceUnavailable
              "Service Unavailable: No backend servers available" in
          Some (w1, sel_pool sel,
                received :: sel_trace sel
                ++ Printf "ERROR: No available backends after %d attempts for request [%s %s]"
                          [AInt maxAttempts; AStr (http.Method r); AStr (http.Path r)]
                :: evs)
      | Some p =>
          let url := match ServerPool.backends (sel_pool sel) !! p with
                     | Some b => Backend.URL b
                     | None => EmptyString
                     end in
          let '(w1, s1, evs) :=
            ReverseProxy_ServeHTTP p w (http.WithRetry (sel_attempts sel) r) (sel_pool sel) in
          Some (w1, s1,
                received :: sel_trace sel
                ++ Printf "INFO: Forwarding request [%s %s] to backend %s"
                          [AStr (http.Method r); AStr (http.Path r); AStr url]
                :: evs)
      end
  end.

(** [NewLoadBalancerHandler pool]: the pool pointer may be nil. *)
Definition NewLoadBalancerHandler (pool : option ServerPool.t)
    (w : http.ResponseWriter) (r : http.Request)
    : option (http.ResponseWriter * option ServerPool.t * list Event) :=
  let unconfigured :=
    let '(w1, evs) :=
      httputil.RespondWithError w http.StatusInternalServerError
        "Load Balancer Configuration Error" in
    Some (w1, pool,
          Printf "ERROR: Load balancer is not configured or has no valid backends. Request [%s %s]"
                 [AStr (http.Method r); AStr (http.Path r)] :: evs) in
  match pool with
  | None => unconfigured
  | Some s =>
      if (length (ServerPool.GetBackends s) =? 0)%nat then unconfigured
      else
        match dispatch w r s with
        | Some (w1, s1, evs) => Some (w1, Some s1, evs)
        | None => None
        end
  end.

End Handler.

End Dispatcher.

(** ** package middleware *)

Module middleware.

(** The client identifier [RateLimit] derives from [r.RemoteAddr]. *)
Definition clientIP (remoteAddr : string) : string :=
  let ip := remoteAddr in
  let colonPos := strings.LastIndex ip ":" in
  let ip := if negb (colonPos =? -1) then strings.slice ip 0 colonPos else ip in
  if strings.HasPrefix ip "[" && strings.HasSuffix ip "]"
  then strings.slice ip 1 (strings.len ip - 1)
  else ip.

Definition RateLimit `{arch : Float64.GoArch} {S : Type} (clk : Limiter.Clock)
    (next : http.Handler S) : http.Handler (Limiter.t * S) :=
  fun w r st =>
    let '(limiter, s) := st in
    let ip := clientIP (http.RemoteAddr r) in
    let '(ok, limiter1, evs) := Limiter.Allow clk ip limiter in
    if negb ok then
      let '(w1, evs1) :=
        httputil.RespondWithError w http.StatusTooManyRequests "Rate limit exceeded" in
      (w1, (limiter1, s),
       evs ++ Printf "WARN: Rate limit exceeded for client %s on %s" [AStr ip; AStr (http.Path r)]
           :: evs1)
    else
      let '(w1, s1, evs1) := next w r s in
      (w1, (limiter1, s1),
       evs ++ Printf "DEBUG: Request allowed for client %s on %s" [AStr ip; AStr (http.Path r)]
           :: evs1).

End middleware.

(** ** package ratelimiter: the interface [LimitManager]

    [M] is the state of what implements it; an error is its text. *)

Class LimitManager (M : Type) : Type := {
  GetLimit : string -> M -> Z * Float64.t * bool;
  SetLimit : string -> Z -> Float64.t -> M -> M * option string;
  DeleteLimit : string -> M -> M * option string
}.

(** ** package adminapi *)

Module adminapi.

Module setLimitRequest.
Record t : Type := mk { ClientID : string; Capacity : Z; Rate : Float64.t }.
End setLimitRequest.

Module limitResponse.
Record t : Type := mk { ClientID : string; Capacity : Z; Rate : Float64.t }.
End limitResponse.

Section AdminHandler.

Context {M : Type} `{manager : LimitManager M}.

(** [json.NewDecoder(r.Body).Decode(&req)] on the bytes of the body, and
    [json.Marshal] of a [limitResponse], from the standard library. *)
Variable json_Decode : string -> setLimitRequest.t + string.
Variable json_Marshal : limitResponse.t -> string + string.

(** [httputil.RespondWithError] on a path that leaves the manager as it
    is. *)
Definition respond (w : http.ResponseWriter) (code : Z) (message : string) (m : M)
    : http.ResponseWriter * M * list Event :=
  let '(w1, evs) := httputil.RespondWithError w code message in (w1, m, evs).

Definition handleSetLimit (w : http.ResponseWriter) (body : string) (m : M)
    : http.ResponseWriter * M * list Event :=
  match json_Decode body with
  | inr err => respond w http.StatusBadRequest ("Invalid request body: " +:+ err) m
  | inl req =>
      if String.eqb (setLimitRequest.ClientID req) EmptyString then
        respond w http.StatusBadRequest "client_id is required" m
      else if setLimitRequest.Capacity req <=? 0 then
        respond w http.StatusBadRequest "capacity must be positive" m
      else if Float64.leb (setLimitRequest.Rate req) Float64.zero then
        respond w http.StatusBadRequest "rate must be positive" m
      else
        let '(m1, err) :=
          SetLimit (setLimitRequest.ClientID req) (setLimitRequest.Capacity req)
                   (setLimitRequest.Rate req) m in
        match err with
        | Some e => respond w http.StatusInternalServerError ("Failed to set limit: " +:+ e) m1
        | None =>
            let resp := {| limitResponse.ClientID := setLimitRequest.ClientID req;
                           limitResponse.Capacity := setLimitRequest.Capacity req;
                           limitResponse.Rate := setLimitRequest.Rate req |} in
            let '(w1, evs) := httputil.RespondWithJSON w http.StatusOK (json_Marshal resp) in
            (w1, m1, evs)
        end
  end.

Definition handleGetLimit (w : http.ResponseWriter) (clientID : string) (m : M)
    : http.ResponseWriter * M * list Event :=
  if String.eqb clientID EmptyString then
    respond w http.StatusBadRequest "Client ID missing in path" m
  else
    let '(capacity, rate, found) := GetLimit clientID m in
    if negb found then
      respond w http.StatusNotFound ("Limit not found for client " +:+ clientID) m
    else
      let resp := {| limitResponse.ClientID := clientID;
                     limitResponse.Capacity := capacity;
                     limitResponse.Rate := rate |} in
      let '(w1, evs) := httputil.RespondWithJSON w http.StatusOK (json_Marshal resp) in
      (w1, m, evs).

Definition handleDeleteLimit (w : http.ResponseWriter) (clientID : string) (m : M)
    : http.ResponseWriter * M * list Event :=
  if String.eqb clientID EmptyString then
    respond w http.StatusBadRequest "Client ID missing in path" m
  else
    let '(m1, err) := DeleteLimit clientID m in
    match err with
    | Some e => respond w http.StatusInternalServerError ("Failed to delete limit: " +:+ e) m1
    | None => (http.WriteHeader http.StatusNoContent w, m1, [])
    end.

(** The part of [r.URL.Path] the router works on. *)
Definition routePath (r : http.Request) : string :=
  strings.Trim (strings.TrimPrefix (http.Path r) "/admin/limits") "/".

(** [body] is what reading [r.Body] yields. *)
Definition ServeHTTP (w : http.ResponseWriter) (r : http.Request) (body : string) (m : M)
    : http.ResponseWriter * M * list Event :=
  let path := routePath r in
  if String.eqb (http.Method r) http.MethodPost then
    if String.eqb path EmptyString then handleSetLimit w body m
    else respond w http.StatusMethodNotAllowed
           "Method Not Allowed (POST expects no client ID in path)" m
  else if String.eqb (http.Method r) http.MethodGet then
    if negb (String.eqb path EmptyString) then handleGetLimit w path m
    else respond w http.StatusNotImplemented "Listing limits is not implemented" m
  else if String.eqb (http.Method r) http.MethodDelete then
    if negb (String.eqb path EmptyString) then handleDeleteLimit w path m
    else respond w http.StatusMethodNotAllowed
           "Method Not Allowed (DELETE expects client ID in path)" m
  else respond w http.StatusMethodNotAllowed "Method Not Allowed" m.

End AdminHandler.

End adminapi.

(** ** package config *)

Module config.

Record DBConfig : Type := mkDBConfig {
  Driver : string;
  Path : string
}.

Record RateLimiterConfig : Type := mkRateLimiterConfig {
  Enabled : bool;
  DefaultCapacity : Z;
  DefaultRefillRate : Float64.t;
  CleanupIntervalStr : string;
  CleanupInterval : Time.Duration;
  DB : DBConfig
}.

Record Config : Type := mkConfig {
  Port : string;
  Backends : list string;
  HealthCheckIntervalStr : string;
  HealthCheckTimeoutStr : string;
  HealthCheckInterval : Time.Duration;
  HealthCheckTimeout : Time.Duration;
  RateLimiter : RateLimiterConfig
}.

(** How a call of [LoadConfig] ends: with the configuration, with an
    error, or in [log.Fatal], which ends the program. *)
Inductive Outcome : Type :=
| Loaded (cfg : Config)
| Failed (err : string)
| Fatal (line : string).

(** The configuration [LoadConfig] starts from. *)
Definition defaults : Config :=
  {| Port := ":8080";
     Backends := [];
     HealthCheckIntervalStr := "10s";
     HealthCheckTimeoutStr := "2s";
     HealthCheckInterval := 0;
     HealthCheckTimeout := 0;
     RateLimiter :=
       {| Enabled := false;
          DefaultCapacity := 10;
          DefaultRefillRate := Float64.of_int 1;
          CleanupIntervalStr := "5m";
          CleanupInterval := 0;
          DB := {| Driver := EmptyString; Path := EmptyString |} |} |}.

Definition setPort (port : string) (cfg : Config) : Config :=
  {| Port := port; Backends := Backends cfg;
     HealthCheckIntervalStr := HealthCheckIntervalStr cfg;
     HealthCheckTimeoutStr := HealthCheckTimeoutStr cfg;
     HealthCheckInterval := HealthCheckInterval cfg;
     HealthCheckTimeout := HealthCheckTimeout cfg;
     RateLimiter := RateLimiter cfg |}.

Definition setHealthCheckInterval (d : Time.Duration) (cfg : Config) : Config :=
  {| Port := Port cfg; Backends := Backends cfg;
     HealthCheckIntervalStr := HealthCheckIntervalStr cfg;
     HealthCheckTimeoutStr := HealthCheckTimeoutStr cfg;
     HealthCheckInterval := d;
     HealthCheckTimeout := HealthCheckTimeout cfg;
     RateLimiter := RateLimiter cfg |}.

Definition setHealthCheckTimeout (d : Time.Duration) (cfg : Config) : Config :=
  {| Port := Port cfg; Backends := Backends cfg;
     HealthCheckIntervalStr := HealthCheckIntervalStr cfg;
     HealthCheckTimeoutStr := HealthCheckTimeoutStr cfg;
     HealthCheckInterval := HealthCheckInterval cfg;
     HealthCheckTimeout := d;
     RateLimiter := RateLimiter cfg |}.

Section LoadConfig.

(** From the standard library and [yaml.v3]: [os.ReadFile] returns the
    bytes or an error, [os.IsNotExist] classifies the error,
    [yaml.Unmarshal] fills the configuration it is given and may return an
    error, [os.Getenv] reads a variable, [time.ParseDuration] returns the
    duration or an error. *)
Variable os_ReadFile : string -> string + string.
Variable os_IsNotExist : string -> bool.
Variable yaml_Unmarshal : string -> Config -> Config * option string.
Variable os_Getenv : string -> string.
Variable time_ParseDuration : string -> Time.Duration + string.

(** The checks on the rate limiter section. *)
Definition validate (cfg : Config) : Outcome :=
  if Enabled (RateLimiter cfg) then
    if DefaultCapacity (RateLimiter cfg) <=? 0 then
      Failed "rate_limiter.default_capacity must be positive"
    else if Float64.leb (DefaultRefillRate (RateLimiter cfg)) Float64.zero then
      Failed "rate_limiter.default_refill_rate must be positive"
    else if negb (String.eqb (Driver (DB (RateLimiter cfg))) EmptyString) then
      if negb (String.eqb (Driver (DB (RateLimiter cfg))) "sqlite") then
        Failed ("unsupported rate_limiter.db.driver: " +:+ Driver (DB (RateLimiter cfg))
                +:+ " (only 'sqlite' is supported)")
      else if String.eqb (Path (DB (RateLimiter cfg))) EmptyString then
        Failed "rate_limiter.db.path must be specified when db.driver is set"
      else Loaded cfg
    else Loaded cfg
  else Loaded cfg.

Definition LoadConfig (configPath : string) : Outcome * list Event :=
  let cfg := defaults in
  let '(cfg, evs1) :=
    match os_ReadFile configPath with
    | inl fileData =>
        let '(cfg1, err) := yaml_Unmarshal fileData cfg in
        match err with
        | Some e =>
            (cfg1,
             [Printf "WARN: Could not parse config file '%s' as YAML: %v. Using defaults/env/flags."
                     [AStr configPath; AStr e]])
        | None => (cfg1, [Printf "INFO: Loaded configuration from %s" [AStr configPath]])
        end
    | inr err =>
        if negb (os_IsNotExist err) then
          (cfg,
           [Printf "WARN: Could not read config file '%s': %v. Using defaults/env/flags."
                   [AStr configPath; AStr err]])
        else
          (cfg,
           [Printf "INFO: Config file '%s' not found. Using defaults/env/flags."
                   [AStr configPath]])
    end in
  let addr := os_Getenv "LB_LISTEN_ADDR" in
  let cfg := if negb (String.eqb addr EmptyString) then setPort addr cfg else cfg in
  let '(cfg, evs2) :=
    match time_ParseDuration (HealthCheckIntervalStr cfg) with
    | inl d => (setHealthCheckInterval d cfg, [])
    | inr parseErr =>
        (setHealthCheckInterval (Int64.mul 10 Time.Second) cfg,
         [Printf "WARN: Invalid health_check_interval format '%s': %v. Using default 10s."
                 [AStr (HealthCheckIntervalStr cfg); AStr parseErr]])
    end in
  let '(cfg, evs3) :=
    match time_ParseDuration (HealthCheckTimeoutStr cfg) with
    | inl d => (setHealthCheckTimeout d cfg, [])
    | inr parseErr =>
        (setHealthCheckTimeout (Int64.mul 2 Time.Second) cfg,
         [Printf "WARN: Invalid health_check_timeout format '%s': %v. Using default 2s."
                 [AStr (HealthCheckTimeoutStr cfg); AStr parseErr]])
    end in
  let evs := evs1 ++ evs2 ++ evs3 in
  if (length (Backends cfg) =? 0)%nat then
    (Fatal "FATAL: No backend servers configured. Please provide backends in config file or via environment variables.",
     evs)
  else (validate cfg, evs).

End LoadConfig.

End config.

(** ** The spec's wording of peer selection

    Written from the sentences of the spec, to be compared with
    [ServerPool.GetNextPeer]. *)

Module PeerSpec.

(** [count] positions from [start] on, each taken modulo [n]. *)
Fixpoint positions (n start : Z) (count : nat) : list Z :=
  match count with
  | O => []
  | S count' => start mod n :: positions n (start + 1) count'
  end.

(** "Scan [n] positions starting at [(c + 1) mod n]". *)
Definition scan_order (c n : Z) : list Z := positions n ((c + 1) mod n) (Z.to_nat n).

Definition alive_at (bs : list Backend.t) (idx : Z) : bool :=
  match bs !! Z.to_nat idx with
  | Some b => Backend.Alive b
  | None => false
  end.

(** "Return the first Backend whose Alive flag is set, storing its index
    into the cursor.  If none are alive, return no peer"; "on an empty
    pool returns no peer without scanning". *)
Definition GetNextPeer (s : ServerPool.t) : option nat * ServerPool.t :=
  let n := Z.of_nat (length (ServerPool.backends s)) in
  if n =? 0 then (None, s)
  else
    match List.find (alive_at (ServerPool.backends s)) (scan_order (ServerPool.current s) n) with
    | Some idx => (Some (Z.to_nat idx), ServerPool.Store idx s)
    | None => (None, s)
    end.

(** The cursor of a pool in use: [NewServerPool] sets it to 0 and
    [GetNextPeer] only stores indices of the slice, whose length is at
    most [2^63 - 1]; so adding the length to it stays within [uint64]. *)
Definition cursor_ok (s : ServerPool.t) : Prop :=
  0 <= ServerPool.current s
  /\ ServerPool.current s + Z.of_nat (length (ServerPool.backends s)) < 2 ^ 64.

(** A Backend as [NewServerPool] enters it. *)
Definition unchecked (url : string) : Backend.t :=
  {| Backend.URL := url; Backend.Alive := false |}.

Definition all_down (s : ServerPool.t) : Prop :=
  Forall (fun b => Backend.Alive b = false) (ServerPool.backends s).

Definition all_up (s : ServerPool.t) : Prop :=
  Forall (fun b => Backend.Alive b = true) (ServerPool.backends s).

(** The index [j] positions after the one that follows the cursor [c], in
    a slice of [n]. *)
Definition after_cursor (c n : Z) (j : nat) : nat := Z.to_nat ((c + 1 + Z.of_nat j) mod n).

(** A Backend with its flag set to what the dial to its host finds. *)
Definition probed (url_Host : string -> string)
    (net_DialTimeout : string -> string -> Time.Duration -> option string)
    (timeout : Time.Duration) (b : Backend.t) : Backend.t :=
  Backend.SetAlive (ServerPool.isBackendAlive url_Host net_DialTimeout (Backend.URL b) timeout) b.

(** The pool as the [j]-th selection attempt from now finds it, when this
    attempt has number [a] and finds the pool [s], and no attempt before
    that one finds a peer: after each of them the handler sleeps, and the
    other goroutines do to the pool what [interference] says. *)
Fixpoint pool_at (interference : Z -> ServerPool.t -> ServerPool.t) (a : Z) (j : nat)
    (s : ServerPool.t) : ServerPool.t :=
  match j with
  | O => s
  | S j' => pool_at interference (a + 1) j' (interference a (snd (ServerPool.GetNextPeer s)))
  end.

(** What selection attempt number [k] (from 0) of a request that finds
    the pool [s] gets from [GetNextPeer], when the attempts before it
    found no peer: the peer, if any, and the pool left behind. *)
Definition attempt (interference : Z -> ServerPool.t -> ServerPool.t) (k : nat)
    (s : ServerPool.t) : option nat * ServerPool.t :=
  ServerPool.GetNextPeer (pool_at interference 0 k s).

End PeerSpec.

(** The cursor of a pool in use points into the slice (or is still 0). *)
Definition cursor_in_slice (s : ServerPool.t) : Prop :=
  ServerPool.current s = 0
  \/ 0 <= ServerPool.current s < Z.of_nat (length (ServerPool.backends s)).

(** ** float64 values in exact arithmetic *)

(** The rational [m * 2^e]. *)
Definition F2Q (m e : Z) : Q := inject_Z m * (2 ^ e)%Q.

(** The relative error of one rounding, and the least positive
    [float64]. *)
Definition eps : Q := (2 ^ (-52))%Q.
Definition tiny : Q := (2 ^ (-1074))%Q.

(** A float that is zero or positive and whose value is at most [B]. *)
Definition at_most (x : spec_float) (B : Q) : Prop :=
  match x with
  | S754_zero false => (0 <= B)%Q
  | S754_finite false m e => (F2Q (Zpos m) e <= B)%Q
  | _ => False
  end.

(** ** The spec's wording of the token bucket *)

Module BucketSpec.

(** The tokens [refill] computes for a wait: the integer part of the
    [float64] product [duration.Seconds() * refillRate], each operation
    rounded as the code rounds it; [None] when the product is not a
    finite number.  This is the code's computation, not the floor of the
    exact product, which is [floor_exact] below. *)
Definition floor_tokens (elapsed : Time.Duration) (rate : Float64.t) : option Z :=
  Float64.trunc (Float64.mul (Time.Seconds elapsed) rate).

(** "[0 ≤ tokens ≤ capacity]" *)
Definition tokens_in_range (b : Bucket.t) : Prop :=
  0 <= Bucket.tokens b <= Bucket.capacity b.

(** The times that pass between consecutive clock readings, the first
    one counted from [last]. *)
Fixpoint gaps (last : Time.t) (times : list Time.t) : list Time.Duration :=
  match times with
  | [] => []
  | now :: rest => (now - last) :: gaps now rest
  end.

(** A wait too short to earn a token: none passes, or the refill it
    triggers computes zero tokens. *)
Definition under_one_token (rate : Float64.t) (elapsed : Time.Duration) : Prop :=
  0 <= elapsed <= Time.maxDuration
  /\ (elapsed = 0 \/ floor_tokens elapsed rate = Some 0).

(** One nanosecond, in seconds. *)
Definition nano : Q := 1 # 1000000000.

(** "[elapsed_seconds × refillRate]" in exact arithmetic, for the rate
    [m * 2^e]: the tokens a wait of [elapsed] nanoseconds earns. *)
Definition earned (elapsed : Time.Duration) (m : positive) (e : Z) : Q :=
  inject_Z elapsed * nano * F2Q (Zpos m) e.

(** "[floor(elapsed_seconds × refillRate)]" in exact arithmetic, for a
    rate that is a number. *)
Definition floor_exact (elapsed : Time.Duration) (rate : Float64.t) : option Z :=
  match rate with
  | S754_zero _ => Some 0
  | S754_finite s m e =>
      Some (Qfloor (inject_Z elapsed * nano * F2Q (if s then Zneg m else Zpos m) e))
  | S754_infinity _ | S754_nan => None
  end.

(** "Strictly less than [1/refillRate] seconds": at a positive rate, a
    wait that in exact arithmetic earns less than one token. *)
Definition less_than_one_token (rate : Float64.t) (elapsed : Time.Duration) : Prop :=
  0 <= elapsed <= Time.maxDuration
  /\ match rate with
     | S754_finite false m e => (earned elapsed m e < 1)%Q
     | _ => False
     end.

(** [1 - 2^-40] of a token. *)
Definition margin : Q := 1 - (1 # 1099511627776).

(** A wait well under one token: the rate is a positive [float64] and
    the wait earns, in exact arithmetic, at most [1 - 2^-40] of a
    token. *)
Definition well_under_one_token (rate : Float64.t) (elapsed : Time.Duration) : Prop :=
  0 <= elapsed <= Time.maxDuration
  /\ match rate with
     | S754_finite false m e =>
         bounded Float64.prec Float64.emax m e = true /\ (earned elapsed m e <= margin)%Q
     | _ => False
     end.

(** The most the tokens earned can become through the roundings of
    [Seconds] and of the product: [2^-49] of them and [2^-47] more. *)
Definition rounded_up (tokens : Q) : Q :=
  tokens * (1 + (1 # 562949953421312)) + (1 # 140737488355328).

(** A wait whose tokens, added to a full Bucket, stay within [int64]:
    the rate is a positive [float64] and, in exact arithmetic, capacity
    plus the tokens earned (with the most rounding can add) is at most
    [2^63 - 1]. *)
Definition within_int64 (capacity : Z) (rate : Float64.t) (elapsed : Time.Duration) : Prop :=
  0 <= elapsed <= Time.maxDuration
  /\ match rate with
     | S754_finite false m e =>
         bounded Float64.prec Float64.emax m e = true
         /\ (inject_Z capacity + rounded_up (earned elapsed m e) <= 9223372036854775807)%Q
     | _ => False
     end.

(** "A fresh Bucket starts full ([tokens = capacity]) with
    [lastRefill = lastAccess = now]". *)
Definition fresh (now : Time.t) (capacity : Z) (rate : Float64.t) : Bucket.t :=
  {| Bucket.capacity := capacity; Bucket.tokens := capacity; Bucket.refillRate := rate;
     Bucket.lastRefill := now; Bucket.lastAccess := now |}.

(** The outcome of a look-up that created a Bucket with the given
    parameters for [clientID], with or without a warning in the log. *)
Definition created (now : Time.t) (clientID : string) (s : BucketStore.t)
    (capacity : Z) (rate : Float64.t) (warned : bool)
    (outcome : option Bucket.t * BucketStore.t * list Event) : Prop :=
  let '(bucket, s', evs) := outcome in
  bucket = Some (fresh now capacity rate)
  /\ s' = {| BucketStore.buckets := <[clientID := fresh now capacity rate]> (BucketStore.buckets s);
             BucketStore.defaultCapacity := BucketStore.defaultCapacity s;
             BucketStore.defaultRefillRate := BucketStore.defaultRefillRate s;
             BucketStore.limitProvider := BucketStore.limitProvider s |}
  /\ existsb is_warning evs = warned.

(** The Bucket with [lastRefill] set to [now] and nothing else changed. *)
Definition stamped (now : Time.t) (b : Bucket.t) : Bucket.t :=
  {| Bucket.capacity := Bucket.capacity b;
     Bucket.tokens := Bucket.tokens b;
     Bucket.refillRate := Bucket.refillRate b;
     Bucket.lastRefill := now;
     Bucket.lastAccess := Bucket.lastAccess b |}.

(** How many calls of a run were allowed. *)
Definition successes (results : list bool) : Z :=
  Z.of_nat (length (List.filter (fun ok : bool => ok) results)).

(** A wait that earns no token, by the refill's own computation or by
    exact arithmetic. *)
Definition earns_nothing (rate : Float64.t) (elapsed : Time.Duration) : Prop :=
  under_one_token rate elapsed \/ well_under_one_token rate elapsed.

(** The second clock reading of the last call of a run that was allowed;
    [before] when none was. *)
Fixpoint lastAllowed (times : list (Time.t * Time.t)) (results : list bool) (before : Time.t)
    : Time.t :=
  match times, results with
  | (_, now') :: times', ok :: results' => lastAllowed times' results' (if ok then now' else before)
  | _, _ => before
  end.

(** Defaults as [NewBucketStore] accepts them. *)
Definition valid_defaults (s : BucketStore.t) : Prop :=
  0 < BucketStore.defaultCapacity s
  /\ Float64.leb (BucketStore.defaultRefillRate s) Float64.zero = false.

(** The store once the answers of its provider have changed. *)
Definition withProvider (provider : option BucketStore.LimitProvider) (s : BucketStore.t)
    : BucketStore.t :=
  {| BucketStore.buckets := BucketStore.buckets s;
     BucketStore.defaultCapacity := BucketStore.defaultCapacity s;
     BucketStore.defaultRefillRate := BucketStore.defaultRefillRate s;
     BucketStore.limitProvider := provider |}.

(** Whether a tick of [runCleanup] finds the Bucket [b] of [id] inactive,
    examining it at the reading [clock id]. *)
Definition inactive_at (clock : string -> Time.t) (l : Limiter.t) (id : string) (b : Bucket.t)
    : bool :=
  Bucket.IsInactive (clock id) (Limiter.inactivityThreshold l) b.

End BucketSpec.

(** ** The spec's wording of the client identifier *)

Module IdentSpec.

Fixpoint has_colon (s : string) : bool :=
  match s with
  | EmptyString => false
  | String c s' => Ascii.eqb c ":"%char || has_colon s'
  end.

(** "Of the form [[v6-addr]]". *)
Definition bracketed (s : string) : Prop := exists x, s = "[" +:+ x +:+ "]".

End IdentSpec.

(** ** The spec's wording of the failure responses and of a trace *)

Module ReplySpec.

(** The 502 body of the spec, [{"code":502,"message":...}]. *)
Definition bad_gateway : string :=
  json.lit "{'code':502,'message':'Bad Gateway: Error connecting to backend'}".

(** The 503 body of the spec. *)
Definition service_unavailable : string :=
  json.lit "{'code':503,'message':'Service Unavailable: No backend servers available'}".

Definition json_content_type : list string := ["application/json; charset=utf-8"].

(** How often a trace calls [method]. *)
Fixpoint calls (method : string) (trace : list Event) : nat :=
  match trace with
  | [] => O
  | Called m :: rest => ((if String.eqb m method then 1 else 0) + calls method rest)%nat
  | _ :: rest => calls method rest
  end.

(** The sleeps of a trace, in order. *)
Fixpoint sleeps (trace : list Event) : list Time.Duration :=
  match trace with
  | [] => []
  | Sleep d :: rest => d :: sleeps rest
  | _ :: rest => sleeps rest
  end.

(** The 429 body. *)
Definition too_many_requests : string :=
  json.lit "{'code':429,'message':'Rate limit exceeded'}".

(** The line [RespondWithError] logs. *)
Definition responding (code : Z) (message : string) : Event :=
  Printf "ERROR: Responding with error: code=%d, message=%s" [AInt code; AStr message].

End ReplySpec.

(** ** Paths of the admin API *)

Module RouteSpec.

(** [k] slashes. *)
Fixpoint slashes (k : nat) : string :=
  match k with
  | O => EmptyString
  | S k' => String "/" (slashes k')
  end.

(** A string that neither begins nor ends with a slash. *)
Definition bare (s : string) : Prop :=
  strings.HasPrefix s "/" = false /\ strings.HasSuffix s "/" = false.

End RouteSpec.

(** ** Sample values *)

Module Sample.

Definition pool_1dead : ServerPool.t :=
  {| ServerPool.backends :=
       [ {| Backend.URL := "http://backend1:8081"; Backend.Alive := true |};
         {| Backend.URL := "http://backend2:8082"; Backend.Alive := false |};
         {| Backend.URL := "http://backend3:8083"; Backend.Alive := true |} ];
     ServerPool.current := 0;
     ServerPool.healthCheckInterval := 10 * Time.Second;
     ServerPool.healthCheckTimeout := 2 * Time.Second |}.

(** The pool with every Backend down. *)
Definition pool_all_dead : ServerPool.t :=
  {| ServerPool.backends :=
       [ {| Backend.URL := "http://backend1:8081"; Backend.Alive := false |};
         {| Backend.URL := "http://backend2:8082"; Backend.Alive := false |};
         {| Backend.URL := "http://backend3:8083"; Backend.Alive := false |} ];
     ServerPool.current := 0;
     ServerPool.healthCheckInterval := 10 * Time.Second;
     ServerPool.healthCheckTimeout := 2 * Time.Second |}.

(** Nothing else touches the pool. *)
Definition quiet : Z -> ServerPool.t -> ServerPool.t := fun _ s => s.

(** During the first sleep the health checker finds the second Backend
    up. *)
Definition second_comes_up : Z -> ServerPool.t -> ServerPool.t :=
  fun k s => if k =? 0 then ServerPool.SetAlive 1 true s else s.

(** No upstream can be reached. *)
Definition unreachable
    : nat -> http.Request -> (http.ResponseWriter -> http.ResponseWriter) + string :=
  fun _ _ => inr "dial tcp: connection refused".

Definition get_root : http.Request :=
  {| http.Method := "GET"; http.Host := "localhost:8080"; http.Path := "/";
     http.RemoteAddr := "127.0.0.1:54321"; http.ctxRetry := None |}.

Definition one : Float64.t := Float64.of_int 1.

(** A Bucket of capacity [capacity] and one token per second, drained
    at [at_]. *)
Definition drained (capacity : Z) (at_ : Time.t) : Bucket.t :=
  {| Bucket.capacity := capacity; Bucket.tokens := 0; Bucket.refillRate := one;
     Bucket.lastRefill := at_; Bucket.lastAccess := at_ |}.

Definition two : Float64.t := Float64.of_int 2.

(** A provider with a custom limit for one client, an invalid one for
    another, and none for the rest. *)
Definition provider : BucketStore.LimitProvider :=
  fun clientID =>
    if String.eqb clientID "1.2.3.4" then (5, two, true)
    else if String.eqb clientID "6.6.6.6" then (0, two, true)
    else (0, Float64.zero, false).

Definition store : BucketStore.t :=
  {| BucketStore.buckets := ∅;
     BucketStore.defaultCapacity := 3;
     BucketStore.defaultRefillRate := one;
     BucketStore.limitProvider := Some provider |}.

(** A full Bucket of the largest capacity, created at time 0, and what the
    first take, one second later, leaves of it. *)
Definition widest : Bucket.t :=
  {| Bucket.capacity := Int64.max_int; Bucket.tokens := Int64.max_int;
     Bucket.refillRate := one; Bucket.lastRefill := 0; Bucket.lastAccess := 0 |}.

Definition widest_after_1s : Bucket.t :=
  {| Bucket.capacity := Int64.max_int; Bucket.tokens := Int64.min_int;
     Bucket.refillRate := one; Bucket.lastRefill := 1000000000; Bucket.lastAccess := 0 |}.

Definition at_once (now : Time.t) (calls : nat) : list (Time.t * Time.t) :=
  repeat (now, now) calls.

(** One call every 0.9 s, starting 0.9 s after time 0. *)
Definition every_900ms : list (Time.t * Time.t) :=
  [ (900000000, 900000000); (1800000000, 1800000000);
    (2700000000, 2700000000); (3600000000, 3600000000) ].

(** The [float64] nearest to one third. *)
Definition third : Float64.t := Float64.div (Float64.of_int 1) (Float64.of_int 3).

(** A Bucket of capacity 5 at that rate, drained at time 0. *)
Definition drained_third : Bucket.t :=
  {| Bucket.capacity := 5; Bucket.tokens := 0; Bucket.refillRate := third;
     Bucket.lastRefill := 0; Bucket.lastAccess := 0 |}.

(** One call every 3 s, starting 3 s after time 0. *)
Definition every_3s : list (Time.t * Time.t) :=
  [ (3000000000, 3000000000); (6000000000, 6000000000); (9000000000, 9000000000) ].

(** A Bucket of capacity 5 at [10^19] tokens per second, drained at
    time 0. *)
Definition drained_fast : Bucket.t :=
  {| Bucket.capacity := 5; Bucket.tokens := 0;
     Bucket.refillRate := Float64.of_int 10000000000000000000;
     Bucket.lastRefill := 0; Bucket.lastAccess := 0 |}.

(** One call every 0.1 s, starting 0.1 s after time 0. *)
Definition every_100ms : list (Time.t * Time.t) :=
  [ (100000000, 100000000); (200000000, 200000000); (300000000, 300000000);
    (400000000, 400000000); (500000000, 500000000) ].

(** A Bucket of three tokens, one per second, made at time 0. *)
Definition full3 : Bucket.t := BucketSpec.fresh 0 3 one.


Definition clk : Limiter.Clock :=
  {| Limiter.atCreate := 0; Limiter.atRefill := 10; Limiter.atAccess := 20 |}.

(** A limiter over the sample store, cleaning up every minute. *)
Definition limiter : Limiter.t :=
  {| Limiter.store := store; Limiter.cleanupInterval := Time.Minute |}.

(** Two clients: one last served at time 0, one 100 s later. *)
Definition idle : Bucket.t := drained 3 0.
Definition recent : Bucket.t := drained 3 100000000000.

Definition busy_limiter : Limiter.t :=
  {| Limiter.store :=
       {| BucketStore.buckets := <["1.2.3.4" := idle]> (<["5.6.7.8" := recent]> ∅);
          BucketStore.defaultCapacity := 3;
          BucketStore.defaultRefillRate := one;
          BucketStore.limitProvider := Some provider |};
     Limiter.cleanupInterval := Time.Minute |}.

(** Every Bucket is examined 130 s after time 0. *)
Definition at_130s : string -> Time.t := fun _ => 130000000000.


(** The sample limiter after the first request of a client. *)
Definition served : Limiter.t :=
  snd (fst (Limiter.Allow (arch := Float64.amd64) clk "1.2.3.4" limiter)).

(** Every Bucket is examined 30 s after time 0. *)
Definition at_30s : string -> Time.t := fun _ => 30000000000.

Definition pool_all_up : ServerPool.t :=
  {| ServerPool.backends :=
       [ {| Backend.URL := "http://backend1:8081"; Backend.Alive := true |};
         {| Backend.URL := "http://backend2:8082"; Backend.Alive := true |};
         {| Backend.URL := "http://backend3:8083"; Backend.Alive := true |} ];
     ServerPool.current := 0;
     ServerPool.healthCheckInterval := 10 * Time.Second;
     ServerPool.healthCheckTimeout := 2 * Time.Second |}.

(** The host of a URL is taken to be the URL, and only the second
    Backend refuses the connection. *)
Definition host : string -> string := fun u => u.
Definition dial : string -> string -> Time.Duration -> option string :=
  fun _ address _ =>
    if String.eqb address "http://backend2:8082" then Some "connection refused" else None.


(** The client of [get_root] has used up its Bucket at 1 s. *)
Definition drained_limiter : Limiter.t :=
  {| Limiter.store :=
       {| BucketStore.buckets := <["127.0.0.1" := drained 5 1000000000]> ∅;
          BucketStore.defaultCapacity := 3;
          BucketStore.defaultRefillRate := one;
          BucketStore.limitProvider := None |};
     Limiter.cleanupInterval := Time.Minute |}.

(** A request half a second later. *)
Definition at_1500ms : Limiter.Clock :=
  {| Limiter.atCreate := 1500000000; Limiter.atRefill := 1500000000;
     Limiter.atAccess := 1500000000 |}.

(** A handler that answers [ok] and counts its calls. *)
Definition counting : http.Handler Z :=
  fun w r n => (http.Write "ok" w, n + 1, [Println "INFO: served"]).

(** Limits kept in memory, as a [LimitManager]. *)
Definition table : Type := gmap string (Z * Float64.t).

Definition table_manager : LimitManager table :=
  {| GetLimit := fun clientID (m : table) =>
       match m !! clientID with
       | Some (capacity, rate) => (capacity, rate, true)
       | None => (0, Float64.zero, false)
       end;
     SetLimit := fun clientID capacity rate (m : table) =>
       (<[clientID := (capacity, rate)]> m, None);
     DeleteLimit := fun clientID (m : table) => (delete clientID m, None) |}.

(** A decoder that knows three bodies, and an encoder that writes the
    client only. *)
Definition decode : string -> adminapi.setLimitRequest.t + string :=
  fun body =>
    if String.eqb body "good" then
      inl {| adminapi.setLimitRequest.ClientID := "1.2.3.4";
             adminapi.setLimitRequest.Capacity := 5;
             adminapi.setLimitRequest.Rate := two |}
    else if String.eqb body "empty" then
      inl {| adminapi.setLimitRequest.ClientID := EmptyString;
             adminapi.setLimitRequest.Capacity := 0;
             adminapi.setLimitRequest.Rate := Float64.zero |}
    else inr "unexpected end of JSON input".

Definition marshal : adminapi.limitResponse.t -> string + string :=
  fun resp => inl (json.encode_string (adminapi.limitResponse.ClientID resp)).

Definition admin_request (method path : string) : http.Request :=
  {| http.Method := method; http.Host := "localhost:8080"; http.Path := path;
     http.RemoteAddr := "127.0.0.1:54321"; http.ctxRetry := None |}.

Definition limits : table := <["1.2.3.4" := (5, two)]> ∅.


(** One file is there; the environment sets nothing. *)
Definition read_file : string -> string + string :=
  fun path =>
    if String.eqb path "config.yaml" then inl "rate_limiter: ..."
    else inr "open: no such file or directory".

Definition is_not_exist : string -> bool := fun _ => true.

Definition getenv : string -> string := fun _ => EmptyString.

Definition parse_duration : string -> Time.Duration + string :=
  fun s =>
    if String.eqb s "10s" then inl (10 * Time.Second)
    else if String.eqb s "2s" then inl (2 * Time.Second)
    else inr "time: invalid duration".

(** What the decoder makes of the file: one backend, the rate limiter
    enabled with three tokens, one per second, a cleanup interval of one
    minute and an SQLite database; the fields the decoder does not see
    are left as they are. *)
Definition unmarshal : string -> config.Config -> config.Config * option string :=
  fun _ cfg =>
    ({| config.Port := config.Port cfg;
        config.Backends := ["http://localhost:8081"];
        config.HealthCheckIntervalStr := "10s";
        config.HealthCheckTimeoutStr := "2s";
        config.HealthCheckInterval := config.HealthCheckInterval cfg;
        config.HealthCheckTimeout := config.HealthCheckTimeout cfg;
        config.RateLimiter :=
          {| config.Enabled := true;
             config.DefaultCapacity := 3;
             config.DefaultRefillRate := one;
             config.CleanupIntervalStr := "1m";
             config.CleanupInterval := config.CleanupInterval (config.RateLimiter cfg);
             config.DB := {| config.Driver := "sqlite"; config.Path := "./limits.db" |} |} |},
     None).

(** The configuration loaded from that file. *)
Definition loaded : config.Config :=
  {| config.Port := ":8080";
     config.Backends := ["http://localhost:8081"];
     config.HealthCheckIntervalStr := "10s";
     config.HealthCheckTimeoutStr := "2s";
     config.HealthCheckInterval := 10 * Time.Second;
     config.HealthCheckTimeout := 2 * Time.Second;
     config.RateLimiter :=
       {| config.Enabled := true;
          config.DefaultCapacity := 3;
          config.DefaultRefillRate := one;
          config.CleanupIntervalStr := "1m";
          config.CleanupInterval := 0;
          config.DB := {| config.Driver := "sqlite"; config.Path := "./limits.db" |} |} |}.

(** The decoder of a file that gives [.nan] as the default rate, and the
    configuration loaded from it. *)
Definition unmarshal_nan : string -> config.Config -> config.Config * option string :=
  fun _ cfg =>
    ({| config.Port := config.Port cfg;
        config.Backends := ["http://localhost:8081"];
        config.HealthCheckIntervalStr := "10s";
        config.HealthCheckTimeoutStr := "2s";
        config.HealthCheckInterval := config.HealthCheckInterval cfg;
        config.HealthCheckTimeout := config.HealthCheckTimeout cfg;
        config.RateLimiter :=
          {| config.Enabled := true;
             config.DefaultCapacity := 3;
             config.DefaultRefillRate := S754_nan;
             config.CleanupIntervalStr := "1m";
             config.CleanupInterval := config.CleanupInterval (config.RateLimiter cfg);
             config.DB := {| config.Driver := "sqlite"; config.Path := "./limits.db" |} |} |},
     None).

Definition loaded_nan : config.Config :=
  {| config.Port := ":8080";
     config.Backends := ["http://localhost:8081"];
     config.HealthCheckIntervalStr := "10s";
     config.HealthCheckTimeoutStr := "2s";
     config.HealthCheckInterval := 10 * Time.Second;
     config.HealthCheckTimeout := 2 * Time.Second;
     config.RateLimiter :=
       {| config.Enabled := true;
          config.DefaultCapacity := 3;
          config.DefaultRefillRate := S754_nan;
          config.CleanupIntervalStr := "1m";
          config.CleanupInterval := 0;
          config.DB := {| config.Driver := "sqlite"; config.Path := "./limits.db" |} |} |}.

End Sample.

(** * Peer selection *)

Lemma scan_backends todo n c i s :
  ServerPool.backends (snd (ServerPool.scan todo n c i s)) = ServerPool.backends s.
Proof.
  revert i. induction todo as [|todo IH]; intros i; simpl; [done|].
  destruct (ServerPool.backends s !! _) as [b|]; [|done].
  destruct (Backend.IsAlive b); [done|apply IH].
Qed.

Lemma GetNextPeer_backends s :
  ServerPool.backends (snd (ServerPool.GetNextPeer s)) = ServerPool.backends s.
Proof.
  unfold ServerPool.GetNextPeer. destruct (_ =? 0); [done|apply scan_backends].
Qed.

(** The index computed in the loop is the position the spec names, as long
    as the [uint64] sum does not wrap. *)
Lemma nextIdx_position n c i :
  0 < n -> 0 <= c -> 0 <= i -> c + 1 + i < 2 ^ 64 ->
  Uint64.add (Uint64.add c 1) i mod n = ((c + 1) mod n + i) mod n.
Proof.
  intros Hn Hc Hi Hlt. unfold Uint64.add, Uint64.wrap.
  rewrite (Z.mod_small (c + 1)) by lia.
  rewrite (Z.mod_small (c + 1 + i)) by lia.
  by rewrite Zplus_mod_idemp_l.
Qed.

Lemma scan_positions todo i s :
  let n := Z.of_nat (length (ServerPool.backends s)) in
  let c := ServerPool.current s in
  0 <= c -> 0 <= i -> i + Z.of_nat todo <= n -> c + n < 2 ^ 64 ->
  ServerPool.scan todo n c i s =
    match List.find (PeerSpec.alive_at (ServerPool.backends s))
                    (PeerSpec.positions n ((c + 1) mod n + i) todo) with
    | Some idx => (Some (Z.to_nat idx), ServerPool.Store idx s)
    | None => (None, s)
    end.
Proof.
  intros n c Hc. revert i. induction todo as [|todo IH]; intros i Hi Hle Hlt; [done|].
  assert (Hn : 0 < n) by lia.
  cbn [ServerPool.scan PeerSpec.positions List.find].
  rewrite nextIdx_position by lia.
  set (idx := ((c + 1) mod n + i) mod n).
  assert (Hidx : 0 <= idx < n) by (apply Z.mod_pos_bound; lia).
  unfold PeerSpec.alive_at at 1.
  destruct (ServerPool.backends s !! Z.to_nat idx) as [b|] eqn:Hb.
  - unfold Backend.IsAlive. destruct (Backend.Alive b); [done|].
    rewrite IH by lia. by rewrite Z.add_assoc.
  - apply lookup_ge_None in Hb. subst n. lia.
Qed.

Lemma GetNextPeer_refines s :
  PeerSpec.cursor_ok s -> ServerPool.GetNextPeer s = PeerSpec.GetNextPeer s.
Proof.
  intros [Hc Hlt]. unfold ServerPool.GetNextPeer, PeerSpec.GetNextPeer, PeerSpec.scan_order.
  destruct (Z.of_nat (length (ServerPool.backends s)) =? 0) eqn:Hn; [done|].
  rewrite scan_positions by lia.
  by rewrite Z.add_0_r, Nat2Z.id.
Qed.

Lemma find_alive_at bs l idx :
  List.find (PeerSpec.alive_at bs) l = Some idx ->
  exists b, bs !! Z.to_nat idx = Some b /\ Backend.Alive b = true.
Proof.
  intros H. apply List.find_some in H as [_ H]. unfold PeerSpec.alive_at in H.
  destruct (bs !! Z.to_nat idx) as [b|]; [eauto|done].
Qed.

(** Whatever the cursor holds, a scan either leaves the pool as it was or
    stores the index of the live Backend it returns. *)
Lemma scan_result todo n c i s :
  0 < n ->
  match ServerPool.scan todo n c i s with
  | (None, s') => s' = s
  | (Some p, s') =>
      s' = ServerPool.Store (Z.of_nat p) s
      /\ 0 <= Z.of_nat p < n
      /\ PeerSpec.alive_at (ServerPool.backends s) (Z.of_nat p) = true
  end.
Proof.
  intros Hn. revert i. induction todo as [|todo IH]; intros i; simpl; [done|].
  set (idx := Uint64.add (Uint64.add c 1) i mod n).
  assert (Hidx : 0 <= idx < n) by (apply Z.mod_pos_bound; lia).
  destruct (ServerPool.backends s !! Z.to_nat idx) as [b|] eqn:Hb; [|done].
  unfold Backend.IsAlive. destruct (Backend.Alive b) eqn:Ha; [|apply IH].
  rewrite Z2Nat.id by lia. split; [done|]. split; [done|].
  unfold PeerSpec.alive_at. by rewrite Hb.
Qed.

Lemma GetNextPeer_result s :
  match ServerPool.GetNextPeer s with
  | (None, s') => s' = s
  | (Some p, s') =>
      s' = ServerPool.Store (Z.of_nat p) s
      /\ 0 <= Z.of_nat p < Z.of_nat (length (ServerPool.backends s))
      /\ PeerSpec.alive_at (ServerPool.backends s) (Z.of_nat p) = true
  end.
Proof.
  unfold ServerPool.GetNextPeer.
  destruct (Z.of_nat (length (ServerPool.backends s)) =? 0) eqn:Hn; [done|].
  apply scan_result. lia.
Qed.

Lemma NewServerPool_cursor parse urls interval timeout :
  cursor_in_slice (fst (ServerPool.NewServerPool parse urls interval timeout)).
Proof.
  unfold ServerPool.NewServerPool.
  destruct (ServerPool.addBackends parse urls []) as [bs evs]. by left.
Qed.

Lemma GetNextPeer_cursor s :
  cursor_in_slice s -> cursor_in_slice (snd (ServerPool.GetNextPeer s)).
Proof.
  intros Hs. pose proof (GetNextPeer_result s) as H.
  destruct (ServerPool.GetNextPeer s) as [[p|] s']; simpl.
  - destruct H as (-> & Hp & _). by right.
  - by subst.
Qed.

Lemma SetAlive_cursor i alive s :
  cursor_in_slice s -> cursor_in_slice (ServerPool.SetAlive i alive s).
Proof.
  unfold cursor_in_slice. simpl. by rewrite length_alter.
Qed.

(** A Go slice holds at most [2^63 - 1] elements. *)
Lemma cursor_in_slice_ok s :
  Z.of_nat (length (ServerPool.backends s)) <= Int64.max_int ->
  cursor_in_slice s -> PeerSpec.cursor_ok s.
Proof.
  unfold cursor_in_slice, PeerSpec.cursor_ok, Int64.max_int. lia.
Qed.

(** C1.  On a pool whose cursor [c] is one the program can have produced,
    [GetNextPeer] is the scan the spec describes: of the [n] positions
    starting at [(c + 1) mod n] it returns the first Backend whose Alive
    flag is set and stores that index into the cursor, it returns no peer
    when none of them is alive, and on the empty pool it returns no peer
    at once; a Backend it returns has its Alive flag set in the pool it
    leaves, and the cursor then holds its index. *)
Theorem GetNextPeer_scans_from_cursor (s : ServerPool.t) :
  PeerSpec.cursor_ok s ->
  ServerPool.GetNextPeer s = PeerSpec.GetNextPeer s
  /\ (length (ServerPool.backends s) = 0%nat -> ServerPool.GetNextPeer s = (None, s))
  /\ (forall p s', ServerPool.GetNextPeer s = (Some p, s') ->
        ServerPool.current s' = Z.of_nat p
        /\ exists b, ServerPool.backends s' !! p = Some b /\ Backend.IsAlive b = true).
Proof.
  intros Hok. split; [by apply GetNextPeer_refines|]. split.
  - intros Hlen. unfold ServerPool.GetNextPeer. by rewrite Hlen.
  - intros p s' Heq. pose proof (GetNextPeer_result s) as H. rewrite Heq in H.
    destruct H as (-> & Hp & Ha). split; [done|].
    unfold PeerSpec.alive_at in Ha. rewrite Nat2Z.id in Ha. simpl.
    destruct (ServerPool.backends s !! p) as [b|]; [eauto|done].
Qed.

Lemma pool_1dead_cursor_ok : PeerSpec.cursor_ok Sample.pool_1dead.
Proof. split; vm_compute; [discriminate|reflexivity]. Defined.

Lemma GetNextPeer_scans_from_cursor_witness :
  ServerPool.GetNextPeer Sample.pool_1dead = PeerSpec.GetNextPeer Sample.pool_1dead
  /\ PeerSpec.GetNextPeer Sample.pool_1dead = (Some 2%nat, ServerPool.Store 2 Sample.pool_1dead).
Proof.
  split; [|reflexivity].
  exact (proj1 (GetNextPeer_scans_from_cursor Sample.pool_1dead pool_1dead_cursor_ok)).
Defined.

(** C10.  When [GetNextPeer] returns no peer the pool, and so its cursor,
    is exactly as before; when it returns a peer, the only change is the
    cursor, which now holds the index of that peer, a Backend that was
    alive. *)
Theorem GetNextPeer_writes_cursor_only_on_success (s : ServerPool.t) :
  match ServerPool.GetNextPeer s with
  | (None, s') => s' = s /\ ServerPool.current s' = ServerPool.current s
  | (Some p, s') =>
      s' = ServerPool.Store (Z.of_nat p) s
      /\ ServerPool.current s' = Z.of_nat p
      /\ PeerSpec.alive_at (ServerPool.backends s) (Z.of_nat p) = true
  end.
Proof.
  pose proof (GetNextPeer_result s) as H.
  destruct (ServerPool.GetNextPeer s) as [[p|] s'].
  - destruct H as (-> & _ & Ha). done.
  - by subst.
Qed.

(** * float64 against exact arithmetic

    Upper bounds, as rationals, on what [Seconds], the product with the
    rate and the conversion to [int64] compute for a wait that is not
    negative and a rate that is positive: each rounding adds at most a
    relative [2^-52] and an absolute [2^-1074]. *)

Lemma Qpow2_pos e : (0 < 2 ^ e)%Q.
Proof. apply Qpower_0_lt. reflexivity. Qed.

Lemma Qpow2_add a b : (2 ^ (a + b) == 2 ^ a * 2 ^ b)%Q.
Proof. apply Qpower_plus. discriminate. Qed.

Lemma Qpow2_nonneg_Z k : 0 <= k -> (2 ^ k == inject_Z (2 ^ k))%Q.
Proof. intros Hk. symmetry. apply (Zpower_Qpower 2 k Hk). Qed.

Lemma Qpow2_le a b : a <= b -> (2 ^ a <= 2 ^ b)%Q.
Proof. intros H. apply Qpower_le_compat_l; [exact H|]. discriminate. Qed.

(** Shifting the mantissa down and the exponent up does not raise the
    value. *)
Lemma F2Q_shift m3 m2 e k :
  0 <= k -> m3 * 2 ^ k <= m2 -> (F2Q m3 (e + k) <= F2Q m2 e)%Q.
Proof.
  intros Hk Hle. unfold F2Q. rewrite Qpow2_add, (Qpow2_nonneg_Z k Hk).
  rewrite (Qmult_comm (2 ^ e)), Qmult_assoc, <- inject_Z_mult.
  apply Qmult_le_compat_r; [|apply Qlt_le_weak, Qpow2_pos].
  rewrite <- Zle_Qle. exact Hle.
Qed.

Lemma shr_1_m mrs : 0 <= shr_m mrs -> 0 <= shr_m (shr_1 mrs) /\ 2 * shr_m (shr_1 mrs) <= shr_m mrs.
Proof.
  destruct mrs as [m r s]. simpl. destruct m as [|[p|p|]|p]; simpl; lia.
Qed.

Lemma pow2_xO p : 2 ^ Zpos p~0 = 2 ^ Zpos p * 2 ^ Zpos p.
Proof. rewrite <- Z.pow_add_r by lia. f_equal. lia. Qed.

Lemma pow2_xI p : 2 ^ Zpos p~1 = 2 * (2 ^ Zpos p * 2 ^ Zpos p).
Proof.
  rewrite <- Z.pow_add_r by lia. rewrite <- (Z.pow_succ_r 2) by lia. f_equal. lia.
Qed.

Lemma iter_shr_1_m p : forall mrs,
  0 <= shr_m mrs ->
  0 <= shr_m (SpecFloat.iter_pos shr_1 p mrs)
  /\ shr_m (SpecFloat.iter_pos shr_1 p mrs) * 2 ^ Zpos p <= shr_m mrs.
Proof.
  induction p as [p IH|p IH|]; intros mrs Hm; cbn [SpecFloat.iter_pos].
  - destruct (shr_1_m mrs Hm) as [H0 H1].
    destruct (IH _ H0) as [H2 H3]. destruct (IH _ H2) as [H4 H5].
    split; [done|]. rewrite pow2_xI.
    assert (0 < 2 ^ Z.pos p) by (apply Z.pow_pos_nonneg; lia). nia.
  - destruct (IH _ Hm) as [H2 H3]. destruct (IH _ H2) as [H4 H5].
    split; [done|]. rewrite pow2_xO.
    assert (0 < 2 ^ Z.pos p) by (apply Z.pow_pos_nonneg; lia). nia.
  - destruct (shr_1_m mrs Hm) as [H0 H1]. split; [done|]. change (2 ^ 1) with 2. lia.
Qed.

Lemma digits2_pos_bound m :
  2 ^ (Zpos (digits2_pos m) - 1) <= Zpos m < 2 ^ Zpos (digits2_pos m).
Proof.
  induction m as [m IH|m IH|]; cbn [digits2_pos].
  - rewrite Pos2Z.inj_succ. replace (Z.succ (Zpos (digits2_pos m)) - 1) with (Zpos (digits2_pos m)) by lia.
    rewrite Z.pow_succ_r by lia.
    replace (Zpos (digits2_pos m)) with (Z.succ (Zpos (digits2_pos m) - 1)) at 1 by lia.
    rewrite Z.pow_succ_r by lia. lia.
  - rewrite Pos2Z.inj_succ. replace (Z.succ (Zpos (digits2_pos m)) - 1) with (Zpos (digits2_pos m)) by lia.
    rewrite Z.pow_succ_r by lia.
    replace (Zpos (digits2_pos m)) with (Z.succ (Zpos (digits2_pos m) - 1)) at 1 by lia.
    rewrite Z.pow_succ_r by lia. lia.
  - simpl. lia.
Qed.

Lemma shr_record_of_loc_m m l : shr_m (shr_record_of_loc m l) = m.
Proof. by destruct l as [|[]]. Qed.

Lemma loc_of_shr_record_of_loc m l : loc_of_shr_record (shr_record_of_loc m l) = l.
Proof. by destruct l as [|[]]. Qed.

Lemma round_nearest_even_bound m l :
  m <= round_nearest_even m l <= m + 1
  /\ (l = loc_Exact -> round_nearest_even m l = m).
Proof. destruct l as [|[]]; simpl; try destruct (Z.even m); split; (lia || done). Qed.

Lemma shr_fexp_bound m e l :
  0 <= m ->
  let r := shr_fexp Float64.prec Float64.emax m e l in
  0 <= shr_m (fst r)
  /\ ((snd r = e /\ fst r = shr_record_of_loc m l)
      \/ (e < snd r /\ snd r = fexp Float64.prec Float64.emax (Zdigits2 m + e) /\ shr_m (fst r) * 2 ^ (snd r - e) <= m)).
Proof.
  intros Hm. unfold shr_fexp, shr.
  destruct (fexp Float64.prec Float64.emax (Zdigits2 m + e) - e) as [|p|p] eqn:Hn; cbn [fst snd].
  - rewrite shr_record_of_loc_m. split; [done|]. by left.
  - destruct (iter_shr_1_m p (shr_record_of_loc m l)) as [H0 H1];
      [by rewrite shr_record_of_loc_m|].
    rewrite shr_record_of_loc_m in H1. split; [done|]. right.
    split; [lia|]. split; [lia|].
    replace (e + Zpos p - e) with (Zpos p) by lia. done.
  - rewrite shr_record_of_loc_m. split; [done|]. by left.
Qed.

Lemma F2Q_nonneg m e : 0 <= m -> (0 <= F2Q m e)%Q.
Proof.
  intros Hm. unfold F2Q. apply Qmult_le_0_compat; [|apply Qlt_le_weak, Qpow2_pos].
  change 0%Q with (inject_Z 0). by rewrite <- Zle_Qle.
Qed.

Lemma F2Q_le m1 m2 e : m1 <= m2 -> (F2Q m1 e <= F2Q m2 e)%Q.
Proof.
  intros H. unfold F2Q. apply Qmult_le_compat_r; [|apply Qlt_le_weak, Qpow2_pos].
  by rewrite <- Zle_Qle.
Qed.

Lemma F2Q_succ m e : (F2Q (m + 1) e == F2Q m e + 2 ^ e)%Q.
Proof. unfold F2Q. rewrite inject_Z_plus. change (inject_Z 1) with 1%Q. ring. Qed.

(** The ulp reached by a shift is small against the value shifted. *)
Lemma pow2_fexp_small m e :
  0 <= m -> e < fexp Float64.prec Float64.emax (Zdigits2 m + e) ->
  (2 ^ fexp Float64.prec Float64.emax (Zdigits2 m + e) <= F2Q m e * eps + tiny)%Q.
Proof.
  intros Hm Hlt. unfold fexp, emin, Float64.prec, Float64.emax in *.
  assert (Heps : (0 <= F2Q m e * eps)%Q).
  { apply Qmult_le_0_compat; [by apply F2Q_nonneg|apply Qlt_le_weak, Qpow2_pos]. }
  destruct (Z.max_spec (Zdigits2 m + e - 53) (3 - 1024 - 53)) as [[_ Hmax]|[_ Hmax]];
    rewrite Hmax in *.
  - change (2 ^ (3 - 1024 - 53))%Q with tiny. lra.
  - destruct m as [|p|p]; [simpl in Hlt; lia| |lia].
    cbn [Zdigits2] in *. pose proof (digits2_pos_bound p) as [Hd _].
    assert (Ht : (0 < tiny)%Q) by apply Qpow2_pos.
    apply Qle_trans with (F2Q (Zpos p) e * eps)%Q; [|lra].
    unfold F2Q, eps.
    replace (Zpos (digits2_pos p) + e - 53) with ((Zpos (digits2_pos p) - 1) + (e + -52)) by lia.
    rewrite !Qpow2_add, (Qpow2_nonneg_Z (Zpos (digits2_pos p) - 1)) by lia.
    rewrite <- !Qmult_assoc.
    apply Qmult_le_compat_r.
    + by rewrite <- Zle_Qle.
    + apply Qmult_le_0_compat; apply Qlt_le_weak, Qpow2_pos.
Qed.

Lemma eps_pos : (0 < eps)%Q.
Proof. apply Qpow2_pos. Qed.

Lemma tiny_pos : (0 < tiny)%Q.
Proof. apply Qpow2_pos. Qed.

(** Rounding [m * 2^e], or a value between it and [(m + 1) * 2^e] when the
    location is inexact: the result is not above the value by more than a
    relative [2^-52] and an absolute [2^-1074]. *)
Lemma binary_round_aux_at_most m e lx (B : Q) :
  0 <= m ->
  (F2Q (match lx with loc_Exact => m | _ => m + 1 end) e * (1 + eps) + tiny <= B)%Q ->
  (B < 2 ^ 972)%Q ->
  at_most (binary_round_aux Float64.prec Float64.emax false m e lx) B.
Proof.
  intros Hm HB Hbig. set (u := match lx with loc_Exact => m | _ => m + 1 end) in *.
  assert (Hu : m <= u) by (destruct lx; subst u; lia).
  pose proof eps_pos as Heps. pose proof tiny_pos as Htiny.
  pose proof (F2Q_nonneg u e ltac:(lia)) as Hu0.
  assert (HB0 : (0 <= B)%Q).
  { assert (0 <= F2Q u e * eps)%Q by (apply Qmult_le_0_compat; lra). lra. }
  unfold binary_round_aux.
  pose proof (shr_fexp_bound m e lx Hm) as H1. cbv zeta in H1.
  destruct (shr_fexp Float64.prec Float64.emax m e lx) as [mrs1 e1]. cbn [fst snd] in H1.
  destruct H1 as [Hm1 H1].
  set (m2 := round_nearest_even (shr_m mrs1) (loc_of_shr_record mrs1)).
  pose proof (round_nearest_even_bound (shr_m mrs1) (loc_of_shr_record mrs1)) as [Hm2 Hex].
  fold m2 in Hm2, Hex.
  assert (Hval2 : (F2Q m2 e1 <= F2Q u e * (1 + eps) + tiny)%Q).
  { destruct H1 as [[-> ->]|(Hlt & He1 & Hsh)].
    - rewrite loc_of_shr_record_of_loc, shr_record_of_loc_m in *.
      assert (Hm2u : m2 <= u).
      { subst u. destruct lx; [rewrite Hex by done; lia|lia]. }
      apply Qle_trans with (F2Q u e); [by apply F2Q_le|].
      assert (0 <= F2Q u e * eps)%Q by (apply Qmult_le_0_compat; lra). lra.
    - apply Qle_trans with (F2Q (shr_m mrs1 + 1) e1); [apply F2Q_le; lia|].
      rewrite F2Q_succ.
      assert (Hs : (F2Q (shr_m mrs1) e1 <= F2Q m e)%Q).
      { replace e1 with (e + (e1 - e)) at 1 by lia. apply F2Q_shift; [lia|done]. }
      pose proof (pow2_fexp_small m e Hm ltac:(lia)) as Hp. rewrite <- He1 in Hp.
      pose proof (F2Q_le m u e Hu) as Hmu.
      assert (F2Q m e * eps <= F2Q u e * eps)%Q by (apply Qmult_le_compat_r; lra).
      lra. }
  pose proof (shr_fexp_bound m2 e1 loc_Exact ltac:(lia)) as H2. cbv zeta in H2.
  destruct (shr_fexp Float64.prec Float64.emax m2 e1 loc_Exact) as [mrs2 e2].
  cbn [fst snd] in H2. destruct H2 as [Hm3 H2].
  assert (Hval3 : (F2Q (shr_m mrs2) e2 <= F2Q m2 e1)%Q).
  { destruct H2 as [[-> ->]|(Hlt & _ & Hsh)].
    - rewrite shr_record_of_loc_m. apply Qle_refl.
    - replace e2 with (e1 + (e2 - e1)) by lia. apply F2Q_shift; [lia|done]. }
  destruct (shr_m mrs2) as [|m3|m3] eqn:Hm3'; [cbn [at_most]; lra| |lia].
  destruct (e2 <=? Float64.emax - Float64.prec) eqn:He2; cbn [at_most].
  - lra.
  - apply Z.leb_gt in He2. unfold Float64.emax, Float64.prec in He2.
    assert (Hge : (2 ^ 972 <= F2Q (Zpos m3) e2)%Q).
    { unfold F2Q. apply Qle_trans with (1 * 2 ^ e2)%Q.
      - rewrite Qmult_1_l. apply Qpow2_le. lia.
      - apply Qmult_le_compat_r; [|apply Qlt_le_weak, Qpow2_pos].
        change 1%Q with (inject_Z 1). rewrite <- Zle_Qle. lia. }
    lra.
Qed.

Lemma at_most_nonneg x B : at_most x B -> (0 <= B)%Q.
Proof.
  destruct x as [[]|[]| |[] m e]; cbn [at_most]; try done.
  intros H. apply Qle_trans with (F2Q (Zpos m) e); [by apply F2Q_nonneg|done].
Qed.

Lemma at_most_weaken x B B' : at_most x B -> (B <= B')%Q -> at_most x B'.
Proof.
  destruct x as [[]|[]| |[] m e]; cbn [at_most]; try done; intros; lra.
Qed.

Lemma F2Q_mul m1 e1 m2 e2 : (F2Q (m1 * m2) (e1 + e2) == F2Q m1 e1 * F2Q m2 e2)%Q.
Proof. unfold F2Q. rewrite inject_Z_mult, Qpow2_add. ring. Qed.

Lemma mul_at_most x y Bx By B :
  at_most x Bx -> at_most y By ->
  (Bx * By * (1 + eps) + tiny <= B)%Q -> (B < 2 ^ 972)%Q ->
  at_most (Float64.mul x y) B.
Proof.
  intros Hx Hy HB Hbig.
  pose proof (at_most_nonneg _ _ Hx) as Hx0. pose proof (at_most_nonneg _ _ Hy) as Hy0.
  pose proof eps_pos as Heps. pose proof tiny_pos as Htiny.
  assert (Hxy : (0 <= Bx * By)%Q) by (by apply Qmult_le_0_compat).
  assert (HB0 : (0 <= B)%Q).
  { assert (0 <= Bx * By * eps)%Q by (apply Qmult_le_0_compat; lra). lra. }
  destruct x as [[]|[]| |[] mx ex]; cbn [at_most] in Hx; try done;
    destruct y as [[]|[]| |[] my ey]; cbn [at_most] in Hy; try done;
    unfold Float64.mul; cbn [SFmul xorb at_most]; try done.
  apply binary_round_aux_at_most; [lia| |done].
  rewrite Pos2Z.inj_mul, F2Q_mul.
  pose proof (F2Q_nonneg (Zpos mx) ex ltac:(lia)) as H1.
  pose proof (F2Q_nonneg (Zpos my) ey ltac:(lia)) as H2.
  assert (Hp : (F2Q (Zpos mx) ex * F2Q (Zpos my) ey <= Bx * By)%Q).
  { apply Qle_trans with (Bx * F2Q (Zpos my) ey)%Q.
    - by apply Qmult_le_compat_r.
    - rewrite !(Qmult_comm Bx). by apply Qmult_le_compat_r. }
  assert ((F2Q (Zpos mx) ex * F2Q (Zpos my) ey) * eps <= Bx * By * eps)%Q
    by (apply Qmult_le_compat_r; lra).
  lra.
Qed.

Lemma Pos_iter_xO m d : Zpos (Pos.iter xO m d) = Zpos m * 2 ^ Zpos d.
Proof.
  revert m. induction d as [d IH|d IH|]; intros m; cbn [Pos.iter].
  - rewrite Pos2Z.inj_xO, !IH, pow2_xI. lia.
  - rewrite !IH, pow2_xO. lia.
  - change (2 ^ 1) with 2. lia.
Qed.

Lemma shl_align_value m e e' :
  (F2Q (Zpos (fst (shl_align m e e'))) (snd (shl_align m e e')) == F2Q (Zpos m) e)%Q
  /\ (e' <= e -> snd (shl_align m e e') = e').
Proof.
  unfold shl_align. destruct (e' - e) as [|d|d] eqn:Hd; cbn [fst snd].
  - split; [reflexivity|lia].
  - split; [reflexivity|lia].
  - split; [|done]. rewrite Pos_iter_xO. unfold F2Q.
    assert (He : e = Zpos d + e') by lia. clear Hd. subst e.
    rewrite inject_Z_mult, Qpow2_add, (Qpow2_nonneg_Z (Zpos d)) by lia. ring.
Qed.

Lemma binary_round_at_most m e B :
  (F2Q (Zpos m) e * (1 + eps) + tiny <= B)%Q -> (B < 2 ^ 972)%Q ->
  at_most (binary_round Float64.prec Float64.emax false m e) B.
Proof.
  intros HB Hbig. unfold binary_round.
  pose proof (shl_align_value m e (fexp Float64.prec Float64.emax (Zpos (digits2_pos m) + e))) as [Hv _].
  destruct (shl_align m e _) as [mz ez]. cbn [fst snd] in Hv.
  apply binary_round_aux_at_most; [lia| |done]. by rewrite Hv.
Qed.

Lemma of_int_at_most z B :
  0 <= z -> (inject_Z z * (1 + eps) + tiny <= B)%Q -> (B < 2 ^ 972)%Q ->
  at_most (Float64.of_int z) B.
Proof.
  intros Hz HB Hbig. pose proof eps_pos. pose proof tiny_pos.
  unfold Float64.of_int, binary_normalize. destruct z as [|m|m]; [|..|lia].
  - cbn [at_most]. change (inject_Z 0) with 0%Q in HB. lra.
  - apply binary_round_at_most; [|done]. unfold F2Q.
    change (2 ^ 0)%Q with 1%Q. by rewrite Qmult_1_r.
Qed.

Lemma add_at_most x y Bx By B :
  at_most x Bx -> at_most y By ->
  ((Bx + By) * (1 + eps) + tiny <= B)%Q -> (B < 2 ^ 972)%Q ->
  at_most (Float64.add x y) B.
Proof.
  intros Hx Hy HB Hbig.
  pose proof (at_most_nonneg _ _ Hx) as Hx0. pose proof (at_most_nonneg _ _ Hy) as Hy0.
  pose proof eps_pos as Heps. pose proof tiny_pos as Htiny.
  assert (Hsum : (0 <= (Bx + By) * eps)%Q) by (apply Qmult_le_0_compat; lra).
  destruct x as [[]|[]| |[] mx ex]; cbn [at_most] in Hx; try done;
    destruct y as [[]|[]| |[] my ey]; cbn [at_most] in Hy; try done;
    unfold Float64.add; cbn [SFadd at_most cond_Zopp]; try lra.
  pose proof (shl_align_value mx ex (Z.min ex ey)) as [Hvx Hex].
  pose proof (shl_align_value my ey (Z.min ex ey)) as [Hvy Hey].
  rewrite Hex in Hvx by lia. rewrite Hey in Hvy by lia.
  rewrite <- Pos2Z.inj_add. cbn [binary_normalize].
  apply binary_round_at_most; [|done].
  rewrite Pos2Z.inj_add. unfold F2Q in *. rewrite inject_Z_plus.
  rewrite Qmult_plus_distr_l, Hvx, Hvy.
  assert ((inject_Z (Zpos mx) * 2 ^ ex + inject_Z (Zpos my) * 2 ^ ey) * eps
          <= (Bx + By) * eps)%Q by (apply Qmult_le_compat_r; lra).
  lra.
Qed.

Lemma F2Q_shl m e k : 0 <= k -> (F2Q (m * 2 ^ k) e == F2Q m (e + k))%Q.
Proof.
  intros Hk. unfold F2Q. rewrite inject_Z_mult, Qpow2_add, (Qpow2_nonneg_Z k Hk). ring.
Qed.

Lemma Qmult_le_cancel_pos (x y z : Q) : (0 < z)%Q -> (x * z <= y * z)%Q -> (x <= y)%Q.
Proof. intros Hz H. by apply (Qmult_le_r x y z Hz). Qed.

(** The quotient and exponent that division hands to rounding. *)
Lemma SFdiv_core_binary_bound m1 e1 m2 e2 :
  let '(q, e', _) := SFdiv_core_binary Float64.prec Float64.emax (Zpos m1) e1 (Zpos m2) e2 in
  0 <= q
  /\ (F2Q (q + 1) e' * F2Q (Zpos m2) e2
      <= F2Q (Zpos m1) e1 * (1 + eps) + tiny * F2Q (Zpos m2) e2)%Q.
Proof.
  unfold SFdiv_core_binary. cbn [Zdigits2].
  set (d1 := Zpos (digits2_pos m1)). set (d2 := Zpos (digits2_pos m2)).
  set (D := d1 + e1 - (d2 + e2)).
  set (e' := Z.min (fexp Float64.prec Float64.emax D) (e1 - e2)).
  set (s := e1 - e2 - e').
  assert (Hs : 0 <= s) by (subst s e'; lia).
  set (m' := match s with Zpos _ => Z.shiftl (Zpos m1) s | Z0 => Zpos m1 | Zneg _ => 0 end).
  assert (Hm' : m' = Zpos m1 * 2 ^ s).
  { subst m'. destruct s as [|p|p]; [lia| |lia]. by rewrite Z.shiftl_mul_pow2. }
  pose proof (Z_div_mod m' (Zpos m2) ltac:(lia)) as Hdiv.
  destruct (Z.div_eucl m' (Zpos m2)) as [q r]. destruct Hdiv as [Hq Hr].
  assert (Hpow : 0 < 2 ^ s) by (apply Z.pow_pos_nonneg; lia).
  assert (Hq0 : 0 <= q) by nia.
  split; [done|].
  pose proof eps_pos as Heps. pose proof tiny_pos as Htiny.
  pose proof (F2Q_nonneg (Zpos m1) e1 ltac:(lia)) as Hx0.
  pose proof (F2Q_nonneg (Zpos m2) e2 ltac:(lia)) as Hy0.
  (* the quotient itself *)
  assert (Ha : (F2Q q e' * F2Q (Zpos m2) e2 <= F2Q (Zpos m1) e1)%Q).
  { rewrite <- F2Q_mul.
    apply Qle_trans with (F2Q (Zpos m1 * 2 ^ s) (e' + e2)); [apply F2Q_le; nia|].
    rewrite F2Q_shl by done. replace (e' + e2 + s) with e1 by (subst s; lia).
    apply Qle_refl. }
  (* one unit in its last place *)
  assert (Hb : (2 ^ e' * F2Q (Zpos m2) e2
                <= F2Q (Zpos m1) e1 * eps + tiny * F2Q (Zpos m2) e2)%Q).
  { assert (He' : e' <= fexp Float64.prec Float64.emax D) by (subst e'; lia).
    apply Qle_trans with (2 ^ fexp Float64.prec Float64.emax D * F2Q (Zpos m2) e2)%Q.
    { apply Qmult_le_compat_r; [by apply Qpow2_le|done]. }
    unfold fexp, emin, Float64.prec, Float64.emax.
    assert (Hte : (0 <= F2Q (Zpos m1) e1 * eps)%Q) by (apply Qmult_le_0_compat; lra).
    assert (Hty : (0 <= tiny * F2Q (Zpos m2) e2)%Q) by (apply Qmult_le_0_compat; lra).
    destruct (Z.max_spec (D - 53) (3 - 1024 - 53)) as [[_ ->]|[_ ->]].
    - change (2 ^ (3 - 1024 - 53))%Q with tiny. lra.
    - apply Qle_trans with (F2Q (Zpos m1) e1 * eps)%Q; [|lra].
      pose proof (digits2_pos_bound m1) as [H1 _]. pose proof (digits2_pos_bound m2) as [_ H2].
      fold d1 in H1. fold d2 in H2.
      (* 2^(D-53) * m2 * 2^e2 <= 2^(D-53) * 2^d2 * 2^e2 = 2^(d1-1) * 2^e1 * 2^-52 *)
      apply Qle_trans with (2 ^ (D - 53) * (inject_Z (2 ^ d2) * 2 ^ e2))%Q.
      { rewrite !(Qmult_comm (2 ^ (D - 53))). apply Qmult_le_compat_r;
          [|apply Qlt_le_weak, Qpow2_pos].
        unfold F2Q. apply Qmult_le_compat_r; [|apply Qlt_le_weak, Qpow2_pos].
        rewrite <- Zle_Qle. lia. }
      rewrite <- (Qpow2_nonneg_Z d2) by (subst d2; lia).
      rewrite <- !Qpow2_add.
      replace (D - 53 + (d2 + e2)) with ((d1 - 1) + (e1 + -52)) by (subst D; lia).
      rewrite !Qpow2_add, (Qpow2_nonneg_Z (d1 - 1)) by (subst d1; lia).
      unfold F2Q, eps. rewrite <- !Qmult_assoc.
      apply Qmult_le_compat_r.
      + by rewrite <- Zle_Qle.
      + apply Qmult_le_0_compat; apply Qlt_le_weak, Qpow2_pos. }
  rewrite F2Q_succ. lra.
Qed.

Lemma div_at_most x my ey Bx Bq B :
  at_most x Bx ->
  (Bx <= Bq * F2Q (Zpos my) ey)%Q ->
  ((Bq * (1 + eps) + tiny) * (1 + eps) + tiny <= B)%Q -> (B < 2 ^ 972)%Q ->
  at_most (Float64.div x (S754_finite false my ey)) B.
Proof.
  intros Hx Hq HB Hbig.
  pose proof (at_most_nonneg _ _ Hx) as Hx0.
  pose proof eps_pos as Heps. pose proof tiny_pos as Htiny.
  assert (Hy : (0 < F2Q (Zpos my) ey)%Q).
  { unfold F2Q. apply Qmult_lt_0_compat; [|apply Qpow2_pos]. reflexivity. }
  assert (Hq0 : (0 <= Bq)%Q).
  { apply Qmult_le_cancel_pos with (F2Q (Zpos my) ey); [done|]. lra. }
  assert (HB0 : (0 <= B)%Q).
  { assert (0 <= Bq * eps)%Q by (apply Qmult_le_0_compat; lra).
    assert (0 <= (Bq * (1 + eps) + tiny) * eps)%Q by (apply Qmult_le_0_compat; lra). lra. }
  destruct x as [[]|[]| |[] mx ex]; cbn [at_most] in Hx; try done;
    unfold Float64.div; cbn [SFdiv xorb at_most].
  pose proof (SFdiv_core_binary_bound mx ex my ey) as Hcore.
  destruct (SFdiv_core_binary Float64.prec Float64.emax (Zpos mx) ex (Zpos my) ey)
    as [[q e'] l]. destruct Hcore as [Hq1 Hcore].
  apply binary_round_aux_at_most; [done| |done].
  set (u := match l with loc_Exact => q | _ => q + 1 end).
  assert (Hu : (F2Q u e' <= Bq * (1 + eps) + tiny)%Q).
  { apply Qle_trans with (F2Q (q + 1) e'); [apply F2Q_le; subst u; destruct l; lia|].
    apply Qmult_le_cancel_pos with (F2Q (Zpos my) ey); [done|].
    assert (F2Q (Zpos mx) ex * eps <= Bq * F2Q (Zpos my) ey * eps)%Q
      by (apply Qmult_le_compat_r; lra).
    ring_simplify. ring_simplify in Hcore. lra. }
  assert (Hu0 : (0 <= F2Q u e')%Q) by (apply F2Q_nonneg; subst u; destruct l; lia).
  assert (F2Q u e' * eps <= (Bq * (1 + eps) + tiny) * eps)%Q
    by (apply Qmult_le_compat_r; lra).
  lra.
Qed.

(** The integer part of a float that is at most [B]: it is there, not
    negative, and at most [B]. *)
Lemma trunc_at_most x B :
  at_most x B -> exists z, Float64.trunc x = Some z /\ 0 <= z /\ (inject_Z z <= B)%Q.
Proof.
  destruct x as [[]|[]| |[] m e]; cbn [at_most Float64.trunc]; try done.
  - intros HB. exists 0. by repeat split.
  - intros HB. cbn [cond_Zopp]. eexists. split; [done|].
    destruct (Z_lt_le_dec e 0) as [He|He].
    + rewrite Z.shiftl_div_pow2 by lia.
      assert (Hp : 0 < 2 ^ (- e)) by (apply Z.pow_pos_nonneg; lia).
      split; [apply Z.div_pos; lia|].
      eapply Qle_trans; [|exact HB].
      assert (Hs : (F2Q (Zpos m / 2 ^ (- e)) (e + - e) <= F2Q (Zpos m) e)%Q).
      { apply F2Q_shift; [lia|]. rewrite Z.mul_comm. apply Z.mul_div_le. lia. }
      replace (e + - e) with 0 in Hs by lia. unfold F2Q in Hs at 1.
      change (2 ^ 0)%Q with 1%Q in Hs. by rewrite Qmult_1_r in Hs.
    + rewrite Z.shiftl_mul_pow2 by lia.
      assert (Hp : 0 < 2 ^ e) by (apply Z.pow_pos_nonneg; lia).
      split; [lia|]. eapply Qle_trans; [|exact HB].
      unfold F2Q. rewrite inject_Z_mult, (Qpow2_nonneg_Z e He). apply Qle_refl.
Qed.

Lemma eps_value : (eps == (1 # 4503599627370496))%Q.
Proof. reflexivity. Qed.

Lemma refill_product_linear (a b y t T : Q) :
  (0 <= a)%Q -> (0 <= b)%Q -> (0 <= y)%Q -> (y <= (1 # 1125899906842624))%Q ->
  (0 <= t)%Q -> (t <= (1 # 1125899906842624))%Q ->
  (a + b <= T)%Q ->
  (a * ((1 + eps) * (1 + eps) * (1 + eps))
   + b * ((1 + eps) * (1 + eps) * (1 + eps) * (1 + eps) * (1 + eps))
   + y * ((1 + eps) * (1 + eps) * (1 + eps) * (1 + eps) * (1 # 1000000000)
          + (1 + eps) * (1 + eps) * (1 + eps) + 2 * ((1 + eps) * (1 + eps)) + (1 + eps))
   + t <= BucketSpec.rounded_up T)%Q.
Proof.
  intros Ha Hb Hy0 Hy Ht0 Ht Hm. unfold BucketSpec.rounded_up.
  rewrite eps_value. lra.
Qed.

Lemma refill_product_rounded_up (S N R T : Q) :
  (0 <= S * R)%Q -> (0 <= N * R)%Q ->
  (0 <= tiny * R)%Q -> (tiny * R <= (1 # 1125899906842624))%Q ->
  (tiny <= (1 # 1125899906842624))%Q ->
  (S * R + N * R * BucketSpec.nano <= T)%Q ->
  (((S * (1 + eps) + tiny
     + ((((N * (1 + eps) + tiny) * BucketSpec.nano) * (1 + eps) + tiny) * (1 + eps) + tiny))
    * (1 + eps) + tiny) * R * (1 + eps) + tiny <= BucketSpec.rounded_up T)%Q.
Proof.
  intros H1 H2 H3 H4 H5 Hm. pose proof tiny_pos as Ht.
  assert (Hb : (0 <= N * R * BucketSpec.nano)%Q).
  { apply Qmult_le_0_compat; [done|]. discriminate. }
  pose proof (refill_product_linear (S * R) (N * R * BucketSpec.nano) (tiny * R) tiny T
                H1 Hb H3 H4 ltac:(lra) H5 Hm) as Hlin.
  eapply Qle_trans; [|exact Hlin]. apply Qle_lteq. right. unfold BucketSpec.nano. ring.
Qed.

Lemma below_big B : (B <= 1267650600228229401496703205376)%Q -> (B < 2 ^ 972)%Q.
Proof. intros H. eapply Qle_lt_trans; [exact H|]. reflexivity. Qed.

Lemma tiny_small : (tiny <= (1 # 1125899906842624))%Q.
Proof. unfold tiny. apply Qle_trans with (2 ^ (-50))%Q; [by apply Qpow2_le|]. discriminate. Qed.

(** A genuine [float64] is below [2^1024]. *)
Lemma bounded_value m e :
  bounded Float64.prec Float64.emax m e = true ->
  (tiny * F2Q (Zpos m) e <= (1 # 1125899906842624))%Q.
Proof.
  unfold bounded, canonical_mantissa, fexp, emin, Float64.prec, Float64.emax.
  intros [Hc He]%andb_true_iff. apply Z.eqb_eq in Hc. apply Z.leb_le in He.
  pose proof (digits2_pos_bound m) as [_ Hm].
  assert (Hd : Zpos (digits2_pos m) <= 53) by lia.
  assert (Hm53 : Zpos m <= 2 ^ 53).
  { apply Z.lt_le_incl, Z.lt_le_trans with (2 ^ Zpos (digits2_pos m)); [done|].
    apply Z.pow_le_mono_r; lia. }
  apply Qle_trans with (tiny * (inject_Z (2 ^ 53) * 2 ^ 971))%Q.
  - rewrite !(Qmult_comm tiny). apply Qmult_le_compat_r; [|apply Qlt_le_weak, tiny_pos].
    unfold F2Q. apply Qle_trans with (inject_Z (2 ^ 53) * 2 ^ e)%Q.
    + apply Qmult_le_compat_r; [by rewrite <- Zle_Qle|apply Qlt_le_weak, Qpow2_pos].
    + rewrite !(Qmult_comm (inject_Z (2 ^ 53))). apply Qmult_le_compat_r; [|discriminate].
      apply Qpow2_le. lia.
  - discriminate.
Qed.

Lemma eps_small : (eps <= 1)%Q.
Proof. discriminate. Qed.

(** One rounding at most doubles a bound (and adds one). *)
Lemma rounded_le x c : (0 <= x)%Q -> (x <= c)%Q -> (x * (1 + eps) + tiny <= 2 * c + 1)%Q.
Proof.
  intros H0 Hc. pose proof eps_small as He. pose proof tiny_small as Ht.
  assert (Hx : (x * eps <= x * 1)%Q).
  { rewrite !(Qmult_comm x). by apply Qmult_le_compat_r. }
  lra.
Qed.

Lemma rounded_nonneg x : (0 <= x)%Q -> (0 <= x * (1 + eps) + tiny)%Q.
Proof.
  intros H0. pose proof eps_pos. pose proof tiny_pos.
  assert (0 <= x * eps)%Q by (apply Qmult_le_0_compat; lra). lra.
Qed.

(** The tokens [refill] computes for a wait are not negative and exceed
    what the wait earns in exact arithmetic by a relative [2^-49] and an
    absolute [2^-47] at most. *)
Lemma floor_tokens_at_most gap m e :
  bounded Float64.prec Float64.emax m e = true ->
  0 <= gap <= Time.maxDuration ->
  (BucketSpec.earned gap m e <= 18446744073709551616)%Q ->
  exists z, BucketSpec.floor_tokens gap (S754_finite false m e) = Some z
            /\ 0 <= z /\ (inject_Z z <= BucketSpec.rounded_up (BucketSpec.earned gap m e))%Q.
Proof.
  intros Hvalid Hgap Hexact. unfold BucketSpec.earned in *.
  unfold Time.maxDuration, Int64.max_int in Hgap.
  unfold BucketSpec.floor_tokens, Time.Seconds.
  change Time.Second with 1000000000.
  rewrite Z.quot_div_nonneg, Z.rem_mod_nonneg by lia.
  pose proof (Z.div_mod gap 1000000000 ltac:(lia)) as Hdm.
  pose proof (Z.mod_pos_bound gap 1000000000 ltac:(lia)) as Hmod.
  assert (Hdiv : 0 <= gap / 1000000000 <= gap).
  { split; [apply Z.div_pos; lia|]. apply Z.div_le_upper_bound; nia. }
  set (sec := gap / 1000000000) in *. set (nsec := gap mod 1000000000) in *.
  set (S := inject_Z sec). set (N := inject_Z nsec). set (R := F2Q (Zpos m) e) in *.
  assert (HS : (0 <= S)%Q /\ (S <= 9223372036854775808)%Q).
  { subst S. split; [change 0%Q with (inject_Z 0)|
                     change 9223372036854775808%Q with (inject_Z 9223372036854775808)];
      rewrite <- Zle_Qle; lia. }
  assert (HN : (0 <= N)%Q /\ (N <= 1000000000)%Q).
  { subst N. split; [change 0%Q with (inject_Z 0)|
                     change 1000000000%Q with (inject_Z 1000000000)];
      rewrite <- Zle_Qle; lia. }
  destruct HS as [HS0 HS]. destruct HN as [HN0 HN].
  assert (HR : (0 <= R)%Q) by (apply F2Q_nonneg; lia).
  pose proof (bounded_value m e Hvalid) as HtR. fold R in HtR.
  assert (Hsplit : (inject_Z gap * BucketSpec.nano * R == S * R + N * R * BucketSpec.nano)%Q).
  { replace gap with (1000000000 * sec + nsec) by lia.
    rewrite inject_Z_plus, inject_Z_mult. fold S N. unfold BucketSpec.nano.
    change (inject_Z 1000000000) with 1000000000%Q. field. }
  (* the bounds, and how large they can be *)
  set (B1 := (S * (1 + eps) + tiny)%Q).
  set (B2 := (N * (1 + eps) + tiny)%Q).
  set (Bq := (B2 * BucketSpec.nano)%Q).
  set (B3' := (Bq * (1 + eps) + tiny)%Q).
  set (B3 := (B3' * (1 + eps) + tiny)%Q).
  set (B4 := ((B1 + B3) * (1 + eps) + tiny)%Q).
  pose proof (rounded_nonneg S HS0) as HB10. pose proof (rounded_le S _ HS0 HS) as HB1.
  pose proof (rounded_nonneg N HN0) as HB20. pose proof (rounded_le N _ HN0 HN) as HB2.
  fold B1 in HB10, HB1. fold B2 in HB20, HB2.
  assert (HBq : (0 <= Bq)%Q /\ (Bq <= 3)%Q) by (subst Bq; unfold BucketSpec.nano; lra).
  destruct HBq as [HBq0 HBq].
  pose proof (rounded_nonneg Bq HBq0) as HB3'0. pose proof (rounded_le Bq _ HBq0 HBq) as HB3'.
  fold B3' in HB3'0, HB3'.
  pose proof (rounded_nonneg B3' HB3'0) as HB30. pose proof (rounded_le B3' _ HB3'0 HB3') as HB3.
  fold B3 in HB30, HB3.
  assert (HB140 : (0 <= B1 + B3)%Q) by lra.
  pose proof (rounded_le (B1 + B3) (2 * 9223372036854775808 + 1 + (2 * (2 * 3 + 1) + 1))
                HB140 ltac:(lra)) as HB4.
  fold B4 in HB4.
  (* the two integers *)
  assert (H1 : at_most (Float64.of_int sec) B1).
  { apply of_int_at_most; [lia|apply Qle_refl|]. apply below_big. lra. }
  assert (H2 : at_most (Float64.of_int nsec) B2).
  { apply of_int_at_most; [lia|apply Qle_refl|]. apply below_big. lra. }
  (* the fraction of a second *)
  change (Float64.of_int 1000000000) with (S754_finite false 8388608000000000 (-23)).
  assert (H3 : at_most (Float64.div (Float64.of_int nsec)
                          (S754_finite false 8388608000000000 (-23))) B3).
  { eapply div_at_most; [exact H2| |apply Qle_refl|].
    - apply Qle_lteq. right. subst Bq.
      assert (Hn : (BucketSpec.nano * F2Q 8388608000000000 (-23) == 1)%Q) by reflexivity.
      rewrite <- Qmult_assoc, Hn. ring.
    - apply below_big. lra. }
  (* the seconds *)
  assert (H4 : at_most (Float64.add (Float64.of_int sec)
                          (Float64.div (Float64.of_int nsec)
                             (S754_finite false 8388608000000000 (-23)))) B4).
  { eapply add_at_most; [exact H1|exact H3|apply Qle_refl|]. apply below_big. lra. }
  (* the tokens *)
  assert (Hle : (B4 * R * (1 + eps) + tiny <= BucketSpec.rounded_up (inject_Z gap * BucketSpec.nano * R))%Q).
  { subst B4 B3 B3' Bq B2 B1. apply refill_product_rounded_up.
    - by apply Qmult_le_0_compat.
    - by apply Qmult_le_0_compat.
    - apply Qmult_le_0_compat; [apply Qlt_le_weak, tiny_pos|done].
    - done.
    - apply tiny_small.
    - rewrite Hsplit. apply Qle_refl. }
  apply trunc_at_most. eapply mul_at_most; [exact H4| |exact Hle|].
  - cbn [at_most]. apply Qle_refl.
  - apply below_big. unfold BucketSpec.rounded_up. lra.
Qed.

Lemma floor_tokens_well_under gap m e :
  bounded Float64.prec Float64.emax m e = true ->
  0 <= gap <= Time.maxDuration ->
  (BucketSpec.earned gap m e <= BucketSpec.margin)%Q ->
  BucketSpec.floor_tokens gap (S754_finite false m e) = Some 0.
Proof.
  intros Hvalid Hgap Hexact. unfold BucketSpec.margin in Hexact.
  destruct (floor_tokens_at_most gap m e Hvalid Hgap) as (z & -> & Hz0 & Hz); [lra|].
  f_equal. unfold BucketSpec.rounded_up in Hz.
  assert (Hlt : (inject_Z z < inject_Z 1)%Q) by (change (inject_Z 1) with 1%Q; lra).
  rewrite <- Zlt_Qlt in Hlt. lia.
Qed.

(** A wait well under one token is too short to earn one: the refill it
    triggers computes zero tokens. *)
Lemma well_under_one_token_under rate elapsed :
  BucketSpec.well_under_one_token rate elapsed -> BucketSpec.under_one_token rate elapsed.
Proof.
  intros [Hel Hrate]. split; [done|]. right.
  destruct rate as [s|s| |[] m e]; try done.
  destruct Hrate as [Hvalid Hexact]. by apply floor_tokens_well_under.
Qed.

(** The tokens computed for a wait within [int64] are an [int64], not
    negative, and fit on top of the capacity. *)
Lemma floor_tokens_within_int64 capacity rate elapsed :
  0 <= capacity ->
  BucketSpec.within_int64 capacity rate elapsed ->
  exists added, BucketSpec.floor_tokens elapsed rate = Some added
                /\ 0 <= added /\ capacity + added <= Int64.max_int.
Proof.
  intros Hcap [Hel Hrate]. destruct rate as [s|s| |[] m e]; try done.
  destruct Hrate as [Hvalid Hexact].
  assert (Hc : (0 <= inject_Z capacity)%Q).
  { change 0%Q with (inject_Z 0). by rewrite <- Zle_Qle. }
  destruct (floor_tokens_at_most elapsed m e Hvalid Hel) as (z & Hfloor & Hz0 & Hz).
  { unfold BucketSpec.rounded_up in Hexact. lra. }
  exists z. split; [done|]. split; [done|].
  assert (Hsum : (inject_Z (capacity + z) <= inject_Z 9223372036854775807)%Q).
  { rewrite inject_Z_plus. change (inject_Z 9223372036854775807) with 9223372036854775807%Q. lra. }
  rewrite <- Zle_Qle in Hsum. unfold Int64.max_int. lia.
Qed.

(** * The token bucket *)

Lemma Int64_wrap_small z : Int64.in_range z -> Int64.wrap z = z.
Proof.
  unfold Int64.in_range, Int64.min_int, Int64.max_int, Int64.wrap. intros Hz.
  rewrite Z.mod_small; lia.
Qed.

Lemma Int64_in_rangeb_spec z : Int64.in_rangeb z = true <-> Int64.in_range z.
Proof. unfold Int64.in_rangeb, Int64.in_range. rewrite andb_true_iff. lia. Qed.

Lemma Time_Sub_diff now last :
  0 <= now - last <= Time.maxDuration -> Time.Sub now last = now - last.
Proof.
  unfold Time.maxDuration. intros Hd. unfold Time.Sub, Int64.sub.
  rewrite Int64_wrap_small by (unfold Int64.in_range, Int64.min_int in *; lia).
  destruct (now - last <? 0) eqn:H1; [lia|]. simpl.
  destruct (now <? last) eqn:H2; [lia|]. by rewrite andb_false_r.
Qed.

Lemma Time_Sub_self now : Time.Sub now now = 0.
Proof.
  rewrite Time_Sub_diff; unfold Time.maxDuration, Int64.max_int; lia.
Qed.

Section BucketTheory.

Context `{arch : Float64.GoArch}.

Lemma tokensToAdd_floor elapsed rate z :
  BucketSpec.floor_tokens elapsed rate = Some z -> Int64.in_range z ->
  Bucket.tokensToAdd elapsed rate = z.
Proof.
  unfold BucketSpec.floor_tokens, Bucket.tokensToAdd, Float64.to_int64.
  intros -> Hz. apply Int64_in_rangeb_spec in Hz. by rewrite Hz.
Qed.

Lemma refill_idle now b : Time.Sub now (Bucket.lastRefill b) <= 0 -> Bucket.refill now b = b.
Proof.
  intros Hd. unfold Bucket.refill.
  destruct (Time.Sub now (Bucket.lastRefill b) <=? 0) eqn:H; [done|lia].
Qed.

(** What one refill does when time has passed and the sum stays within
    [int64]: it adds the computed tokens, caps at capacity and stamps
    [lastRefill]. *)
Lemma refill_adds now b :
  0 < Time.Sub now (Bucket.lastRefill b) ->
  Int64.in_range
    (Bucket.tokens b + Bucket.tokensToAdd (Time.Sub now (Bucket.lastRefill b)) (Bucket.refillRate b)) ->
  Bucket.refill now b =
    {| Bucket.capacity := Bucket.capacity b;
       Bucket.tokens :=
         Z.min (Bucket.capacity b)
               (Bucket.tokens b
                + Bucket.tokensToAdd (Time.Sub now (Bucket.lastRefill b)) (Bucket.refillRate b));
       Bucket.refillRate := Bucket.refillRate b;
       Bucket.lastRefill := now;
       Bucket.lastAccess := Bucket.lastAccess b |}.
Proof.
  intros Hd Hr. unfold Bucket.refill.
  destruct (Time.Sub now (Bucket.lastRefill b) <=? 0) eqn:H; [lia|].
  unfold Int64.add. rewrite Int64_wrap_small by done.
  f_equal. destruct (_ <? _) eqn:Hc; lia.
Qed.

(** Calls at one instant [now] at which no time has passed since the last
    refill: call number [k] succeeds exactly when [k] tokens are not yet
    all. *)
Lemma AllowSeq_no_refill times : forall (b : Bucket.t) (now : Time.t) (j : nat),
  Time.Sub now (Bucket.lastRefill b) <= 0 ->
  Bucket.tokens b <= Int64.max_int ->
  Forall (fun p => fst p = now) times ->
  fst (Bucket.AllowSeq times b)
  = map (fun k => Z.of_nat k <? Bucket.tokens b + Z.of_nat j) (seq j (length times)).
Proof.
  induction times as [|[t t'] times IH]; intros b now j Hd Hmax Hall; [done|].
  apply Forall_cons in Hall as [Ht Hall']. simpl in Ht. subst t.
  cbn [Bucket.AllowSeq length seq map]. unfold Bucket.Allow.
  rewrite (refill_idle now b Hd).
  destruct (1 <=? Bucket.tokens b) eqn:H1.
  - set (b1 := Bucket.mk _ _ _ _ _).
    specialize (IH b1 now (S j)).
    destruct (Bucket.AllowSeq times b1) as [oks b2]. simpl in *.
    f_equal; [lia|]. rewrite IH; try done.
    + unfold Int64.sub. rewrite Int64_wrap_small
        by (unfold Int64.in_range, Int64.min_int, Int64.max_int in *; lia).
      apply map_ext. intros k. f_equal. lia.
    + unfold Int64.sub. rewrite Int64_wrap_small
        by (unfold Int64.in_range, Int64.min_int, Int64.max_int in *; lia).
      lia.
  - specialize (IH b now (S j) Hd Hmax Hall').
    destruct (Bucket.AllowSeq times b) as [oks b2]. simpl in *.
    f_equal; [lia|]. rewrite IH.
    apply map_ext_in. intros k Hk. apply in_seq in Hk.
    transitivity false; [apply Z.ltb_ge; lia|symmetry; apply Z.ltb_ge; lia].
Qed.

Lemma floor_tokens_no_wait rate z : BucketSpec.floor_tokens 0 rate = Some z -> z = 0.
Proof.
  unfold BucketSpec.floor_tokens.
  change (Time.Seconds 0) with (S754_zero false).
  destruct rate as [s|s| |s m e]; simpl; congruence.
Qed.

Lemma Allow_after_refill now now' b :
  Time.Sub now (Bucket.lastRefill (Bucket.refill now b)) <= 0 ->
  Bucket.Allow now now' (Bucket.refill now b) = Bucket.Allow now now' b.
Proof. intros Hd. unfold Bucket.Allow. by rewrite (refill_idle now _ Hd). Qed.

Lemma successes_below m n :
  BucketSpec.successes (map (fun k => Z.of_nat k <? m) (seq 0 n))
  = Z.max 0 (Z.min (Z.of_nat n) m).
Proof.
  unfold BucketSpec.successes. induction n as [|n IH]; [simpl; lia|].
  rewrite seq_S, map_app, List.filter_app, length_app, Nat2Z.inj_add, IH. simpl.
  destruct (Z.of_nat n <? m) eqn:H; simpl; lia.
Qed.

End BucketTheory.

Section BucketClaims.

Context `{arch : Float64.GoArch}.

Lemma NewBucket_tokens_in_range now capacity rate b :
  Bucket.NewBucket now capacity rate = Some b ->
  BucketSpec.tokens_in_range b /\ 0 < Bucket.capacity b /\ Bucket.tokens b = Bucket.capacity b.
Proof.
  unfold Bucket.NewBucket, BucketSpec.tokens_in_range.
  destruct (capacity <=? 0) eqn:Hc; [done|].
  destruct (Float64.leb rate Float64.zero); [done|].
  intros [= <-]. simpl. lia.
Qed.

(** Where the sum in [refill] stays within [int64] and the tokens to add
    are not negative, a take keeps [0 <= tokens <= capacity]. *)
Lemma Allow_keeps_tokens_in_range now now' b :
  BucketSpec.tokens_in_range b ->
  Bucket.capacity b <= Int64.max_int ->
  (0 < Time.Sub now (Bucket.lastRefill b) ->
   0 <= Bucket.tokensToAdd (Time.Sub now (Bucket.lastRefill b)) (Bucket.refillRate b)
   /\ Bucket.tokens b
      + Bucket.tokensToAdd (Time.Sub now (Bucket.lastRefill b)) (Bucket.refillRate b)
      <= Int64.max_int) ->
  BucketSpec.tokens_in_range (snd (Bucket.Allow now now' b)).
Proof.
  unfold BucketSpec.tokens_in_range. intros Hinv Hcap Hadd.
  assert (Hre : 0 <= Bucket.tokens (Bucket.refill now b) <= Bucket.capacity (Bucket.refill now b)
                /\ Bucket.capacity (Bucket.refill now b) = Bucket.capacity b).
  { destruct (Z_le_gt_dec (Time.Sub now (Bucket.lastRefill b)) 0) as [Hd|Hd].
    - by rewrite refill_idle.
    - destruct Hadd as [H0 Hmax]; [lia|].
      rewrite refill_adds; [simpl; lia|lia|].
      unfold Int64.in_range, Int64.min_int, Int64.max_int in *. lia. }
  destruct Hre as [Hre Hc]. unfold Bucket.Allow.
  destruct (1 <=? Bucket.tokens (Bucket.refill now b)) eqn:H1; simpl; [|done].
  unfold Int64.sub. rewrite Int64_wrap_small; [lia|].
  unfold Int64.in_range, Int64.min_int, Int64.max_int in *. lia.
Qed.

(** The upper half of the invariant needs no such condition: [refill]
    caps whatever the sum wrapped to. *)
Lemma Allow_keeps_tokens_below_capacity now now' b :
  Bucket.tokens b <= Bucket.capacity b ->
  Bucket.capacity b <= Int64.max_int ->
  Bucket.tokens (snd (Bucket.Allow now now' b)) <= Bucket.capacity b
  /\ Bucket.capacity (snd (Bucket.Allow now now' b)) = Bucket.capacity b.
Proof.
  intros Hle Hcap.
  assert (Hre : Bucket.tokens (Bucket.refill now b) <= Bucket.capacity b
                /\ Bucket.capacity (Bucket.refill now b) = Bucket.capacity b).
  { unfold Bucket.refill. destruct (_ <=? 0); [done|]. simpl.
    destruct (_ <? _) eqn:H; lia. }
  destruct Hre as [Hre Hc]. unfold Bucket.Allow.
  destruct (1 <=? Bucket.tokens (Bucket.refill now b)) eqn:H1; simpl; [|done].
  split; [|done]. unfold Int64.sub. rewrite Int64_wrap_small; [lia|].
  unfold Int64.in_range, Int64.min_int, Int64.max_int in *. lia.
Qed.

(** Every take leaves [lastRefill] at the time of the take; so the time
    since [lastRefill] of a drained Bucket is the time since the take that
    drained it. *)
Lemma Allow_stamps_lastRefill now now' b :
  0 <= now - Bucket.lastRefill b <= Time.maxDuration ->
  Bucket.lastRefill (snd (Bucket.Allow now now' b)) = now.
Proof.
  intros Hel. pose proof (Time_Sub_diff _ _ Hel) as Hsub.
  unfold Bucket.Allow, Bucket.refill. rewrite Hsub.
  destruct (now - Bucket.lastRefill b <=? 0) eqn:Hd.
  - destruct (1 <=? Bucket.tokens b); simpl; lia.
  - simpl. by destruct (1 <=? _).
Qed.

Lemma Allow_keeps_parameters now now' b :
  Bucket.capacity (snd (Bucket.Allow now now' b)) = Bucket.capacity b
  /\ Bucket.refillRate (snd (Bucket.Allow now now' b)) = Bucket.refillRate b.
Proof.
  unfold Bucket.Allow, Bucket.refill.
  destruct (_ <=? 0); simpl; by destruct (1 <=? _).
Qed.

(** The same in exact arithmetic: a take after a wait within [int64]
    keeps [0 <= tokens <= capacity]. *)
Lemma Allow_within_int64 now now' b :
  BucketSpec.tokens_in_range b ->
  BucketSpec.within_int64 (Bucket.capacity b) (Bucket.refillRate b) (now - Bucket.lastRefill b) ->
  BucketSpec.tokens_in_range (snd (Bucket.Allow now now' b)).
Proof.
  intros Hinv Hwait. pose proof Hwait as [Hel _].
  pose proof (Time_Sub_diff _ _ Hel) as Hsub.
  assert (Hcap : 0 <= Bucket.capacity b) by (unfold BucketSpec.tokens_in_range in Hinv; lia).
  destruct (floor_tokens_within_int64 _ _ _ Hcap Hwait) as (added & Hfloor & Hadded0 & Hadded).
  unfold Int64.max_int in Hadded.
  assert (Hadd : Bucket.tokensToAdd (now - Bucket.lastRefill b) (Bucket.refillRate b) = added).
  { apply tokensToAdd_floor; [done|]. unfold Int64.in_range, Int64.min_int, Int64.max_int. lia. }
  apply Allow_keeps_tokens_in_range; [done|unfold Int64.max_int; lia|].
  rewrite Hsub, Hadd. unfold BucketSpec.tokens_in_range in Hinv. unfold Int64.max_int. lia.
Qed.

(** And so does any run of takes whose waits are all within [int64]. *)
Lemma AllowSeq_within_int64 times : forall b : Bucket.t,
  BucketSpec.tokens_in_range b ->
  Forall (BucketSpec.within_int64 (Bucket.capacity b) (Bucket.refillRate b))
         (BucketSpec.gaps (Bucket.lastRefill b) (map fst times)) ->
  BucketSpec.tokens_in_range (snd (Bucket.AllowSeq times b)).
Proof.
  induction times as [|[now now'] times IH]; intros b Hinv Hgaps; [done|].
  cbn [map fst BucketSpec.gaps] in Hgaps. apply Forall_cons in Hgaps as [Hgap Hgaps].
  pose proof (Allow_within_int64 now now' b Hinv Hgap) as Hinv1.
  pose proof (Allow_keeps_parameters now now' b) as [Hc Hr].
  pose proof Hgap as [Hel _].
  pose proof (Allow_stamps_lastRefill now now' b Hel) as Hlast.
  cbn [Bucket.AllowSeq].
  destruct (Bucket.Allow now now' b) as [ok b1]. cbn [snd] in *.
  specialize (IH b1 Hinv1). rewrite Hc, Hr, Hlast in IH. specialize (IH Hgaps).
  by destruct (Bucket.AllowSeq times b1).
Qed.

(** C2, where the code departs from it.  A Bucket of capacity
    [2^63 - 1] and rate 1 starts full, within [0 <= tokens <= capacity].
    One second later the refill of the first take adds one token to
    [2^63 - 1]; the [int64] sum wraps to [-2^63], which is not above the
    capacity and so is kept: the take is refused and the Bucket is left
    with [-2^63] tokens, below 0. *)
Theorem full_bucket_of_max_capacity_overflows :
  Bucket.NewBucket 0 Int64.max_int Sample.one = Some Sample.widest
  /\ BucketSpec.tokens_in_range Sample.widest
  /\ Bucket.Allow 1000000000 1000000000 Sample.widest = (false, Sample.widest_after_1s)
  /\ ~ BucketSpec.tokens_in_range Sample.widest_after_1s.
Proof.
  split; [reflexivity|]. split; [vm_compute; split; discriminate|].
  split; [vm_compute; reflexivity|].
  intros [Hneg _]. vm_compute in Hneg. by apply Hneg.
Qed.

(** C3, as the code has it.  A Bucket is at 0 tokens and [elapsed] has
    passed since its last refill, the take that drained it.  Let [added]
    be the integer part of the [float64] product
    [duration.Seconds() * refillRate] that [refill] computes, when that
    product is a number within [int64].  Then of the [Allow] calls made at
    that instant, call
    number [k] (from 0) is allowed exactly when
    [k < min(capacity, added)], so [min(capacity, added)] of them are
    allowed once that many are made; and when time has passed, the refill
    of the first take leaves [min(capacity, added)] tokens in the Bucket,
    [lastRefill] set to now and everything else as it was. *)
Theorem drained_bucket_allows_min_capacity_refilled
    (b : Bucket.t) (now : Time.t) (times : list (Time.t * Time.t)) (added : Z) :
  0 < Bucket.capacity b ->
  Bucket.tokens b = 0 ->
  0 <= now - Bucket.lastRefill b <= Time.maxDuration ->
  BucketSpec.floor_tokens (now - Bucket.lastRefill b) (Bucket.refillRate b) = Some added ->
  Int64.in_range added ->
  Forall (fun p => fst p = now) times ->
  fst (Bucket.AllowSeq times b)
    = map (fun k => Z.of_nat k <? Z.min (Bucket.capacity b) added) (seq 0 (length times))
  /\ BucketSpec.successes (fst (Bucket.AllowSeq times b))
     = Z.max 0 (Z.min (Z.of_nat (length times)) (Z.min (Bucket.capacity b) added))
  /\ (0 < now - Bucket.lastRefill b ->
      Bucket.refill now b =
        {| Bucket.capacity := Bucket.capacity b;
           Bucket.tokens := Z.min (Bucket.capacity b) added;
           Bucket.refillRate := Bucket.refillRate b;
           Bucket.lastRefill := now;
           Bucket.lastAccess := Bucket.lastAccess b |}).
Proof.
  intros Hcap Hdrained Hel Hfloor Hadded Hall.
  pose proof (Time_Sub_diff _ _ Hel) as Hsub.
  pose proof (tokensToAdd_floor _ _ _ Hfloor Hadded) as Hadd.
  assert (Hrefill : 0 < now - Bucket.lastRefill b ->
      Bucket.refill now b =
        {| Bucket.capacity := Bucket.capacity b;
           Bucket.tokens := Z.min (Bucket.capacity b) added;
           Bucket.refillRate := Bucket.refillRate b;
           Bucket.lastRefill := now;
           Bucket.lastAccess := Bucket.lastAccess b |}).
  { intros Hpos. rewrite refill_adds.
    - by rewrite Hsub, Hadd, Hdrained.
    - by rewrite Hsub.
    - by rewrite Hsub, Hadd, Hdrained. }
  assert (Hrun : fst (Bucket.AllowSeq times b)
    = map (fun k => Z.of_nat k <? Z.min (Bucket.capacity b) added) (seq 0 (length times))).
  { destruct times as [|[t t'] times]; [done|].
    pose proof Hall as Hall'. apply Forall_cons in Hall' as [Ht _]. simpl in Ht. subst t.
    assert (Hidle : Time.Sub now (Bucket.lastRefill (Bucket.refill now b)) <= 0
                    /\ Bucket.tokens (Bucket.refill now b) = Z.min (Bucket.capacity b) added
                    /\ Bucket.tokens (Bucket.refill now b) <= Int64.max_int).
    { destruct (Z.eq_dec (now - Bucket.lastRefill b) 0) as [H0|Hne].
      - rewrite refill_idle by lia. rewrite H0 in Hfloor.
        apply floor_tokens_no_wait in Hfloor. subst added.
        rewrite Hdrained. unfold Int64.max_int.
        rewrite Z.min_r by lia. rewrite Time_Sub_diff by lia. lia.
      - rewrite Hrefill by lia. simpl. rewrite Time_Sub_self.
        unfold Int64.in_range in Hadded. lia. }
    destruct Hidle as (Hidle & Htok & Hmax).
    pose proof (AllowSeq_no_refill ((now, t') :: times) (Bucket.refill now b) now 0%nat
                  Hidle Hmax Hall) as Hrun.
    cbn [Bucket.AllowSeq] in Hrun |- *.
    rewrite (Allow_after_refill _ _ _ Hidle) in Hrun.
    rewrite Hrun, Htok. apply map_ext. intros k. f_equal. lia. }
  split; [done|]. split; [|done].
  rewrite Hrun. apply successes_below.
Qed.


(** The product is the [float64] product.  Three seconds at the rate
    nearest to a third of a token per second make [1 - 2^-54] tokens,
    which rounds to 1: the refill adds a token. *)
Remark floor_tokens_rounds_to_nearest :
  Sample.third = S754_finite false 6004799503160661 (-54)
  /\ 3 * 6004799503160661 = 2 ^ 54 - 1
  /\ BucketSpec.floor_tokens 3000000000 Sample.third = Some 1.
Proof. repeat split. Qed.

(** A take on an empty Bucket after a wait too short to earn a token:
    refused, and the wait is forgotten. *)
Lemma Allow_under_one_token now now' b :
  0 < Bucket.capacity b -> Bucket.tokens b = 0 ->
  BucketSpec.under_one_token (Bucket.refillRate b) (now - Bucket.lastRefill b) ->
  Bucket.Allow now now' b = (false, BucketSpec.stamped now b).
Proof.
  intros Hcap Hdrained (Hel & Hshort).
  pose proof (Time_Sub_diff _ _ Hel) as Hsub. unfold Bucket.Allow.
  assert (Hre : Bucket.refill now b = BucketSpec.stamped now b).
  { destruct Hshort as [H0|Hfloor].
    - rewrite refill_idle by lia. replace now with (Bucket.lastRefill b) by lia.
      by destruct b.
    - destruct (Z.eq_dec (now - Bucket.lastRefill b) 0) as [H0|Hne].
      + rewrite refill_idle by lia. replace now with (Bucket.lastRefill b) by lia.
        by destruct b.
      + rewrite refill_adds; rewrite Hsub; [|lia|].
        * rewrite (tokensToAdd_floor _ _ 0 Hfloor) by done.
          unfold BucketSpec.stamped. f_equal. lia.
        * rewrite (tokensToAdd_floor _ _ 0 Hfloor) by done.
          rewrite Hdrained. done. }
  rewrite Hre. simpl. by rewrite Hdrained.
Qed.

(** C9, as the code has it.  A Bucket is at 0 tokens.  [Allow] is called
    again and again, each call after a wait (since the call before, the
    first since the take that drained the Bucket) too short to earn a
    token: a wait for which the [float64] product that [refill] computes
    has integer part 0, or one that in exact arithmetic earns at most
    [1 - 2^-40] of a token, which is
    [elapsed_seconds <= (1 - 2^-40) / refillRate].  Then every call is
    refused, however many there are and however long they go on, the
    Bucket stays at 0 tokens, and each call moves [lastRefill] to its own
    time, so the part of a token the wait had earned is lost. *)
Theorem starved_bucket_refuses_every_call (times : list (Time.t * Time.t)) (b : Bucket.t) :
  0 < Bucket.capacity b ->
  Bucket.tokens b = 0 ->
  Forall (fun elapsed => BucketSpec.under_one_token (Bucket.refillRate b) elapsed
                         \/ BucketSpec.well_under_one_token (Bucket.refillRate b) elapsed)
         (BucketSpec.gaps (Bucket.lastRefill b) (map fst times)) ->
  Bucket.AllowSeq times b
  = (repeat false (length times),
     BucketSpec.stamped (List.last (map fst times) (Bucket.lastRefill b)) b).
Proof.
  revert b. induction times as [|[now now'] times IH]; intros b Hcap Hdrained Hgaps.
  - simpl. by destruct b.
  - cbn [map fst BucketSpec.gaps] in Hgaps. apply Forall_cons in Hgaps as [Hgap Hgaps].
    assert (Hshort : BucketSpec.under_one_token (Bucket.refillRate b) (now - Bucket.lastRefill b)).
    { destruct Hgap as [Hgap|Hgap]; [done|by apply well_under_one_token_under]. }
    cbn [Bucket.AllowSeq]. rewrite Allow_under_one_token by done.
    rewrite (IH (BucketSpec.stamped now b)) by done.
    cbn [length repeat]. f_equal.
    change (map fst ((now, now') :: times)) with (now :: map fst times).
    destruct (map fst times) as [|t ts] eqn:Hts; [done|].
    change (List.last (now :: t :: ts) (Bucket.lastRefill b))
      with (List.last (t :: ts) (Bucket.lastRefill b)).
    simpl Bucket.lastRefill.
    assert (Hlast : forall d d', List.last (t :: ts) d = List.last (t :: ts) d').
    { clear. revert t. induction ts as [|u ts IHts]; intros t d d'; [done|].
      change (List.last (t :: u :: ts) d) with (List.last (u :: ts) d).
      change (List.last (t :: u :: ts) d') with (List.last (u :: ts) d'). apply IHts. }
    rewrite (Hlast now (Bucket.lastRefill b)). done.
Qed.


End BucketClaims.

Lemma drained_bucket_allows_min_capacity_refilled_witness :
  fst (Bucket.AllowSeq (arch := Float64.amd64) (Sample.at_once 6000000000 4) (Sample.drained 2 1000000000))
    = [true; true; false; false]
  /\ BucketSpec.successes
       (fst (Bucket.AllowSeq (arch := Float64.amd64) (Sample.at_once 6000000000 4) (Sample.drained 2 1000000000))) = 2
  /\ (0 < 6000000000 - 1000000000 ->
      Bucket.refill (arch := Float64.amd64) 6000000000 (Sample.drained 2 1000000000)
      = {| Bucket.capacity := 2; Bucket.tokens := 2; Bucket.refillRate := Sample.one;
           Bucket.lastRefill := 6000000000; Bucket.lastAccess := 1000000000 |}).
Proof.
  apply (drained_bucket_allows_min_capacity_refilled (arch := Float64.amd64)
           (Sample.drained 2 1000000000) 6000000000 (Sample.at_once 6000000000 4) 5).
  - reflexivity.
  - reflexivity.
  - vm_compute. split; discriminate.
  - vm_compute. reflexivity.
  - vm_compute. split; discriminate.
  - repeat constructor.
Defined.

Lemma starved_bucket_refuses_every_call_witness :
  Bucket.AllowSeq (arch := Float64.amd64) Sample.every_900ms (Sample.drained 5 0)
  = ([false; false; false; false], BucketSpec.stamped 3600000000 (Sample.drained 5 0)).
Proof.
  apply (starved_bucket_refuses_every_call (arch := Float64.amd64) Sample.every_900ms (Sample.drained 5 0)).
  - reflexivity.
  - reflexivity.
  - repeat (apply List.Forall_cons || apply List.Forall_nil); [left|right|left|right].
    + split; [vm_compute; split; discriminate|right; vm_compute; reflexivity].
    + vm_compute. repeat split; discriminate.
    + split; [vm_compute; split; discriminate|right; vm_compute; reflexivity].
    + vm_compute. repeat split; discriminate.
Defined.

(** C3 as the spec words it does not hold, for two reasons.  A Bucket of
    capacity 5 at the [float64] nearest to a third of a token per second
    is at 0 tokens.  Three seconds later the exact product is
    [1 - 2^-54], whose floor is 0, so that
    [min(capacity, floor(Δt × refillRate))] is 0; yet the [float64]
    product rounds to 1, the refill adds one token and the first of the
    calls made at that instant is allowed, on either architecture.  And
    outside [int64] the conversion is the implementation's: one second at
    [10^19] tokens per second makes a product of [10^19], of which
    [min(capacity, floor(Δt × refillRate))] is 5; on amd64 the conversion
    gives [-2^63], the refill leaves the Bucket with [-2^63] tokens and no
    call is allowed (on arm64 it gives [2^63 - 1], and five are). *)
Lemma drained_bucket_exact_floor_counterexample :
  (Bucket.tokens Sample.drained_third = 0
   /\ BucketSpec.floor_exact (3000000000 - Bucket.lastRefill Sample.drained_third)
        (Bucket.refillRate Sample.drained_third) = Some 0
   /\ fst (Bucket.AllowSeq (arch := Float64.amd64) (Sample.at_once 3000000000 3)
             Sample.drained_third) = [true; false; false]
   /\ fst (Bucket.AllowSeq (arch := Float64.arm64) (Sample.at_once 3000000000 3)
             Sample.drained_third) = [true; false; false]
   /\ BucketSpec.successes
        (fst (Bucket.AllowSeq (arch := Float64.amd64) (Sample.at_once 3000000000 3)
                Sample.drained_third))
      <> Z.min (Bucket.capacity Sample.drained_third) 0
   /\ Bucket.tokens (Bucket.refill (arch := Float64.amd64) 3000000000 Sample.drained_third)
      <> Z.min (Bucket.capacity Sample.drained_third) 0)
  /\ (Bucket.tokens Sample.drained_fast = 0
      /\ BucketSpec.floor_exact (1000000000 - Bucket.lastRefill Sample.drained_fast)
           (Bucket.refillRate Sample.drained_fast) = Some 10000000000000000000
      /\ fst (Bucket.AllowSeq (arch := Float64.amd64) (Sample.at_once 1000000000 6)
                Sample.drained_fast) = [false; false; false; false; false; false]
      /\ BucketSpec.successes
           (fst (Bucket.AllowSeq (arch := Float64.amd64) (Sample.at_once 1000000000 6)
                   Sample.drained_fast))
         <> Z.min (Bucket.capacity Sample.drained_fast) 10000000000000000000
      /\ Bucket.tokens (Bucket.refill (arch := Float64.amd64) 1000000000 Sample.drained_fast)
         = Int64.min_int
      /\ fst (Bucket.AllowSeq (arch := Float64.arm64) (Sample.at_once 1000000000 6)
                Sample.drained_fast) = [true; true; true; true; true; false]).
Proof.
  split.
  - split; [reflexivity|]. split; [vm_compute; reflexivity|].
    split; [vm_compute; reflexivity|]. split; [vm_compute; reflexivity|].
    split; vm_compute; discriminate.
  - split; [reflexivity|]. split; [vm_compute; reflexivity|].
    split; [vm_compute; reflexivity|]. split; [vm_compute; discriminate|].
    split; vm_compute; reflexivity.
Qed.

(** C9 as the spec words it does not hold.  The same Bucket is called
    every three seconds.  Each wait is strictly less than [1/refillRate]
    seconds: in exact arithmetic it earns [1 - 2^-54] of a token.  Yet
    every call is allowed, on either architecture, since each refill
    computes one token. *)
Lemma starved_bucket_just_under_one_token_counterexample :
  Bucket.tokens Sample.drained_third = 0
  /\ Forall (BucketSpec.less_than_one_token (Bucket.refillRate Sample.drained_third))
       (BucketSpec.gaps (Bucket.lastRefill Sample.drained_third) (map fst Sample.every_3s))
  /\ fst (Bucket.AllowSeq (arch := Float64.amd64) Sample.every_3s Sample.drained_third)
     = [true; true; true]
  /\ fst (Bucket.AllowSeq (arch := Float64.arm64) Sample.every_3s Sample.drained_third)
     = [true; true; true].
Proof.
  split; [reflexivity|]. split.
  - repeat (apply List.Forall_cons || apply List.Forall_nil);
      (split; [vm_compute; split; discriminate|vm_compute; reflexivity]).
  - split; vm_compute; reflexivity.
Qed.

(** * The bucket store and the limiter *)

Lemma Float64_gtb_not_leb r : Float64.gtb r Float64.zero = true -> Float64.leb r Float64.zero = false.
Proof. by destruct r as [[]|[]| |[] m e]. Qed.

Lemma Float64_leb_not_gtb r : Float64.leb r Float64.zero = true -> Float64.gtb r Float64.zero = false.
Proof. by destruct r as [[]|[]| |[] m e]. Qed.

Lemma NewBucket_fresh now capacity rate :
  0 < capacity -> Float64.leb rate Float64.zero = false ->
  Bucket.NewBucket now capacity rate = Some (BucketSpec.fresh now capacity rate).
Proof.
  intros Hc Hr. unfold Bucket.NewBucket. rewrite Hr.
  destruct (capacity <=? 0) eqn:H; [lia|done].
Qed.

Lemma createBucket_default now clientID s evs warned :
  0 < BucketStore.defaultCapacity s ->
  Float64.leb (BucketStore.defaultRefillRate s) Float64.zero = false ->
  BucketStore.chooseLimits clientID s
    = (BucketStore.defaultCapacity s, BucketStore.defaultRefillRate s, false, evs) ->
  existsb is_warning evs = warned ->
  BucketSpec.created now clientID s (BucketStore.defaultCapacity s)
    (BucketStore.defaultRefillRate s) warned (BucketStore.createBucket now clientID s).
Proof.
  intros Hc Hr Hchoose Hw. unfold BucketStore.createBucket. rewrite Hchoose.
  rewrite NewBucket_fresh by done. repeat split.
  rewrite existsb_app, Hw. simpl. by rewrite orb_false_r.
Qed.

(** C6.  For a [clientID] the store has no Bucket for, in a store whose
    defaults are valid (as [NewBucketStore] requires), [GetOrCreateBucket]
    creates, returns and records a full Bucket: with the provider's values
    when a provider is configured and reports [found] with capacity and
    rate both positive, logging no warning; with the defaults and a
    warning in the log when it reports [found] with a capacity or a rate
    that is not positive; with the defaults and no warning when it
    reports not [found] or when no provider is configured. *)
Theorem GetOrCreateBucket_chooses_limits (now : Time.t) (clientID : string) (s : BucketStore.t) :
  BucketStore.buckets s !! clientID = None ->
  0 < BucketStore.defaultCapacity s ->
  Float64.leb (BucketStore.defaultRefillRate s) Float64.zero = false ->
  let outcome := BucketStore.GetOrCreateBucket now clientID s in
  let defaults := BucketSpec.created now clientID s (BucketStore.defaultCapacity s)
                    (BucketStore.defaultRefillRate s) in
  match BucketStore.limitProvider s with
  | None => defaults false outcome
  | Some provider =>
      let '(customCapacity, customRate, found) := provider clientID in
      (found = true -> 0 < customCapacity -> Float64.gtb customRate Float64.zero = true ->
       BucketSpec.created now clientID s customCapacity customRate false outcome)
      /\ (found = true ->
          customCapacity <= 0 \/ Float64.leb customRate Float64.zero = true ->
          defaults true outcome)
      /\ (found = false -> defaults false outcome)
  end.
Proof.
  intros Hmiss Hc Hr. cbv zeta. unfold BucketStore.GetOrCreateBucket. rewrite Hmiss.
  destruct (BucketStore.limitProvider s) as [provider|] eqn:Hp.
  - destruct (provider clientID) as [[customCapacity customRate] found] eqn:Hlim.
    split; [|split].
    + intros -> Hcc Hcr. unfold BucketStore.createBucket, BucketStore.chooseLimits.
      rewrite Hp, Hlim, Hcr.
      destruct (0 <? customCapacity) eqn:H; [|lia]. simpl.
      rewrite NewBucket_fresh by (done || by apply Float64_gtb_not_leb).
      unfold BucketSpec.created. by rewrite Hp.
    + intros -> Hbad. apply createBucket_default with (evs :=
        [Printf "WARN: Found invalid custom limit for client %s (capacity=%d, rate=%.2f). Using defaults."
                [AStr clientID; AInt customCapacity; AFloat customRate]]); try done.
      unfold BucketStore.chooseLimits. rewrite Hp, Hlim.
      destruct Hbad as [Hbad|Hbad].
      * destruct (0 <? customCapacity) eqn:H; [lia|done].
      * rewrite (Float64_leb_not_gtb _ Hbad). by rewrite andb_false_r.
    + intros ->. apply createBucket_default with (evs := []); try done.
      unfold BucketStore.chooseLimits. by rewrite Hp, Hlim.
  - apply createBucket_default with (evs := []); try done.
    unfold BucketStore.chooseLimits. by rewrite Hp.
Qed.

Lemma GetOrCreateBucket_chooses_limits_witness :
  BucketSpec.created 7 "1.2.3.4" Sample.store 5 Sample.two false
    (BucketStore.GetOrCreateBucket 7 "1.2.3.4" Sample.store)
  /\ BucketSpec.created 7 "6.6.6.6" Sample.store 3 Sample.one true
       (BucketStore.GetOrCreateBucket 7 "6.6.6.6" Sample.store)
  /\ BucketSpec.created 7 "9.9.9.9" Sample.store 3 Sample.one false
       (BucketStore.GetOrCreateBucket 7 "9.9.9.9" Sample.store).
Proof.
  split; [|split].
  - apply (GetOrCreateBucket_chooses_limits 7 "1.2.3.4" Sample.store); reflexivity.
  - apply (GetOrCreateBucket_chooses_limits 7 "6.6.6.6" Sample.store);
      try reflexivity. left. vm_compute. discriminate.
  - apply (GetOrCreateBucket_chooses_limits 7 "9.9.9.9" Sample.store); reflexivity.
Defined.

Lemma NewBucketStore_valid defaultCapacity defaultRefillRate provider s evs :
  BucketStore.NewBucketStore defaultCapacity defaultRefillRate provider = (Some s, evs) ->
  0 < BucketStore.defaultCapacity s
  /\ Float64.leb (BucketStore.defaultRefillRate s) Float64.zero = false
  /\ BucketStore.buckets s = ∅.
Proof.
  unfold BucketStore.NewBucketStore.
  destruct (defaultCapacity <=? 0) eqn:Hc; [done|].
  destruct (Float64.leb defaultRefillRate Float64.zero) eqn:Hr; [done|].
  intros [= <- _]. simpl. repeat split; [lia|done].
Qed.

(** C8, as the code has it.  A cleanup interval that is not positive does
    not make [NewLimiter] fail: given a store, it logs a warning and
    returns a Limiter whose cleanup interval is the default of five
    minutes, and it starts the cleanup goroutine.  [NewLimiter] returns no
    Limiter exactly when it is given no store. *)
Theorem NewLimiter_replaces_nonpositive_interval
    (store : option BucketStore.t) (cleanupInterval : Time.Duration) :
  cleanupInterval <= 0 ->
  (forall st, store = Some st ->
     fst (Limiter.NewLimiter store cleanupInterval)
       = Some {| Limiter.store := st; Limiter.cleanupInterval := 5 * Time.Minute |}
     /\ existsb is_warning (snd (Limiter.NewLimiter store cleanupInterval)) = true
     /\ In (Go "runCleanup") (snd (Limiter.NewLimiter store cleanupInterval)))
  /\ (fst (Limiter.NewLimiter store cleanupInterval) = None <-> store = None).
Proof.
  intros Hci. unfold Limiter.NewLimiter. split.
  - intros st ->. destruct (cleanupInterval <=? 0) eqn:H; [|lia]. simpl.
    split; [done|]. split; [done|]. right. by left.
  - destruct store as [st|]; [|done].
    destruct (cleanupInterval <=? 0); simpl; split; done.
Qed.

Lemma NewLimiter_replaces_nonpositive_interval_witness :
  fst (Limiter.NewLimiter (Some Sample.store) 0)
  = Some {| Limiter.store := Sample.store; Limiter.cleanupInterval := 300000000000 |}.
Proof.
  refine (proj1 (proj1 (NewLimiter_replaces_nonpositive_interval (Some Sample.store) 0 _)
                   Sample.store eq_refl)).
  vm_compute. discriminate.
Defined.

(** C8 as stated fails: with a store and the interval 0, [NewLimiter]
    returns a Limiter. *)
Lemma NewLimiter_nonpositive_interval_counterexample :
  ~ (forall (store : option BucketStore.t) (cleanupInterval : Time.Duration),
       cleanupInterval <= 0 -> fst (Limiter.NewLimiter store cleanupInterval) = None).
Proof.
  intros H. specialize (H (Some Sample.store) 0). discriminate H. lia.
Qed.

(** * The client identifier *)

Lemma string_app_nil (s : string) : EmptyString +:+ s = s.
Proof. reflexivity. Qed.

Lemma string_app_cons (c : ascii) (a b : string) : String c a +:+ b = String c (a +:+ b).
Proof. reflexivity. Qed.

Lemma string_length_app (a b : string) :
  String.length (a +:+ b) = (String.length a + String.length b)%nat.
Proof. induction a as [|c a IH]; simpl; [done|by rewrite IH]. Qed.

Lemma substring_whole (s : string) : String.substring 0 (String.length s) s = s.
Proof. induction s as [|c s IH]; simpl; [done|by rewrite IH]. Qed.

Lemma substring_app_l (a b : string) : String.substring 0 (String.length a) (a +:+ b) = a.
Proof.
  induction a as [|c a IH]; simpl; [by destruct b|by rewrite IH].
Qed.

Lemma substring_app_r (a b : string) n :
  String.substring (String.length a) n (a +:+ b) = String.substring 0 n b.
Proof. induction a as [|c a IH]; simpl; [done|by rewrite IH]. Qed.

Lemma prefix_one_byte (a c : ascii) (s : string) :
  String.prefix (String a EmptyString) (String c s) = Ascii.eqb a c.
Proof.
  cbn [String.prefix]. destruct (ascii_dec a c) as [<-|Hne].
  - rewrite Ascii.eqb_refl. by destruct s.
  - symmetry. by apply Ascii.eqb_neq.
Qed.

Lemma LastIndex_from_no_colon s i :
  IdentSpec.has_colon s = false -> strings.LastIndex_from i s ":" = -1.
Proof.
  revert i. induction s as [|c s IH]; intros i; [done|].
  cbn [IdentSpec.has_colon strings.LastIndex_from].
  intros [Hc Hs]%orb_false_iff. rewrite IH by done.
  rewrite prefix_one_byte, Ascii.eqb_sym, Hc. done.
Qed.

Lemma LastIndex_from_last_colon host port i :
  0 <= i -> IdentSpec.has_colon port = false ->
  strings.LastIndex_from i (host +:+ ":" +:+ port) ":" = i + strings.len host.
Proof.
  intros Hi Hport. revert i Hi. unfold strings.len.
  induction host as [|c host IH]; intros i Hi.
  - rewrite string_app_nil, string_app_cons, string_app_nil.
    cbn [strings.LastIndex_from String.length].
    rewrite LastIndex_from_no_colon by done.
    rewrite prefix_one_byte, Ascii.eqb_refl. simpl. lia.
  - rewrite string_app_cons.
    cbn [strings.LastIndex_from String.length]. rewrite IH by lia.
    destruct (_ =? -1) eqn:H; lia.
Qed.

Lemma HasPrefix_bracket s : strings.HasPrefix s "[" = true <-> exists s', s = String "[" s'.
Proof.
  unfold strings.HasPrefix. destruct s as [|c s].
  - split; [done|]. by intros [s' ?].
  - rewrite prefix_one_byte. split.
    + intros ->%Ascii.eqb_eq. eauto.
    + intros [s' [= <- _]]. apply Ascii.eqb_refl.
Qed.

Lemma substring_split_last (s : string) :
  (1 <= String.length s)%nat ->
  s = String.substring 0 (String.length s - 1) s
      +:+ String.substring (String.length s - 1) 1 s.
Proof.
  induction s as [|c s IH]; [simpl; lia|]. intros _.
  destruct s as [|c' s]; [done|].
  specialize (IH ltac:(simpl; lia)).
  change (String.length (String c (String c' s)) - 1)%nat with (S (String.length s)).
  change (String.length (String c' s) - 1)%nat with (String.length s - 0)%nat in IH.
  rewrite Nat.sub_0_r in IH.
  change (String.substring 0 (S (String.length s)) (String c (String c' s)))
    with (String c (String.substring 0 (String.length s) (String c' s))).
  change (String.substring (S (String.length s)) 1 (String c (String c' s)))
    with (String.substring (String.length s) 1 (String c' s)).
  rewrite string_app_cons. by rewrite <- IH.
Qed.

Lemma HasSuffix_bracket s : strings.HasSuffix s "]" = true <-> exists s', s = s' +:+ "]".
Proof.
  unfold strings.HasSuffix. split.
  - intros [Hlen Heq]%andb_true_iff. apply Nat.leb_le in Hlen. apply String.eqb_eq in Heq.
    change (String.length "]") with 1%nat in Hlen, Heq.
    exists (String.substring 0 (String.length s - 1) s).
    rewrite <- Heq. by apply substring_split_last.
  - intros [s' ->]. rewrite string_length_app.
    change (String.length "]") with 1%nat.
    replace (String.length s' + 1 - 1)%nat with (String.length s') by lia.
    rewrite substring_app_r.
    destruct (String.length s' + 1)%nat eqn:H; [lia|done].
Qed.

Lemma has_colon_app (a b : string) :
  IdentSpec.has_colon (a +:+ b) = IdentSpec.has_colon a || IdentSpec.has_colon b.
Proof.
  induction a as [|c a IH]; [done|].
  rewrite string_app_cons. cbn [IdentSpec.has_colon]. by rewrite IH, orb_assoc.
Qed.

(** The test [HasPrefix(ip, "[") && HasSuffix(ip, "]")] holds exactly of
    the strings of the form [[x]]. *)
Lemma bracket_test_iff s :
  strings.HasPrefix s "[" && strings.HasSuffix s "]" = true <-> IdentSpec.bracketed s.
Proof.
  rewrite andb_true_iff, HasPrefix_bracket, HasSuffix_bracket. unfold IdentSpec.bracketed. split.
  - intros [[s1 ->] [s2 Hs2]]. destruct s2 as [|c s2].
    + by rewrite string_app_nil in Hs2.
    + rewrite string_app_cons in Hs2. injection Hs2 as <- ->. by exists s2.
  - intros [x ->]. split; [by exists (x +:+ "]")|by exists (String "[" x)].
Qed.

Lemma slice_brackets x :
  strings.slice ("[" +:+ x +:+ "]") 1 (strings.len ("[" +:+ x +:+ "]") - 1) = x.
Proof.
  unfold strings.slice, strings.len.
  change ("[" +:+ x +:+ "]") with (String "[" (x +:+ "]")).
  cbn [String.length]. rewrite string_length_app. change (String.length "]") with 1%nat.
  replace (Z.to_nat (Z.of_nat (S (String.length x + 1)) - 1 - 1)) with (String.length x) by lia.
  change (Z.to_nat 1) with 1%nat.
  change (String.substring 1 (String.length x) (String "[" (x +:+ "]")))
    with (String.substring 0 (String.length x) (x +:+ "]")).
  apply substring_app_l.
Qed.

Lemma slice_before_colon host rest :
  strings.slice (host +:+ rest) 0 (0 + strings.len host) = host.
Proof.
  unfold strings.slice, strings.len.
  replace (Z.to_nat (0 + Z.of_nat (String.length host) - 0)) with (String.length host) by lia.
  apply substring_app_l.
Qed.

(** What [RateLimit] makes of [host:port]: the host, without its brackets
    if it has them. *)
Lemma clientIP_host_port host port :
  IdentSpec.has_colon port = false ->
  middleware.clientIP (host +:+ ":" +:+ port)
  = if strings.HasPrefix host "[" && strings.HasSuffix host "]"
    then strings.slice host 1 (strings.len host - 1) else host.
Proof.
  intros Hport. unfold middleware.clientIP, strings.LastIndex.
  rewrite LastIndex_from_last_colon by (done || lia).
  assert (Hne : (0 + strings.len host =? -1) = false)
    by (apply Z.eqb_neq; unfold strings.len; lia).
  rewrite Hne. cbn [negb]. by rewrite slice_before_colon.
Qed.

Lemma clientIP_no_colon s :
  IdentSpec.has_colon s = false ->
  middleware.clientIP s
  = if strings.HasPrefix s "[" && strings.HasSuffix s "]"
    then strings.slice s 1 (strings.len s - 1) else s.
Proof.
  intros Hs. unfold middleware.clientIP, strings.LastIndex.
  by rewrite LastIndex_from_no_colon.
Qed.

Lemma bracket_test_false s :
  ~ IdentSpec.bracketed s -> strings.HasPrefix s "[" && strings.HasSuffix s "]" = false.
Proof.
  intros Hn. destruct (strings.HasPrefix s "[" && strings.HasSuffix s "]") eqn:H; [|done].
  by apply bracket_test_iff in H.
Qed.

Lemma bracket_test_true x :
  strings.HasPrefix ("[" +:+ x +:+ "]") "[" && strings.HasSuffix ("[" +:+ x +:+ "]") "]" = true.
Proof. apply bracket_test_iff. by exists x. Qed.

(** C7, as the code has it.  The identifier is the remote address cut
    before its last [:], if it has one, and then rid of its two brackets
    if what is left starts with [[] and ends with []].  So [host:port]
    gives [host], and [[x]:port] gives [x]; an address with no [:] gives
    the whole string, unless it is of the form [[x]], which gives [x]; and
    a bracketed address with no port but colons inside, [[a:b]], is cut at
    its last colon and keeps its opening bracket: it gives [[a]. *)
Theorem clientIP_cuts_at_last_colon_then_unbrackets :
  (forall host port, IdentSpec.has_colon port = false -> ~ IdentSpec.bracketed host ->
     middleware.clientIP (host +:+ ":" +:+ port) = host)
  /\ (forall x port, IdentSpec.has_colon port = false ->
        middleware.clientIP (("[" +:+ x +:+ "]") +:+ ":" +:+ port) = x)
  /\ (forall s, IdentSpec.has_colon s = false -> ~ IdentSpec.bracketed s ->
        middleware.clientIP s = s)
  /\ (forall x, IdentSpec.has_colon x = false -> middleware.clientIP ("[" +:+ x +:+ "]") = x)
  /\ (forall a b, IdentSpec.has_colon b = false -> ~ IdentSpec.bracketed ("[" +:+ a) ->
        middleware.clientIP ("[" +:+ a +:+ ":" +:+ b +:+ "]") = "[" +:+ a).
Proof.
  split; [|split; [|split; [|split]]].
  - intros host port Hport Hhost. rewrite clientIP_host_port by done.
    by rewrite bracket_test_false.
  - intros x port Hport. rewrite clientIP_host_port by done.
    rewrite bracket_test_true. apply slice_brackets.
  - intros s Hs Hn. rewrite clientIP_no_colon by done. by rewrite bracket_test_false.
  - intros x Hx. rewrite clientIP_no_colon.
    + rewrite bracket_test_true. apply slice_brackets.
    + change ("[" +:+ x +:+ "]") with (String "[" (x +:+ "]")).
      cbn [IdentSpec.has_colon]. rewrite has_colon_app, Hx. done.
  - intros a b Hb Ha.
    change ("[" +:+ a +:+ ":" +:+ b +:+ "]") with (("[" +:+ a) +:+ ":" +:+ (b +:+ "]")).
    rewrite clientIP_host_port by (by rewrite has_colon_app, Hb).
    by rewrite bracket_test_false.
Qed.

Lemma not_bracketed_without_closing (s : string) :
  strings.HasSuffix s "]" = false -> ~ IdentSpec.bracketed s.
Proof.
  intros Hs Hb. apply bracket_test_iff in Hb. apply andb_true_iff in Hb as [_ Hb]. congruence.
Qed.

Lemma clientIP_cuts_at_last_colon_then_unbrackets_witness :
  middleware.clientIP ("192.168.1.7" +:+ ":" +:+ "54321") = "192.168.1.7"
  /\ middleware.clientIP (("[" +:+ "::1" +:+ "]") +:+ ":" +:+ "54321") = "::1"
  /\ middleware.clientIP "localhost" = "localhost"
  /\ middleware.clientIP ("[" +:+ "abc" +:+ "]") = "abc"
  /\ middleware.clientIP ("[" +:+ "fe80:" +:+ ":" +:+ "1" +:+ "]") = "[" +:+ "fe80:".
Proof.
  destruct clientIP_cuts_at_last_colon_then_unbrackets as (H1 & H2 & H3 & H4 & H5).
  split; [|split; [|split; [|split]]].
  - apply H1; [reflexivity|]. apply not_bracketed_without_closing. reflexivity.
  - apply H2. reflexivity.
  - apply H3; [reflexivity|]. apply not_bracketed_without_closing. reflexivity.
  - apply H4. reflexivity.
  - apply H5; [reflexivity|]. apply not_bracketed_without_closing. reflexivity.
Defined.

(** C7 as stated fails: the bracketed loopback address without a port
    does not come back unchanged. *)
Lemma clientIP_bracketed_without_port_counterexample :
  middleware.clientIP "[::1]" = "[:" /\ middleware.clientIP "[::1]" <> "[::1]".
Proof. split; [reflexivity|]. vm_compute. discriminate. Qed.

(** * Failure responses *)

Lemma RespondWithError_writes w code message :
  http.status w = None ->
  let w' := fst (httputil.RespondWithError w code message) in
  http.status w' = Some code
  /\ http.header w' !! "Content-Type" = Some ReplySpec.json_content_type
  /\ http.body w'
     = http.body w +:+ httputil.Marshal {| httputil.Code := code; httputil.Message := message |}
       +:+ http.newline.
Proof.
  intros Hw. unfold httputil.RespondWithError, httputil.Encode, http.Write, http.WriteHeader,
    http.Header_Set. cbn [fst]. rewrite Hw. cbn [http.status http.header http.body].
  split; [done|]. split; [|done]. by rewrite lookup_insert_eq.
Qed.

Lemma Marshal_bad_gateway :
  httputil.Marshal {| httputil.Code := http.StatusBadGateway;
                      httputil.Message := "Bad Gateway: Error connecting to backend" |}
  = ReplySpec.bad_gateway.
Proof. vm_compute. reflexivity. Qed.

Lemma Marshal_service_unavailable :
  httputil.Marshal {| httputil.Code := http.StatusServiceUnavailable;
                      httputil.Message := "Service Unavailable: No backend servers available" |}
  = ReplySpec.service_unavailable.
Proof. vm_compute. reflexivity. Qed.

Lemma Error_writes w error code :
  http.status w = None ->
  let w' := http.Error w error code in
  http.status w' = Some code
  /\ http.header w' !! "Content-Type" = Some ["text/plain; charset=utf-8"]
  /\ http.body w' = http.body w +:+ error +:+ http.newline.
Proof.
  intros Hw. unfold http.Error, http.Write, http.WriteHeader, http.Header_Set, http.Header_Del.
  rewrite Hw. cbn [http.status http.header http.body].
  split; [done|]. split; [|done].
  rewrite lookup_insert_ne by done. by rewrite lookup_insert_eq.
Qed.

(** C4, where the code departs from it.  The error handler of a Backend
    marks the Backend down when the retry count of the request is below 1
    and leaves the pool alone otherwise, and in every case answers 502;
    but the answer is the plain text of [http.Error], not the JSON error
    body that [RespondWithError] writes on the other failure paths: its
    [Content-Type] is [text/plain; charset=utf-8] and its body is the bare
    message. *)
Theorem ErrorHandler_replies_502_in_plain_text
    (i : nat) (url e : string) (r : http.Request) (s : ServerPool.t) :
  let '(w, s', _) := ServerPool.ErrorHandler i url e http.NewRecorder r s in
  http.status w = Some 502
  /\ http.header w !! "Content-Type" = Some ["text/plain; charset=utf-8"]
  /\ http.header w !! "Content-Type" <> Some ReplySpec.json_content_type
  /\ http.body w = "Bad Gateway: Error connecting to backend" +:+ http.newline
  /\ http.body w <> ReplySpec.bad_gateway +:+ http.newline
  /\ http.body w <> ReplySpec.bad_gateway
  /\ s' = (if ServerPool.GetRetryFromContext r <? 1 then ServerPool.SetAlive i false s else s).
Proof.
  unfold ServerPool.ErrorHandler.
  destruct (ServerPool.GetRetryFromContext r <? 1);
    (split; [reflexivity|]; split; [reflexivity|]; split; [vm_compute; congruence|];
     split; [reflexivity|]; split; [vm_compute; congruence|];
     split; [vm_compute; congruence|reflexivity]).
Qed.

(** * The dispatcher *)

Section DispatcherTheory.

Variable interference : Z -> ServerPool.t -> ServerPool.t.
Variable RoundTrip : nat -> http.Request -> (http.ResponseWriter -> http.ResponseWriter) + string.

(** The selection loop with fuel for the attempts that are left: it ends,
    having slept 10 ms after each failed attempt; it ends without a peer
    only when the attempts are used up, and with a peer only on an attempt
    that found it alive. *)
Lemma selectPeer_ends fuel r : forall (a n : Z) (s : ServerPool.t),
  0 <= a -> n - a <= Z.of_nat fuel ->
  exists sel,
    Dispatcher.selectPeer interference fuel r a n s = Some sel
    /\ a <= Dispatcher.sel_attempts sel
    /\ ReplySpec.sleeps (Dispatcher.sel_trace sel)
       = repeat (10 * Time.Millisecond) (Z.to_nat (Dispatcher.sel_attempts sel - a))
    /\ match Dispatcher.sel_peer sel with
       | None =>
           Dispatcher.sel_attempts sel = Z.max a n
           /\ ReplySpec.calls "GetNextPeer" (Dispatcher.sel_trace sel)
              = Z.to_nat (Dispatcher.sel_attempts sel - a)
       | Some p =>
           Dispatcher.sel_attempts sel < n
           /\ ReplySpec.calls "GetNextPeer" (Dispatcher.sel_trace sel)
              = S (Z.to_nat (Dispatcher.sel_attempts sel - a))
           /\ ServerPool.current (Dispatcher.sel_pool sel) = Z.of_nat p
           /\ PeerSpec.alive_at (ServerPool.backends (Dispatcher.sel_pool sel)) (Z.of_nat p) = true
       end.
Proof.
  induction fuel as [|fuel IH]; intros a n s Ha Hfuel.
  - cbn [Dispatcher.selectPeer]. destruct (a <? n) eqn:Hlt; [lia|].
    eexists. split; [done|]. simpl. rewrite Z.sub_diag. repeat split; lia.
  - cbn [Dispatcher.selectPeer]. destruct (a <? n) eqn:Hlt.
    + pose proof (GetNextPeer_result s) as Hres.
      destruct (ServerPool.GetNextPeer s) as [[p|] s1].
      * destruct Hres as (-> & Hp & Halive).
        eexists. split; [done|]. simpl. rewrite Z.sub_diag. repeat split; try lia. done.
      * subst s1. destruct (IH (a + 1) n (interference a s)) as (sel & -> & Hle & Hsl & Hpeer); [lia..|].
        eexists. split; [done|]. cbn [Dispatcher.sel_attempts Dispatcher.sel_trace
          Dispatcher.sel_peer Dispatcher.sel_pool ReplySpec.sleeps ReplySpec.calls].
        split; [lia|]. rewrite Hsl.
        replace (Z.to_nat (Dispatcher.sel_attempts sel - a))
          with (S (Z.to_nat (Dispatcher.sel_attempts sel - (a + 1)))) by lia.
        split; [done|].
        change (String.eqb "GetNextPeer" "GetNextPeer") with true.
        destruct (Dispatcher.sel_peer sel) as [p|].
        -- destruct Hpeer as (? & -> & ? & ?). done.
        -- destruct Hpeer as (? & ->). split; [lia|done].
    + eexists. split; [done|]. simpl. rewrite Z.sub_diag. repeat split; lia.
Qed.

(** The selection loop calls [GetNextPeer] attempt after attempt and
    stops at the first call that returns a peer, with that peer, the
    number of the attempt and the pool the call leaves; it ends without a
    peer only after every attempt's call has returned none. *)
Lemma selectPeer_attempts fuel r : forall (a n : Z) (s : ServerPool.t),
  0 <= a -> n - a <= Z.of_nat fuel ->
  exists sel,
    Dispatcher.selectPeer interference fuel r a n s = Some sel
    /\ a <= Dispatcher.sel_attempts sel
    /\ (forall j, (j < Z.to_nat (Dispatcher.sel_attempts sel - a))%nat ->
          fst (ServerPool.GetNextPeer (PeerSpec.pool_at interference a j s)) = None)
    /\ match Dispatcher.sel_peer sel with
       | None =>
           Dispatcher.sel_pool sel
           = PeerSpec.pool_at interference a (Z.to_nat (Dispatcher.sel_attempts sel - a)) s
       | Some p =>
           ServerPool.GetNextPeer
             (PeerSpec.pool_at interference a (Z.to_nat (Dispatcher.sel_attempts sel - a)) s)
           = (Some p, Dispatcher.sel_pool sel)
       end.
Proof.
  induction fuel as [|fuel IH]; intros a n s Ha Hfuel.
  - cbn [Dispatcher.selectPeer]. destruct (a <? n) eqn:Hlt; [lia|].
    eexists. split; [done|]. simpl. rewrite Z.sub_diag.
    split; [lia|]. split; [intros j Hj; simpl in Hj; lia|done].
  - cbn [Dispatcher.selectPeer]. destruct (a <? n) eqn:Hlt.
    + destruct (ServerPool.GetNextPeer s) as [[p|] s1] eqn:Hnext.
      * eexists. split; [done|]. simpl. rewrite Z.sub_diag.
        split; [lia|]. split; [intros j Hj; simpl in Hj; lia|done].
      * destruct (IH (a + 1) n (interference a s1)) as (sel & -> & Hle & Hnone & Hpeer); [lia..|].
        eexists. split; [done|].
        cbn [Dispatcher.sel_attempts Dispatcher.sel_peer Dispatcher.sel_pool].
        split; [lia|].
        replace (Z.to_nat (Dispatcher.sel_attempts sel - a))
          with (S (Z.to_nat (Dispatcher.sel_attempts sel - (a + 1)))) by lia.
        split.
        -- intros [|j] Hj; cbn [PeerSpec.pool_at]; [by rewrite Hnext|].
           rewrite Hnext. cbn [snd]. apply Hnone. lia.
        -- cbn [PeerSpec.pool_at]. rewrite Hnext. cbn [snd]. exact Hpeer.
    + eexists. split; [done|]. simpl. rewrite Z.sub_diag.
      split; [lia|]. split; [intros j Hj; simpl in Hj; lia|done].
Qed.

(** C5.  A request comes to the handler of a pool that has Backends, with
    nothing yet written to the client.  The selection loop ends after at
    most [maxAttempts = len(pool)] calls of [GetNextPeer], having slept
    10 ms after each call that found no peer; every call before the one
    it stops at returned no peer, and it ends without a peer exactly when
    each of the [maxAttempts] calls returned none.  In that case there
    were [maxAttempts] of them and the handler answers 503 with the JSON
    error body of the spec (and its closing newline) under
    [Content-Type: application/json; charset=utf-8].  Otherwise the peer
    is the one that the first successful call of [GetNextPeer] returned,
    a Backend alive in the pool at that moment, and the handler hands the
    request, with [retryCount] set to the number of failed attempts, to
    the proxy of that peer over the pool that call left; the reply is the
    proxy's. *)
Theorem dispatcher_bounded_selection_then_503_or_handoff
    (w : http.ResponseWriter) (r : http.Request) (s : ServerPool.t) :
  ServerPool.backends s <> [] ->
  http.status w = None ->
  let maxAttempts := length (ServerPool.backends s) in
  exists sel,
    Dispatcher.selectPeer interference maxAttempts r 0 (Z.of_nat maxAttempts) s = Some sel
    /\ (ReplySpec.calls "GetNextPeer" (Dispatcher.sel_trace sel) <= maxAttempts)%nat
    /\ ReplySpec.sleeps (Dispatcher.sel_trace sel)
       = repeat (10 * Time.Millisecond) (Z.to_nat (Dispatcher.sel_attempts sel))
    /\ (forall j, (j < Z.to_nat (Dispatcher.sel_attempts sel))%nat ->
          fst (PeerSpec.attempt interference j s) = None)
    /\ (Dispatcher.sel_peer sel = None
        <-> forall j, (j < maxAttempts)%nat -> fst (PeerSpec.attempt interference j s) = None)
    /\ match Dispatcher.sel_peer sel with
       | None =>
           ReplySpec.calls "GetNextPeer" (Dispatcher.sel_trace sel) = maxAttempts
           /\ Dispatcher.sel_attempts sel = Z.of_nat maxAttempts
           /\ Dispatcher.sel_pool sel = PeerSpec.pool_at interference 0 maxAttempts s
           /\ exists w' evs,
                Dispatcher.NewLoadBalancerHandler interference RoundTrip (Some s) w r
                  = Some (w', Some (Dispatcher.sel_pool sel), evs)
                /\ http.status w' = Some 503
                /\ http.header w' !! "Content-Type" = Some ReplySpec.json_content_type
                /\ http.body w'
                   = http.body w +:+ ReplySpec.service_unavailable +:+ http.newline
       | Some p =>
           let attempts := Dispatcher.sel_attempts sel in
           let r' := http.WithRetry attempts r in
           let out := Dispatcher.ReverseProxy_ServeHTTP RoundTrip p w r' (Dispatcher.sel_pool sel) in
           0 <= attempts < Z.of_nat maxAttempts
           /\ ReplySpec.calls "GetNextPeer" (Dispatcher.sel_trace sel) = S (Z.to_nat attempts)
           /\ PeerSpec.attempt interference (Z.to_nat attempts) s
              = (Some p, Dispatcher.sel_pool sel)
           /\ ServerPool.GetRetryFromContext r' = attempts
           /\ PeerSpec.alive_at (ServerPool.backends (Dispatcher.sel_pool sel)) (Z.of_nat p) = true
           /\ exists evs,
                Dispatcher.NewLoadBalancerHandler interference RoundTrip (Some s) w r
                  = Some (fst (fst out), Some (snd (fst out)), evs)
       end.
Proof.
  intros Hne Hw maxAttempts.
  destruct (selectPeer_ends maxAttempts r 0 (Z.of_nat maxAttempts) s)
    as (sel & Hsel & Hle & Hsl & Hpeer); [lia..|].
  destruct (selectPeer_attempts maxAttempts r 0 (Z.of_nat maxAttempts) s)
    as (sel' & Hsel' & _ & Hnone & Hfound); [lia..|].
  rewrite Hsel in Hsel'. injection Hsel' as <-.
  rewrite Z.sub_0_r in Hsl, Hpeer, Hnone, Hfound.
  fold (PeerSpec.attempt interference (Z.to_nat (Dispatcher.sel_attempts sel)) s) in Hfound.
  assert (Hlen : (length (ServerPool.GetBackends s) =? 0)%nat = false).
  { apply Nat.eqb_neq. unfold ServerPool.GetBackends. by destruct (ServerPool.backends s). }
  exists sel. split; [done|].
  unfold Dispatcher.NewLoadBalancerHandler, Dispatcher.dispatch. rewrite Hlen.
  unfold ServerPool.GetBackends. fold maxAttempts. rewrite Hsel.
  destruct (Dispatcher.sel_peer sel) as [p|].
  - destruct Hpeer as (Hlt & Hcalls & Hcur & Halive).
    split; [lia|]. split; [done|]. split; [exact Hnone|].
    split.
    { split; [done|]. intros Hall.
      assert (Hlast : (Z.to_nat (Dispatcher.sel_attempts sel) < maxAttempts)%nat) by lia.
      apply Hall in Hlast. by rewrite Hfound in Hlast. }
    cbv zeta.
    split; [lia|]. split; [done|]. split; [done|]. split; [done|]. split; [done|].
    destruct (Dispatcher.ReverseProxy_ServeHTTP _ _ _ _ _) as [[w1 s1] evs1]. eauto.
  - destruct Hpeer as (Hatt & Hcalls).
    rewrite Z.max_r in Hatt by lia.
    rewrite Hatt, Nat2Z.id in Hcalls, Hnone, Hfound.
    split; [lia|]. split; [done|]. split; [by rewrite Hatt, Nat2Z.id|].
    split; [done|]. split; [done|]. split; [done|]. split; [done|].
    pose proof (RespondWithError_writes w http.StatusServiceUnavailable
                  "Service Unavailable: No backend servers available" Hw) as Hresp.
    destruct (httputil.RespondWithError _ _ _) as [w1 evs1]. cbn [fst] in Hresp.
    destruct Hresp as (Hst & Hct & Hbody). rewrite Marshal_service_unavailable in Hbody.
    eauto 10.
Qed.

End DispatcherTheory.

(** Two requests against three Backends that are all down.  With nothing
    else going on, each of the three attempts of the first finds no peer,
    and it is answered 503.  During the second, the health checker brings
    one Backend up while the handler sleeps after its first attempt; the
    second attempt finds it, and the request goes to its proxy with retry
    count 1. *)
Lemma dispatcher_bounded_selection_then_503_or_handoff_witness :
  (exists sel w' evs,
     Dispatcher.selectPeer Sample.quiet 3 Sample.get_root 0 3 Sample.pool_all_dead = Some sel
     /\ Dispatcher.sel_peer sel = None
     /\ ReplySpec.calls "GetNextPeer" (Dispatcher.sel_trace sel) = 3%nat
     /\ ReplySpec.sleeps (Dispatcher.sel_trace sel) = [10000000; 10000000; 10000000]
     /\ (forall j, (j < 3)%nat -> fst (PeerSpec.attempt Sample.quiet j Sample.pool_all_dead) = None)
     /\ Dispatcher.NewLoadBalancerHandler Sample.quiet Sample.unreachable
          (Some Sample.pool_all_dead) http.NewRecorder Sample.get_root
        = Some (w', Some (Dispatcher.sel_pool sel), evs)
     /\ http.status w' = Some 503
     /\ http.body w' = ReplySpec.service_unavailable +:+ http.newline)
  /\ (exists sel,
        Dispatcher.selectPeer Sample.second_comes_up 3 Sample.get_root 0 3 Sample.pool_all_dead
          = Some sel
        /\ Dispatcher.sel_peer sel = Some 1%nat
        /\ ReplySpec.calls "GetNextPeer" (Dispatcher.sel_trace sel) = 2%nat
        /\ ReplySpec.sleeps (Dispatcher.sel_trace sel) = [10000000]
        /\ fst (PeerSpec.attempt Sample.second_comes_up 0 Sample.pool_all_dead) = None
        /\ PeerSpec.attempt Sample.second_comes_up 1 Sample.pool_all_dead
           = (Some 1%nat, Dispatcher.sel_pool sel)
        /\ ServerPool.GetRetryFromContext (http.WithRetry (Dispatcher.sel_attempts sel) Sample.get_root)
           = 1).
Proof.
  split.
  - destruct (dispatcher_bounded_selection_then_503_or_handoff Sample.quiet Sample.unreachable
                http.NewRecorder Sample.get_root Sample.pool_all_dead)
      as (sel & Hsel & _ & Hsl & Hbefore & _ & Hpeer); [discriminate|reflexivity|].
    pose proof Hsel as Hsel'. vm_compute in Hsel'. injection Hsel' as <-.
    cbn [Dispatcher.sel_peer] in Hpeer.
    destruct Hpeer as (Hcalls & _ & _ & w' & evs & Hh & Hst & _ & Hbody).
    eexists _, w', evs. split; [exact Hsel|]. split; [reflexivity|]. split; [exact Hcalls|].
    split; [exact Hsl|]. split; [exact Hbefore|]. split; [exact Hh|].
    split; [exact Hst|exact Hbody].
  - destruct (dispatcher_bounded_selection_then_503_or_handoff Sample.second_comes_up
                Sample.unreachable http.NewRecorder Sample.get_root Sample.pool_all_dead)
      as (sel & Hsel & _ & Hsl & Hbefore & _ & Hpeer); [discriminate|reflexivity|].
    pose proof Hsel as Hsel'. vm_compute in Hsel'. injection Hsel' as <-.
    cbn [Dispatcher.sel_peer] in Hpeer. cbv zeta in Hpeer.
    destruct Hpeer as (_ & Hcalls & Hfound & Hretry & _).
    eexists. split; [exact Hsel|]. split; [reflexivity|]. split; [exact Hcalls|].
    split; [exact Hsl|]. split; [exact (Hbefore 0%nat (le_n 1))|].
    split; [exact Hfound|exact Hretry].
Defined.

(** * Runs of takes *)

Section BucketRuns.
Context `{arch : Float64.GoArch}.

Lemma refill_earning_nothing now b :
  0 <= Bucket.tokens b <= Bucket.capacity b -> Bucket.capacity b <= Int64.max_int ->
  BucketSpec.under_one_token (Bucket.refillRate b) (now - Bucket.lastRefill b) ->
  Bucket.refill now b = BucketSpec.stamped now b.
Proof.
  intros Hle Hcap (Hel & Hshort). pose proof (Time_Sub_diff _ _ Hel) as Hsub.
  destruct (Z.eq_dec (now - Bucket.lastRefill b) 0) as [H0|Hne].
  - rewrite refill_idle by lia. replace now with (Bucket.lastRefill b) by lia. by destruct b.
  - destruct Hshort as [H0|Hfloor]; [done|].
    assert (Hadd : Bucket.tokensToAdd (now - Bucket.lastRefill b) (Bucket.refillRate b) = 0).
    { by apply tokensToAdd_floor. }
    rewrite refill_adds; rewrite Hsub, ?Hadd; [|lia|].
    + unfold BucketSpec.stamped. f_equal. lia.
    + unfold Int64.in_range, Int64.min_int, Int64.max_int in *. lia.
Qed.

Lemma AllowSeq_earning_nothing times : forall (b : Bucket.t) (j : nat),
  0 <= Bucket.tokens b <= Bucket.capacity b -> Bucket.capacity b <= Int64.max_int ->
  Forall (BucketSpec.under_one_token (Bucket.refillRate b))
         (BucketSpec.gaps (Bucket.lastRefill b) (map fst times)) ->
  fst (Bucket.AllowSeq times b)
  = map (fun k => Z.of_nat k <? Bucket.tokens b + Z.of_nat j) (seq j (length times)).
Proof.
  induction times as [|[now now'] times IH]; intros b j Hle Hcap Hgaps; [done|].
  cbn [map fst BucketSpec.gaps] in Hgaps. apply Forall_cons in Hgaps as [Hgap Hgaps].
  cbn [Bucket.AllowSeq length seq map]. unfold Bucket.Allow.
  rewrite refill_earning_nothing by done. cbn [BucketSpec.stamped Bucket.tokens Bucket.capacity
    Bucket.refillRate Bucket.lastRefill Bucket.lastAccess].
  assert (Hsub : Int64.sub (Bucket.tokens b) 1 = Bucket.tokens b - 1).
  { unfold Int64.sub. apply Int64_wrap_small.
    unfold Int64.in_range, Int64.min_int, Int64.max_int in *. lia. }
  destruct (1 <=? Bucket.tokens b) eqn:H1.
  - set (b1 := Bucket.mk _ _ _ _ _).
    specialize (IH b1 (S j)). destruct (Bucket.AllowSeq times b1) as [oks b2]. cbn [fst] in *.
    f_equal; [lia|]. rewrite IH.
    + subst b1. cbn [Bucket.tokens]. rewrite Hsub. apply map_ext. intros k. f_equal. lia.
    + subst b1. cbn [Bucket.tokens Bucket.capacity]. lia.
    + done.
    + done.
  - specialize (IH (BucketSpec.stamped now b) (S j) Hle Hcap Hgaps).
    fold (BucketSpec.stamped now b).
    destruct (Bucket.AllowSeq times (BucketSpec.stamped now b)) as [oks b2]. cbn [fst] in *.
    f_equal; [lia|]. rewrite IH. cbn [BucketSpec.stamped Bucket.tokens].
    apply map_ext_in. intros k Hk. apply in_seq in Hk.
    transitivity false; [apply Z.ltb_ge; lia|symmetry; apply Z.ltb_ge; lia].
Qed.

(** X1.  A Bucket just made by [NewBucket] is called again and again, each
    call after a wait too short to earn a token (the refill computes
    zero tokens for it, or in exact arithmetic it earns at most
    [1 - 2^-40] of one).  Then the first [capacity] calls are allowed and
    every later call is refused: of [N] such calls, [min(N, capacity)]
    succeed. *)
Theorem fresh_bucket_allows_capacity_calls_then_none
    (now : Time.t) (capacity : Z) (rate : Float64.t) (b : Bucket.t)
    (times : list (Time.t * Time.t)) :
  Bucket.NewBucket now capacity rate = Some b ->
  capacity <= Int64.max_int ->
  Forall (BucketSpec.earns_nothing rate) (BucketSpec.gaps now (map fst times)) ->
  fst (Bucket.AllowSeq times b)
    = map (fun k => Z.of_nat k <? capacity) (seq 0 (length times))
  /\ BucketSpec.successes (fst (Bucket.AllowSeq times b))
     = Z.min (Z.of_nat (length times)) capacity.
Proof.
  intros Hnew Hmax Hgaps.
  assert (Hb : b = BucketSpec.fresh now capacity rate /\ 0 < capacity).
  { unfold Bucket.NewBucket in Hnew. destruct (capacity <=? 0) eqn:Hc; [done|].
    destruct (Float64.leb rate Float64.zero); [done|]. injection Hnew as <-. split; [done|lia]. }
  destruct Hb as [-> Hpos].
  assert (Hrun : fst (Bucket.AllowSeq times (BucketSpec.fresh now capacity rate))
                 = map (fun k => Z.of_nat k <? capacity) (seq 0 (length times))).
  { rewrite (AllowSeq_earning_nothing times _ 0%nat); cbn [BucketSpec.fresh Bucket.tokens
      Bucket.capacity Bucket.refillRate Bucket.lastRefill]; [|lia|done|].
    - apply map_ext. intros k. f_equal. lia.
    - eapply Forall_impl; [exact Hgaps|]. intros d [Hd|Hd]; [done|].
      by apply well_under_one_token_under. }
  split; [done|]. rewrite Hrun, successes_below. lia.
Qed.

Lemma Allow_lastAccess now now' b :
  Bucket.lastAccess (snd (Bucket.Allow now now' b))
  = if fst (Bucket.Allow now now' b) then now' else Bucket.lastAccess b.
Proof.
  unfold Bucket.Allow, Bucket.refill.
  destruct (_ <=? 0); simpl; by destruct (1 <=? _).
Qed.

(** X2.  Through any run of [Allow] calls the capacity and the refill rate
    of a Bucket stay as they were, and [lastAccess] is the second clock
    reading of the last call that was allowed, or still its old value
    when none was: a refused call never touches [lastAccess]. *)
Theorem AllowSeq_lastAccess_is_last_allowed (times : list (Time.t * Time.t)) :
  forall b : Bucket.t,
    let '(results, b') := Bucket.AllowSeq times b in
    Bucket.capacity b' = Bucket.capacity b
    /\ Bucket.refillRate b' = Bucket.refillRate b
    /\ Bucket.lastAccess b' = BucketSpec.lastAllowed times results (Bucket.lastAccess b).
Proof.
  induction times as [|[now now'] times IH]; intros b; [done|].
  cbn [Bucket.AllowSeq].
  pose proof (Allow_keeps_parameters now now' b) as [Hc Hr].
  pose proof (Allow_lastAccess now now' b) as Ha.
  destruct (Bucket.Allow now now' b) as [ok b1]. cbn [fst snd] in *.
  specialize (IH b1). destruct (Bucket.AllowSeq times b1) as [oks b2].
  destruct IH as (IHc & IHr & IHa). cbn [BucketSpec.lastAllowed].
  rewrite IHc, IHr, IHa, Hc, Hr, Ha. done.
Qed.

Lemma gaps_take k : forall last times,
  BucketSpec.gaps last (take k times) = take k (BucketSpec.gaps last times).
Proof.
  induction k as [|k IH]; intros last [|t times]; simpl; try done. by rewrite IH.
Qed.

(** X3.  A Bucket with [0 <= tokens <= capacity] keeps it after every
    call of any run of [Allow] calls in which, for each wait, capacity
    plus the tokens the wait earns in exact arithmetic (a relative
    [2^-49] and [2^-47] added for rounding) is at most [2^63 - 1]. *)
Theorem tokens_in_range_after_every_call (times : list (Time.t * Time.t)) (b : Bucket.t) (k : nat) :
  BucketSpec.tokens_in_range b ->
  Forall (BucketSpec.within_int64 (Bucket.capacity b) (Bucket.refillRate b))
         (BucketSpec.gaps (Bucket.lastRefill b) (map fst times)) ->
  BucketSpec.tokens_in_range (snd (Bucket.AllowSeq (take k times) b)).
Proof.
  intros Hinv Hgaps. apply AllowSeq_within_int64; [done|].
  rewrite <- firstn_map, gaps_take. by apply Forall_take.
Qed.

Lemma Time_Sub_not_after now last : now <= last -> Time.Sub now last <= 0.
Proof.
  intros Hle. unfold Time.Sub.
  destruct (last <? now) eqn:H1; [lia|]. rewrite andb_false_r.
  destruct (0 <? Int64.sub now last) eqn:H2; simpl.
  - destruct (now <? last) eqn:H3; [by vm_compute|].
    assert (now = last) by lia. subst. unfold Int64.sub in H2. rewrite Z.sub_diag in H2. done.
  - lia.
Qed.

(** X4.  When the clock reading of a take is not later than [lastRefill],
    the refill changes nothing, [lastRefill] included, even where the
    [int64] difference of the two readings overflows; the take then
    succeeds exactly when a token was there already. *)
Theorem refill_needs_the_clock_to_advance (now now' : Time.t) (b : Bucket.t) :
  now <= Bucket.lastRefill b ->
  Bucket.refill now b = b
  /\ fst (Bucket.Allow now now' b) = (1 <=? Bucket.tokens b).
Proof.
  intros Hle. pose proof (Time_Sub_not_after _ _ Hle) as Hsub.
  split; [by apply refill_idle|]. unfold Bucket.Allow. rewrite refill_idle by done.
  by destruct (1 <=? Bucket.tokens b).
Qed.

End BucketRuns.

(** * The store and the limiter *)

Lemma chooseLimits_valid clientID s :
  BucketSpec.valid_defaults s ->
  let '(capacity, rate, isCustom, evs) := BucketStore.chooseLimits clientID s in
  0 < capacity /\ Float64.leb rate Float64.zero = false /\ existsb is_error evs = false.
Proof.
  intros [Hc Hr]. unfold BucketStore.chooseLimits.
  destruct (BucketStore.limitProvider s) as [provider|]; [|done].
  destruct (provider clientID) as [[customCapacity customRate] found].
  destruct found; [|done].
  destruct (0 <? customCapacity) eqn:H1; simpl; [|done].
  destruct (Float64.gtb customRate Float64.zero) eqn:H2; [|done].
  split; [lia|]. split; [by apply Float64_gtb_not_leb|done].
Qed.

Lemma createBucket_fresh now clientID s :
  BucketSpec.valid_defaults s ->
  let '(capacity, rate, isCustom, evs0) := BucketStore.chooseLimits clientID s in
  exists evs,
    BucketStore.createBucket now clientID s
    = (Some (BucketSpec.fresh now capacity rate),
       {| BucketStore.buckets := <[clientID := BucketSpec.fresh now capacity rate]> (BucketStore.buckets s);
          BucketStore.defaultCapacity := BucketStore.defaultCapacity s;
          BucketStore.defaultRefillRate := BucketStore.defaultRefillRate s;
          BucketStore.limitProvider := BucketStore.limitProvider s |},
       evs)
    /\ existsb is_error evs = false
    /\ 0 < capacity /\ Float64.leb rate Float64.zero = false.
Proof.
  intros Hv. pose proof (chooseLimits_valid clientID s Hv) as Hch.
  unfold BucketStore.createBucket.
  destruct (BucketStore.chooseLimits clientID s) as [[[capacity rate] isCustom] evs0].
  destruct Hch as (Hc & Hr & He). rewrite NewBucket_fresh by done.
  eexists. split; [done|]. split; [|done].
  rewrite existsb_app, He. by destruct isCustom.
Qed.

(** X5.  On a store whose defaults are positive, as [NewBucketStore]
    requires, [GetOrCreateBucket] always returns a Bucket, whatever the
    provider answers: the Bucket is then the one stored under the client,
    the Buckets of other clients are as before, no [ERROR] line is logged,
    and defaults and provider are unchanged. *)
Theorem GetOrCreateBucket_never_fails (now : Time.t) (clientID : string) (s : BucketStore.t) :
  BucketSpec.valid_defaults s ->
  exists b s' evs,
    BucketStore.GetOrCreateBucket now clientID s = (Some b, s', evs)
    /\ BucketStore.buckets s' !! clientID = Some b
    /\ (forall id, id <> clientID -> BucketStore.buckets s' !! id = BucketStore.buckets s !! id)
    /\ existsb is_error evs = false
    /\ BucketSpec.valid_defaults s'
    /\ BucketStore.limitProvider s' = BucketStore.limitProvider s.
Proof.
  intros Hv. unfold BucketStore.GetOrCreateBucket.
  destruct (BucketStore.buckets s !! clientID) as [b|] eqn:Hb.
  - exists b, s, []. repeat split; try done; apply Hv.
  - pose proof (createBucket_fresh now clientID s Hv) as Hcr.
    destruct (BucketStore.chooseLimits clientID s) as [[[capacity rate] isCustom] evs0].
    destruct Hcr as (evs & -> & He & _).
    eexists _, _, _. split; [done|]. cbn [BucketStore.buckets BucketStore.limitProvider].
    split; [by rewrite lookup_insert_eq|]. split; [|done].
    intros id Hne. by rewrite lookup_insert_ne.
Qed.

(** X6.  Once a client has a Bucket, later look-ups return that very
    Bucket, change nothing and log nothing, whatever the provider answers
    by then: a limit changed in the provider does not reach a Bucket that
    already exists. *)
Theorem GetOrCreateBucket_keeps_the_limits_of_an_existing_bucket
    (now now' : Time.t) (clientID : string) (s : BucketStore.t)
    (provider' : option BucketStore.LimitProvider) :
  BucketSpec.valid_defaults s ->
  let '(b, s1, _) := BucketStore.GetOrCreateBucket now clientID s in
  b <> None
  /\ BucketStore.GetOrCreateBucket now' clientID (BucketSpec.withProvider provider' s1)
     = (b, BucketSpec.withProvider provider' s1, []).
Proof.
  intros Hv.
  destruct (GetOrCreateBucket_never_fails now clientID s Hv) as (b & s1 & evs & -> & Hb & _).
  split; [done|]. unfold BucketStore.GetOrCreateBucket, BucketSpec.withProvider.
  cbn [BucketStore.buckets]. by rewrite Hb.
Qed.

Section LimiterTheory.
Context `{arch : Float64.GoArch}.

(** X7.  [Limiter.Allow] for one client leaves the Bucket of every other
    client, the defaults, the provider and the cleanup interval as they
    were. *)
Theorem Limiter_Allow_touches_one_client (clk : Limiter.Clock) (clientID : string) (l : Limiter.t) :
  let '(_, l', _) := Limiter.Allow clk clientID l in
  (forall id, id <> clientID ->
     BucketStore.buckets (Limiter.store l') !! id = BucketStore.buckets (Limiter.store l) !! id)
  /\ BucketStore.defaultCapacity (Limiter.store l') = BucketStore.defaultCapacity (Limiter.store l)
  /\ BucketStore.defaultRefillRate (Limiter.store l') = BucketStore.defaultRefillRate (Limiter.store l)
  /\ BucketStore.limitProvider (Limiter.store l') = BucketStore.limitProvider (Limiter.store l)
  /\ Limiter.cleanupInterval l' = Limiter.cleanupInterval l.
Proof.
  unfold Limiter.Allow.
  assert (Hget : let '(_, s1, _) :=
                   BucketStore.GetOrCreateBucket (Limiter.atCreate clk) clientID (Limiter.store l) in
                 (forall id, id <> clientID ->
                    BucketStore.buckets s1 !! id = BucketStore.buckets (Limiter.store l) !! id)
                 /\ BucketStore.defaultCapacity s1 = BucketStore.defaultCapacity (Limiter.store l)
                 /\ BucketStore.defaultRefillRate s1 = BucketStore.defaultRefillRate (Limiter.store l)
                 /\ BucketStore.limitProvider s1 = BucketStore.limitProvider (Limiter.store l)).
  { unfold BucketStore.GetOrCreateBucket, BucketStore.createBucket.
    destruct (BucketStore.buckets (Limiter.store l) !! clientID); [done|].
    destruct (BucketStore.chooseLimits _ _) as [[[capacity rate] isCustom] evs0].
    destruct (Bucket.NewBucket _ _ _); [|done].
    cbn [BucketStore.buckets]. split; [|done]. intros id Hne. by rewrite lookup_insert_ne. }
  destruct (BucketStore.GetOrCreateBucket _ _ _) as [[bucket s1] evs].
  destruct Hget as (Hother & Hc & Hr & Hp).
  destruct bucket as [bucket|]; [|done].
  destruct (Bucket.Allow _ _ bucket) as [ok bucket1].
  cbn [Limiter.store Limiter.cleanupInterval BucketStore.buckets BucketStore.defaultCapacity
       BucketStore.defaultRefillRate BucketStore.limitProvider].
  split; [|done]. intros id Hne. rewrite lookup_insert_ne by done. by apply Hother.
Qed.

Lemma refill_full_within_int64 now b :
  Bucket.tokens b = Bucket.capacity b -> 0 <= Bucket.capacity b ->
  BucketSpec.within_int64 (Bucket.capacity b) (Bucket.refillRate b) (now - Bucket.lastRefill b) ->
  Bucket.tokens (Bucket.refill now b) = Bucket.capacity b
  /\ Bucket.lastRefill (Bucket.refill now b) = now
  /\ Bucket.capacity (Bucket.refill now b) = Bucket.capacity b
  /\ Bucket.refillRate (Bucket.refill now b) = Bucket.refillRate b
  /\ Bucket.lastAccess (Bucket.refill now b) = Bucket.lastAccess b
  /\ Bucket.capacity b <= Int64.max_int.
Proof.
  intros Hfull Hcap Hwait. pose proof Hwait as [Hel _].
  pose proof (Time_Sub_diff _ _ Hel) as Hsub.
  destruct (floor_tokens_within_int64 _ _ _ Hcap Hwait) as (added & Hfloor & Hadded0 & Hadded).
  unfold Int64.max_int in Hadded.
  assert (Hadd : Bucket.tokensToAdd (now - Bucket.lastRefill b) (Bucket.refillRate b) = added).
  { apply tokensToAdd_floor; [done|]. unfold Int64.in_range, Int64.min_int, Int64.max_int. lia. }
  destruct (Z.eq_dec (now - Bucket.lastRefill b) 0) as [H0|Hne].
  - rewrite refill_idle by lia. repeat split; try done; unfold Int64.max_int; lia.
  - rewrite refill_adds; rewrite Hsub, ?Hadd; cbn [Bucket.tokens Bucket.lastRefill Bucket.capacity
      Bucket.refillRate Bucket.lastAccess].
    + repeat split; try done; unfold Int64.max_int; lia.
    + lia.
    + unfold Int64.in_range, Int64.min_int, Int64.max_int. lia.
Qed.

Lemma Limiter_Allow_new_client
    (clk : Limiter.Clock) (clientID : string) (l : Limiter.t)
    (capacity : Z) (rate : Float64.t) (isCustom : bool) (evs0 : list Event) :
  BucketStore.buckets (Limiter.store l) !! clientID = None ->
  BucketSpec.valid_defaults (Limiter.store l) ->
  BucketStore.chooseLimits clientID (Limiter.store l) = (capacity, rate, isCustom, evs0) ->
  BucketSpec.within_int64 capacity rate (Limiter.atRefill clk - Limiter.atCreate clk) ->
  exists l' evs,
    Limiter.Allow clk clientID l = (true, l', evs)
    /\ BucketStore.buckets (Limiter.store l') !! clientID
       = Some {| Bucket.capacity := capacity; Bucket.tokens := capacity - 1;
                 Bucket.refillRate := rate;
                 Bucket.lastRefill := Limiter.atRefill clk;
                 Bucket.lastAccess := Limiter.atAccess clk |}.
Proof.
  intros Hnew Hv Hchoose Hwait. unfold Limiter.Allow, BucketStore.GetOrCreateBucket.
  rewrite Hnew. pose proof (createBucket_fresh (Limiter.atCreate clk) clientID _ Hv) as Hcr.
  rewrite Hchoose in Hcr. destruct Hcr as (evs & -> & _ & Hc & Hr).
  set (b := BucketSpec.fresh (Limiter.atCreate clk) capacity rate).
  destruct (refill_full_within_int64 (Limiter.atRefill clk) b) as (Ht & Hl & Hcp & Hrt & Hla & Hmax);
    [done|simpl; lia|done|].
  unfold Bucket.Allow. rewrite Ht, Hl, Hcp, Hrt. cbn [b BucketSpec.fresh Bucket.capacity].
  destruct (1 <=? capacity) eqn:H1; [|lia].
  eexists _, _. split; [done|]. cbn [Limiter.store BucketStore.buckets].
  rewrite lookup_insert_eq. f_equal. f_equal.
  unfold Int64.sub. apply Int64_wrap_small.
  cbn [b BucketSpec.fresh Bucket.capacity] in Hmax.
  unfold Int64.in_range, Int64.min_int, Int64.max_int in *. lia.
Qed.

Lemma Limiter_Allow_new_client_log (clk : Limiter.Clock) (clientID : string) (l : Limiter.t) :
  BucketStore.buckets (Limiter.store l) !! clientID = None ->
  BucketSpec.valid_defaults (Limiter.store l) ->
  existsb is_error (snd (Limiter.Allow clk clientID l)) = false.
Proof.
  intros Hnew Hv. unfold Limiter.Allow, BucketStore.GetOrCreateBucket. rewrite Hnew.
  pose proof (createBucket_fresh (Limiter.atCreate clk) clientID _ Hv) as Hcr.
  destruct (BucketStore.chooseLimits clientID (Limiter.store l)) as [[[capacity rate] isCustom] evs0].
  destruct Hcr as (evs & -> & He & _).
  by destruct (Bucket.Allow _ _ _).
Qed.

(** X8.  The first request of a client the store has no Bucket for is
    allowed: on a store with positive defaults, with the limits chosen
    for the client and the refill following the creation after a wait
    whose tokens stay within [int64], [Limiter.Allow] returns true, logs
    no [ERROR] line and stores for the client a Bucket with
    [capacity - 1] tokens, refilled and accessed at the readings of this
    call. *)
Theorem first_request_of_a_client_is_allowed
    (clk : Limiter.Clock) (clientID : string) (l : Limiter.t)
    (capacity : Z) (rate : Float64.t) (isCustom : bool) (evs0 : list Event) :
  BucketStore.buckets (Limiter.store l) !! clientID = None ->
  BucketSpec.valid_defaults (Limiter.store l) ->
  BucketStore.chooseLimits clientID (Limiter.store l) = (capacity, rate, isCustom, evs0) ->
  BucketSpec.within_int64 capacity rate (Limiter.atRefill clk - Limiter.atCreate clk) ->
  exists l' evs,
    Limiter.Allow clk clientID l = (true, l', evs)
    /\ BucketStore.buckets (Limiter.store l') !! clientID
       = Some {| Bucket.capacity := capacity; Bucket.tokens := capacity - 1;
                 Bucket.refillRate := rate;
                 Bucket.lastRefill := Limiter.atRefill clk;
                 Bucket.lastAccess := Limiter.atAccess clk |}
    /\ existsb is_error evs = false.
Proof.
  intros Hnew Hv Hchoose Hwait.
  destruct (Limiter_Allow_new_client clk clientID l capacity rate isCustom evs0
              Hnew Hv Hchoose Hwait) as (l' & evs & Hallow & Hbucket).
  pose proof (Limiter_Allow_new_client_log clk clientID l Hnew Hv) as Hlog.
  rewrite Hallow in Hlog. exists l', evs. by repeat split.
Qed.

End LimiterTheory.

(** * The cleanup of idle buckets *)

Lemma sweep_lookup clock thr entries : forall acc c id,
  fst (fst (Limiter.sweep clock thr entries acc c)) !! id
  = if existsb (fun e => String.eqb (fst e) id && Bucket.IsInactive (clock (fst e)) thr (snd e))
               entries
    then None else acc !! id.
Proof.
  induction entries as [|[k b] entries IH]; intros acc c id; [done|].
  cbn [Limiter.sweep existsb fst snd].
  destruct (Bucket.IsInactive (clock k) thr b) eqn:Hin.
  - specialize (IH (delete k acc) (Int64.add c 1) id).
    destruct (Limiter.sweep clock thr entries (delete k acc) (Int64.add c 1)) as [[m' c'] evs].
    cbn [fst] in *. rewrite IH. rewrite andb_true_r.
    destruct (String.eqb k id) eqn:Hk.
    + apply String.eqb_eq in Hk. subst k. cbn [orb].
      rewrite lookup_delete_eq. by destruct (existsb _ _).
    + apply String.eqb_neq in Hk. cbn [orb]. by rewrite lookup_delete_ne.
  - rewrite andb_false_r. cbn [orb]. apply IH.
Qed.

Lemma existsb_entry clock thr (m : gmap string Bucket.t) entries id :
  entries ≡ₚ map_to_list m ->
  existsb (fun e => String.eqb (fst e) id && Bucket.IsInactive (clock (fst e)) thr (snd e)) entries
  = match m !! id with
    | Some b => Bucket.IsInactive (clock id) thr b
    | None => false
    end.
Proof.
  intros Hperm.
  assert (Hin : forall k b, In (k, b) entries <-> m !! k = Some b).
  { intros k b. rewrite <- list_elem_of_In, Hperm. apply elem_of_map_to_list. }
  destruct (m !! id) as [b|] eqn:Hb.
  - destruct (Bucket.IsInactive (clock id) thr b) eqn:Hi.
    + apply existsb_exists. exists (id, b). split; [by apply Hin|].
      cbn [fst snd]. by rewrite String.eqb_refl, Hi.
    + apply not_true_is_false. intros (e & He & Ht)%existsb_exists.
      destruct e as [k b']. cbn [fst snd] in Ht. apply andb_true_iff in Ht as [Hk Hi'].
      apply String.eqb_eq in Hk. subst k. apply Hin in He. congruence.
  - apply not_true_is_false. intros (e & He & Ht)%existsb_exists.
    destruct e as [k b']. cbn [fst snd] in Ht. apply andb_true_iff in Ht as [Hk Hi'].
    apply String.eqb_eq in Hk. subst k. apply Hin in He. congruence.
Qed.

(** X9.  One tick of [runCleanup], whatever the order in which the map is
    ranged over: afterwards the store holds exactly the Buckets that were
    not inactive when examined, each unchanged; every Bucket found
    inactive is gone; defaults, provider and interval are unchanged. *)
Theorem cleanup_removes_exactly_the_inactive
    (clock : string -> Time.t) (entries : list (string * Bucket.t)) (l : Limiter.t) :
  entries ≡ₚ map_to_list (BucketStore.buckets (Limiter.store l)) ->
  let '(l', _, _) := Limiter.cleanup clock entries l in
  (forall id,
     BucketStore.buckets (Limiter.store l') !! id
     = match BucketStore.buckets (Limiter.store l) !! id with
       | Some b => if BucketSpec.inactive_at clock l id b then None else Some b
       | None => None
       end)
  /\ BucketStore.defaultCapacity (Limiter.store l') = BucketStore.defaultCapacity (Limiter.store l)
  /\ BucketStore.defaultRefillRate (Limiter.store l') = BucketStore.defaultRefillRate (Limiter.store l)
  /\ BucketStore.limitProvider (Limiter.store l') = BucketStore.limitProvider (Limiter.store l)
  /\ Limiter.cleanupInterval l' = Limiter.cleanupInterval l.
Proof.
  intros Hperm. unfold Limiter.cleanup.
  pose proof (sweep_lookup clock (Limiter.inactivityThreshold l) entries
                (BucketStore.buckets (Limiter.store l)) 0) as Hlook.
  destruct (Limiter.sweep _ _ _ _ _) as [[m' c'] evs]. cbn [fst] in Hlook.
  cbn [Limiter.store Limiter.cleanupInterval BucketStore.buckets BucketStore.defaultCapacity
       BucketStore.defaultRefillRate BucketStore.limitProvider].
  split; [|done]. intros id. rewrite Hlook, (existsb_entry _ _ _ _ _ Hperm).
  unfold BucketSpec.inactive_at. destruct (BucketStore.buckets (Limiter.store l) !! id) as [b|]; [|done].
  by destruct (Bucket.IsInactive _ _ _).
Qed.

Lemma sweep_count clock thr entries : forall (acc : gmap string Bucket.t) c,
  NoDup (entries.*1) ->
  (forall k b, (k, b) ∈ entries -> is_Some (acc !! k)) ->
  0 <= c -> c + Z.of_nat (size acc) <= Int64.max_int ->
  let '(m', c', _) := Limiter.sweep clock thr entries acc c in
  c' + Z.of_nat (size m') = c + Z.of_nat (size acc) /\ c <= c'.
Proof.
  induction entries as [|[k b] entries IH]; intros acc c Hnd Hin Hc Hmax; [done|].
  cbn [Limiter.sweep]. apply NoDup_cons in Hnd as [Hk Hnd].
  destruct (Bucket.IsInactive (clock k) thr b) eqn:Hi.
  - assert (Hsome : is_Some (acc !! k)) by (eapply Hin; left).
    pose proof (map_size_delete_Some k acc Hsome) as Hsz.
    assert (Hpos : (0 < size acc)%nat).
    { destruct (size acc) eqn:Hs; [|lia]. apply map_size_empty_inv in Hs. subst acc.
      rewrite lookup_empty in Hsome. by destruct Hsome. }
    assert (Hadd : Int64.add c 1 = c + 1).
    { unfold Int64.add. apply Int64_wrap_small.
      unfold Int64.in_range, Int64.min_int, Int64.max_int in *. lia. }
    specialize (IH (delete k acc) (Int64.add c 1) Hnd).
    destruct (Limiter.sweep clock thr entries (delete k acc) (Int64.add c 1)) as [[m' c'] evs].
    rewrite Hadd in IH. destruct IH as [IH1 IH2]; [|lia|lia|lia].
    intros k' b' Hk'. rewrite lookup_delete_ne.
    + eapply Hin. by right.
    + intros <-. apply Hk. apply list_elem_of_fmap. by exists (k, b').
  - specialize (IH acc c Hnd).
    destruct (Limiter.sweep clock thr entries acc c) as [[m' c'] evs].
    apply IH; [|done..]. intros k' b' Hk'. eapply Hin. by right.
Qed.

Lemma sweep_events clock thr entries : forall acc c,
  Forall (fun e => exists id, e = Printf "DEBUG: Cleaned up inactive bucket for client %s" [AStr id])
         (snd (Limiter.sweep clock thr entries acc c)).
Proof.
  induction entries as [|[k b] entries IH]; intros acc c; [by constructor|].
  cbn [Limiter.sweep]. destruct (Bucket.IsInactive (clock k) thr b).
  - specialize (IH (delete k acc) (Int64.add c 1)).
    destruct (Limiter.sweep clock thr entries (delete k acc) (Int64.add c 1)) as [[m' c'] evs].
    cbn [snd] in *. constructor; [by exists k|done].
  - apply IH.
Qed.

(** X10.  The count a tick of [runCleanup] logs is the number of Buckets
    it removed, the size of the map before minus its size after; and the
    [INFO] line with this count is logged exactly when the count is
    positive. *)
Theorem cleanup_counts_the_removed
    (clock : string -> Time.t) (entries : list (string * Bucket.t)) (l : Limiter.t) :
  entries ≡ₚ map_to_list (BucketStore.buckets (Limiter.store l)) ->
  Z.of_nat (size (BucketStore.buckets (Limiter.store l))) <= Int64.max_int ->
  let '(l', cleanedCount, evs) := Limiter.cleanup clock entries l in
  cleanedCount
  = Z.of_nat (size (BucketStore.buckets (Limiter.store l)))
    - Z.of_nat (size (BucketStore.buckets (Limiter.store l')))
  /\ (In (Printf "INFO: Limiter cleanup finished. Removed %d inactive buckets." [AInt cleanedCount])
         evs
      <-> 0 < cleanedCount).
Proof.
  intros Hperm Hmax. unfold Limiter.cleanup.
  pose proof (sweep_count clock (Limiter.inactivityThreshold l) entries
                (BucketStore.buckets (Limiter.store l)) 0) as Hcount.
  pose proof (sweep_events clock (Limiter.inactivityThreshold l) entries
                (BucketStore.buckets (Limiter.store l)) 0) as Hevs.
  destruct (Limiter.sweep _ _ _ _ _) as [[m' c'] evs]. cbn [snd] in Hevs.
  cbn [Limiter.store BucketStore.buckets].
  destruct Hcount as [Hcount Hle]; [| |done|lia|].
  - rewrite Hperm. apply NoDup_fst_map_to_list.
  - intros k b Hk. rewrite Hperm in Hk. apply elem_of_map_to_list in Hk. eauto.
  - split; [lia|]. split.
    + intros [Hhead|Htail]; [done|]. apply in_app_or in Htail as [Hsw|Hfin].
      * apply list_elem_of_In in Hsw. rewrite Forall_forall in Hevs.
        destruct (Hevs _ Hsw) as [id Hid]. done.
      * destruct (0 <? c') eqn:Hpos; [lia|done].
    + intros Hpos. right. apply in_or_app. right.
      destruct (0 <? c') eqn:Hp; [by left|lia].
Qed.

Lemma Int64_wrap_le_max z : Int64.wrap z <= Int64.max_int.
Proof.
  unfold Int64.wrap, Int64.max_int.
  pose proof (Z.mod_pos_bound (z + 2 ^ 63) (2 ^ 64) ltac:(lia)). lia.
Qed.

Section CleanupAndRequests.
Context `{arch : Float64.GoArch}.

(** X11.  A client whose request was just allowed keeps its Bucket through
    a tick of [runCleanup] that examines the Bucket no later than the
    inactivity threshold (twice the cleanup interval) after that
    access. *)
Theorem served_client_survives_cleanup
    (clk : Limiter.Clock) (clientID : string) (l l' : Limiter.t) (evs : list Event)
    (clock : string -> Time.t) (entries : list (string * Bucket.t)) :
  Limiter.Allow clk clientID l = (true, l', evs) ->
  entries ≡ₚ map_to_list (BucketStore.buckets (Limiter.store l')) ->
  0 <= clock clientID - Limiter.atAccess clk <= Limiter.inactivityThreshold l' ->
  let '(l'', _, _) := Limiter.cleanup clock entries l' in
  is_Some (BucketStore.buckets (Limiter.store l'') !! clientID)
  /\ BucketStore.buckets (Limiter.store l'') !! clientID
     = BucketStore.buckets (Limiter.store l') !! clientID.
Proof.
  intros Hallow Hperm Hrecent.
  assert (Hb : exists b, BucketStore.buckets (Limiter.store l') !! clientID = Some b
                         /\ Bucket.lastAccess b = Limiter.atAccess clk).
  { unfold Limiter.Allow in Hallow.
    destruct (BucketStore.GetOrCreateBucket _ _ _) as [[bucket s1] evs1].
    destruct bucket as [bucket|]; [|done].
    pose proof (Allow_lastAccess (Limiter.atRefill clk) (Limiter.atAccess clk) bucket) as Hla.
    destruct (Bucket.Allow _ _ bucket) as [ok bucket1]. cbn [fst snd] in Hla.
    injection Hallow as -> <- _. cbn [Limiter.store BucketStore.buckets].
    exists bucket1. by rewrite lookup_insert_eq. }
  destruct Hb as (b & Hb & Hla).
  pose proof (cleanup_lookup_aux := sweep_lookup clock (Limiter.inactivityThreshold l') entries
                (BucketStore.buckets (Limiter.store l')) 0 clientID).
  unfold Limiter.cleanup.
  destruct (Limiter.sweep _ _ _ _ _) as [[m' c'] evs']. cbn [fst] in cleanup_lookup_aux.
  cbn [Limiter.store BucketStore.buckets].
  rewrite cleanup_lookup_aux, (existsb_entry _ _ _ _ _ Hperm), Hb.
  assert (Hactive : Bucket.IsInactive (clock clientID) (Limiter.inactivityThreshold l') b = false).
  { unfold Bucket.IsInactive. rewrite Hla. rewrite Time_Sub_diff.
    - apply Z.ltb_ge. lia.
    - pose proof (Int64_wrap_le_max (Limiter.cleanupInterval l' * 2)) as Hw.
      unfold Limiter.inactivityThreshold, Int64.mul in Hrecent. unfold Time.maxDuration. lia. }
  rewrite Hactive. by split.
Qed.

(** X12.  A client whose Bucket a tick of [runCleanup] finds inactive has
    no Bucket afterwards, and its next look-up makes a full one with the
    limits chosen for it, whatever the old Bucket held. *)
Theorem inactive_client_starts_afresh
    (clock : string -> Time.t) (entries : list (string * Bucket.t)) (l : Limiter.t)
    (clientID : string) (b : Bucket.t) (now : Time.t) :
  BucketSpec.valid_defaults (Limiter.store l) ->
  entries ≡ₚ map_to_list (BucketStore.buckets (Limiter.store l)) ->
  BucketStore.buckets (Limiter.store l) !! clientID = Some b ->
  BucketSpec.inactive_at clock l clientID b = true ->
  let '(l', _, _) := Limiter.cleanup clock entries l in
  let '(capacity, rate, _, _) := BucketStore.chooseLimits clientID (Limiter.store l) in
  BucketStore.buckets (Limiter.store l') !! clientID = None
  /\ exists s' evs,
       BucketStore.GetOrCreateBucket now clientID (Limiter.store l')
       = (Some (BucketSpec.fresh now capacity rate), s', evs)
       /\ BucketStore.buckets s' !! clientID = Some (BucketSpec.fresh now capacity rate).
Proof.
  intros Hv Hperm Hb Hin.
  pose proof (sweep_lookup clock (Limiter.inactivityThreshold l) entries
                (BucketStore.buckets (Limiter.store l)) 0 clientID) as Hlook.
  unfold Limiter.cleanup.
  destruct (Limiter.sweep _ _ _ _ _) as [[m' c'] evs']. cbn [fst] in Hlook.
  cbn [Limiter.store].
  rewrite (existsb_entry _ _ _ _ _ Hperm), Hb in Hlook. unfold BucketSpec.inactive_at in Hin.
  rewrite Hin in Hlook.
  set (s1 := BucketStore.mk m' _ _ _).
  assert (Hv1 : BucketSpec.valid_defaults s1) by exact Hv.
  pose proof (createBucket_fresh now clientID s1 Hv1) as Hcr.
  assert (Hch : BucketStore.chooseLimits clientID s1
                = BucketStore.chooseLimits clientID (Limiter.store l)) by done.
  rewrite Hch in Hcr.
  destruct (BucketStore.chooseLimits clientID (Limiter.store l)) as [[[capacity rate] isCustom] evs0].
  destruct Hcr as (evs & Hcr & _).
  split; [done|]. unfold BucketStore.GetOrCreateBucket. cbn [s1 BucketStore.buckets].
  rewrite Hlook. fold s1. rewrite Hcr. eexists _, _. split; [done|].
  cbn [BucketStore.buckets]. by rewrite lookup_insert_eq.
Qed.

End CleanupAndRequests.

(** * The pool at start, and requests against it *)

Lemma addBackends_spec parse urls : forall acc,
  let '(bs, evs) := ServerPool.addBackends parse urls acc in
  bs = acc ++ (PeerSpec.unchecked <$> omap parse urls)
  /\ existsb is_warning evs = false.
Proof.
  induction urls as [|u urls IH]; intros acc; cbn [ServerPool.addBackends omap list_omap].
  - by rewrite app_nil_r.
  - destruct (parse u) as [url|].
    + specialize (IH (acc ++ [{| Backend.URL := url; Backend.Alive := false |}])).
      destruct (ServerPool.addBackends parse urls _) as [bs evs].
      destruct IH as [-> He]. split; [|done]. by rewrite <- app_assoc.
    + specialize (IH acc). destruct (ServerPool.addBackends parse urls acc) as [bs evs].
      destruct IH as [-> He]. done.
Qed.

Lemma GetNextPeer_all_down s : PeerSpec.all_down s -> ServerPool.GetNextPeer s = (None, s).
Proof.
  intros Hdown. pose proof (GetNextPeer_result s) as H.
  destruct (ServerPool.GetNextPeer s) as [[p|] s']; [|by subst].
  destruct H as (_ & _ & Ha). unfold PeerSpec.alive_at in Ha. rewrite Nat2Z.id in Ha.
  destruct (ServerPool.backends s !! p) as [b|] eqn:Hb; [|done].
  unfold PeerSpec.all_down in Hdown. rewrite Forall_lookup in Hdown. specialize (Hdown _ _ Hb). congruence.
Qed.

(** X13.  [NewServerPool] enters one Backend for each URL that parses, in
    the order given and marked not alive, skips the others, starts the
    cursor at 0, keeps the two durations, and logs its warning exactly
    when no URL parsed; on the pool it returns [GetNextPeer] finds no
    peer. *)
Theorem NewServerPool_enters_every_backend_as_down
    (url_Parse : string -> option string) (backendUrls : list string)
    (checkInterval checkTimeout : Time.Duration) :
  let '(s, evs) := ServerPool.NewServerPool url_Parse backendUrls checkInterval checkTimeout in
  ServerPool.backends s = PeerSpec.unchecked <$> omap url_Parse backendUrls
  /\ ServerPool.current s = 0
  /\ ServerPool.healthCheckInterval s = checkInterval
  /\ ServerPool.healthCheckTimeout s = checkTimeout
  /\ existsb is_warning evs = bool_decide (omap url_Parse backendUrls = [])
  /\ ServerPool.GetNextPeer s = (None, s).
Proof.
  unfold ServerPool.NewServerPool.
  pose proof (addBackends_spec url_Parse backendUrls []) as Hadd.
  destruct (ServerPool.addBackends url_Parse backendUrls []) as [bs evs].
  destruct Hadd as [-> He]. cbn [app ServerPool.backends ServerPool.current
    ServerPool.healthCheckInterval ServerPool.healthCheckTimeout].
  repeat split.
  - rewrite existsb_app, He. cbn [orb]. rewrite length_fmap.
    destruct (omap url_Parse backendUrls) as [|u us]; done.
  - apply GetNextPeer_all_down. unfold PeerSpec.all_down. cbn [ServerPool.backends].
    apply Forall_fmap. by apply Forall_true.
Qed.

Section DispatcherMore.

Variable interference : Z -> ServerPool.t -> ServerPool.t.
Variable RoundTrip : nat -> http.Request -> (http.ResponseWriter -> http.ResponseWriter) + string.

Lemma selectPeer_all_down fuel r : forall (a n : Z) (s : ServerPool.t),
  (forall k s, PeerSpec.all_down s -> PeerSpec.all_down (interference k s)) ->
  PeerSpec.all_down s -> 0 <= a -> n - a <= Z.of_nat fuel ->
  exists sel,
    Dispatcher.selectPeer interference fuel r a n s = Some sel
    /\ Dispatcher.sel_peer sel = None
    /\ PeerSpec.all_down (Dispatcher.sel_pool sel)
    /\ ReplySpec.sleeps (Dispatcher.sel_trace sel)
       = repeat (10 * Time.Millisecond) (Z.to_nat (n - a))
    /\ ReplySpec.calls "GetNextPeer" (Dispatcher.sel_trace sel) = Z.to_nat (n - a).
Proof.
  induction fuel as [|fuel IH]; intros a n s Hkeep Hdown Ha Hfuel.
  - cbn [Dispatcher.selectPeer]. destruct (a <? n) eqn:Hlt; [lia|].
    eexists. split; [done|]. simpl. replace (Z.to_nat (n - a)) with 0%nat by lia. done.
  - cbn [Dispatcher.selectPeer]. destruct (a <? n) eqn:Hlt.
    + rewrite GetNextPeer_all_down by done.
      destruct (IH (a + 1) n (interference a s)) as (sel & -> & Hp & Hd & Hsl & Hc);
        [done|by apply Hkeep|lia|lia|].
      eexists. split; [done|]. cbn [Dispatcher.sel_attempts Dispatcher.sel_trace
          Dispatcher.sel_peer Dispatcher.sel_pool ReplySpec.sleeps ReplySpec.calls].
      split; [done|]. split; [done|]. rewrite Hsl, Hc.
      change (String.eqb "GetNextPeer" "GetNextPeer") with true.
      replace (Z.to_nat (n - a)) with (S (Z.to_nat (n - (a + 1)))) by lia. done.
    + eexists. split; [done|]. simpl. replace (Z.to_nat (n - a)) with 0%nat by lia. done.
Qed.

(** X14.  While every Backend of a pool is down, and stays down during
    the sleeps, a request is never handed to a proxy: the handler calls
    [GetNextPeer] once per Backend, sleeps 10 ms after each call, and
    answers 503 with the JSON error body. *)
Theorem no_request_is_forwarded_while_every_backend_is_down
    (w : http.ResponseWriter) (r : http.Request) (s : ServerPool.t) :
  (forall k s, PeerSpec.all_down s -> PeerSpec.all_down (interference k s)) ->
  PeerSpec.all_down s ->
  ServerPool.backends s <> [] ->
  http.status w = None ->
  exists w' s' evs,
    Dispatcher.NewLoadBalancerHandler interference RoundTrip (Some s) w r = Some (w', Some s', evs)
    /\ PeerSpec.all_down s'
    /\ http.status w' = Some 503
    /\ http.header w' !! "Content-Type" = Some ReplySpec.json_content_type
    /\ http.body w' = http.body w +:+ ReplySpec.service_unavailable +:+ http.newline
    /\ ReplySpec.calls "GetNextPeer" evs = length (ServerPool.backends s)
    /\ ReplySpec.sleeps evs = repeat (10 * Time.Millisecond) (length (ServerPool.backends s)).
Proof.
  intros Hkeep Hdown Hne Hw.
  destruct (selectPeer_all_down (length (ServerPool.backends s)) r 0
              (Z.of_nat (length (ServerPool.backends s))) s Hkeep Hdown)
    as (sel & Hsel & Hp & Hd & Hsl & Hc); [lia..|].
  rewrite Z.sub_0_r, Nat2Z.id in Hsl, Hc.
  assert (Hlen : (length (ServerPool.GetBackends s) =? 0)%nat = false).
  { apply Nat.eqb_neq. unfold ServerPool.GetBackends. by destruct (ServerPool.backends s). }
  unfold Dispatcher.NewLoadBalancerHandler, Dispatcher.dispatch. rewrite Hlen.
  unfold ServerPool.GetBackends. rewrite Hsel, Hp.
  pose proof (RespondWithError_writes w http.StatusServiceUnavailable
                "Service Unavailable: No backend servers available" Hw) as Hresp.
  assert (Hev : snd (httputil.RespondWithError w http.StatusServiceUnavailable
                       "Service Unavailable: No backend servers available")
                = [Printf "ERROR: Responding with error: code=%d, message=%s"
                     [AInt http.StatusServiceUnavailable;
                      AStr "Service Unavailable: No backend servers available"]]) by done.
  destruct (httputil.RespondWithError _ _ _) as [w1 evs1]. cbn [fst snd] in Hresp, Hev.
  destruct Hresp as (Hst & Hct & Hbody). rewrite Marshal_service_unavailable in Hbody.
  eexists _, _, _. split; [done|]. split; [done|]. split; [done|]. split; [done|].
  split; [done|]. subst evs1. cbn [ReplySpec.calls ReplySpec.sleeps].
  assert (Hcalls : forall t1 t2, ReplySpec.calls "GetNextPeer" (t1 ++ t2)
                     = (ReplySpec.calls "GetNextPeer" t1 + ReplySpec.calls "GetNextPeer" t2)%nat).
  { intros t1 t2. induction t1 as [|[] t1 IHt]; simpl; try done. rewrite IHt. lia. }
  assert (Hsleeps : forall t1 t2, ReplySpec.sleeps (t1 ++ t2)
                      = ReplySpec.sleeps t1 ++ ReplySpec.sleeps t2).
  { intros t1 t2. induction t1 as [|[] t1 IHt]; simpl; try done. by rewrite IHt. }
  rewrite Hcalls, Hsleeps, Hsl, Hc. cbn [ReplySpec.calls ReplySpec.sleeps].
  split; [lia|by rewrite app_nil_r].
Qed.

(** X15.  The handler made for a nil pool or a pool without Backends
    answers every request with 500 and the JSON error body
    [Load Balancer Configuration Error], without a call of [GetNextPeer]
    or a sleep, and leaves the pool as it is. *)
Theorem handler_of_a_missing_or_empty_pool_answers_500
    (pool : option ServerPool.t) (w : http.ResponseWriter) (r : http.Request) :
  match pool with
  | None => True
  | Some s => ServerPool.backends s = []
  end ->
  http.status w = None ->
  exists w' evs,
    Dispatcher.NewLoadBalancerHandler interference RoundTrip pool w r = Some (w', pool, evs)
    /\ http.status w' = Some 500
    /\ http.header w' !! "Content-Type" = Some ReplySpec.json_content_type
    /\ http.body w'
       = http.body w +:+ json.lit "{'code':500,'message':'Load Balancer Configuration Error'}"
         +:+ http.newline
    /\ ReplySpec.calls "GetNextPeer" evs = 0%nat
    /\ ReplySpec.sleeps evs = [].
Proof.
  intros Hpool Hw.
  pose proof (RespondWithError_writes w http.StatusInternalServerError
                "Load Balancer Configuration Error" Hw) as Hresp.
  assert (Hev : snd (httputil.RespondWithError w http.StatusInternalServerError
                       "Load Balancer Configuration Error")
                = [Printf "ERROR: Responding with error: code=%d, message=%s"
                     [AInt http.StatusInternalServerError;
                      AStr "Load Balancer Configuration Error"]]) by done.
  unfold Dispatcher.NewLoadBalancerHandler.
  destruct (httputil.RespondWithError _ _ _) as [w1 evs1]. cbn [fst snd] in Hresp, Hev.
  destruct Hresp as (Hst & Hct & Hbody). subst evs1.
  assert (Hm : httputil.Marshal {| httputil.Code := http.StatusInternalServerError;
                                   httputil.Message := "Load Balancer Configuration Error" |}
               = json.lit "{'code':500,'message':'Load Balancer Configuration Error'}").
  { vm_compute. reflexivity. }
  rewrite Hm in Hbody.
  destruct pool as [s|].
  - unfold ServerPool.GetBackends. rewrite Hpool. cbn [length Nat.eqb].
    eexists _, _. by repeat split.
  - eexists _, _. by repeat split.
Qed.

(** X17.  When the first [GetNextPeer] finds a peer and the connection to
    it fails, the handler answers 502 at once, with no second
    [GetNextPeer] and no sleep: the request is not retried on another
    Backend.  The peer is marked down, the other Backends are as before,
    and the next [GetNextPeer] does not return that peer. *)
Theorem connect_error_is_answered_502_and_marks_the_backend_down
    (w : http.ResponseWriter) (r : http.Request) (s s1 : ServerPool.t) (p : nat) (e : string) :
  http.status w = None ->
  ServerPool.GetNextPeer s = (Some p, s1) ->
  RoundTrip p (http.WithRetry 0 r) = inr e ->
  exists w' evs,
    Dispatcher.NewLoadBalancerHandler interference RoundTrip (Some s) w r
    = Some (w', Some (ServerPool.SetAlive p false s1), evs)
    /\ http.status w' = Some 502
    /\ ReplySpec.calls "GetNextPeer" evs = 1%nat
    /\ ReplySpec.sleeps evs = []
    /\ (forall q, q <> p ->
          ServerPool.backends (ServerPool.SetAlive p false s1) !! q = ServerPool.backends s !! q)
    /\ fst (ServerPool.GetNextPeer (ServerPool.SetAlive p false s1)) <> Some p.
Proof.
  intros Hw Hpeer Hfail.
  pose proof (GetNextPeer_result s) as Hres. rewrite Hpeer in Hres.
  destruct Hres as (Hs1 & Hp & _).
  assert (Hlen : (length (ServerPool.GetBackends s) =? 0)%nat = false).
  { apply Nat.eqb_neq. unfold ServerPool.GetBackends. lia. }
  unfold Dispatcher.NewLoadBalancerHandler, Dispatcher.dispatch. rewrite Hlen.
  unfold ServerPool.GetBackends.
  destruct (length (ServerPool.backends s)) as [|n] eqn:Hn; [lia|].
  cbn [Dispatcher.selectPeer]. change (0 <? Z.of_nat (S n)) with true.
  rewrite Hpeer. cbn [Dispatcher.sel_peer Dispatcher.sel_pool Dispatcher.sel_attempts
    Dispatcher.sel_trace]. unfold Dispatcher.ReverseProxy_ServeHTTP. rewrite Hfail.
  unfold ServerPool.ErrorHandler. change (ServerPool.GetRetryFromContext (http.WithRetry 0 r)) with 0.
  change (0 <? 1) with true. cbv iota beta.
  pose proof (Error_writes w "Bad Gateway: Error connecting to backend" http.StatusBadGateway Hw)
    as (Hst & _ & _).
  eexists _, _. split; [done|]. split; [done|]. split; [done|]. split; [done|]. split.
  - intros q Hq. subst s1. cbn [ServerPool.SetAlive ServerPool.backends ServerPool.Store].
    by rewrite list_lookup_alter_ne.
  - intros Hnext. pose proof (GetNextPeer_result (ServerPool.SetAlive p false s1)) as Hres.
    destruct (ServerPool.GetNextPeer (ServerPool.SetAlive p false s1)) as [[p'|] s2]; [|done].
    cbn [fst] in Hnext. injection Hnext as ->. destruct Hres as (_ & _ & Ha).
    unfold PeerSpec.alive_at in Ha. rewrite Nat2Z.id in Ha.
    cbn [ServerPool.SetAlive ServerPool.backends] in Ha.
    rewrite list_lookup_alter_eq in Ha.
    destruct (ServerPool.backends s1 !! p); done.
Qed.

End DispatcherMore.

(** * Turns and health checks *)

Lemma GetNextPeer_next_alive s b :
  PeerSpec.cursor_ok s ->
  let n := Z.of_nat (length (ServerPool.backends s)) in
  ServerPool.backends s !! PeerSpec.after_cursor (ServerPool.current s) n 0 = Some b ->
  Backend.Alive b = true ->
  ServerPool.GetNextPeer s
  = (Some (PeerSpec.after_cursor (ServerPool.current s) n 0),
     ServerPool.Store (Z.of_nat (PeerSpec.after_cursor (ServerPool.current s) n 0)) s).
Proof.
  intros Hok n Hb Ha. rewrite GetNextPeer_refines by done.
  unfold PeerSpec.GetNextPeer, PeerSpec.scan_order. fold n.
  assert (Hn : 0 < n).
  { apply lookup_lt_Some in Hb. subst n. lia. }
  destruct (n =? 0) eqn:Hn0; [lia|].
  destruct (Z.to_nat n) as [|k] eqn:Hk; [lia|].
  cbn [PeerSpec.positions List.find]. rewrite Z.mod_mod by lia.
  unfold PeerSpec.after_cursor in Hb. rewrite Z.add_0_r in Hb.
  unfold PeerSpec.alive_at. rewrite Hb, Ha.
  unfold PeerSpec.after_cursor. rewrite Z.add_0_r. do 2 f_equal. rewrite Z2Nat.id; [done|].
  apply Z.mod_pos_bound. lia.
Qed.

Lemma GetNextPeerSeq_all_up k : forall s : ServerPool.t,
  PeerSpec.all_up s -> cursor_in_slice s ->
  0 < Z.of_nat (length (ServerPool.backends s)) <= Int64.max_int ->
  fst (ServerPool.GetNextPeerSeq k s)
  = (fun j => Some (PeerSpec.after_cursor (ServerPool.current s)
                                 (Z.of_nat (length (ServerPool.backends s))) j)) <$> seq 0 k.
Proof.
  induction k as [|k IH]; intros s Hup Hcur Hn; [done|].
  cbn [ServerPool.GetNextPeerSeq].
  set (n := Z.of_nat (length (ServerPool.backends s))) in *.
  assert (Hidx : (PeerSpec.after_cursor (ServerPool.current s) n 0 < length (ServerPool.backends s))%nat).
  { unfold PeerSpec.after_cursor. pose proof (Z.mod_pos_bound (ServerPool.current s + 1 + Z.of_nat 0) n).
    subst n. lia. }
  destruct (lookup_lt_is_Some_2 _ _ Hidx) as [b Hb].
  assert (Ha : Backend.Alive b = true).
  { unfold PeerSpec.all_up in Hup. rewrite Forall_lookup in Hup. by apply (Hup _ _ Hb). }
  rewrite (GetNextPeer_next_alive s b); [|apply cursor_in_slice_ok; [lia|done]|done|done].
  fold n. set (s1 := ServerPool.Store _ s).
  specialize (IH s1). destruct (ServerPool.GetNextPeerSeq k s1) as [peers s2]. cbn [fst] in *.
  rewrite IH; cbn [s1 ServerPool.Store ServerPool.backends ServerPool.current]; fold n.
  - cbn [seq fmap list_fmap]. f_equal. rewrite <- fmap_S_seq, <- list_fmap_compose.
    apply list_fmap_ext. intros i j _. cbn. f_equal. unfold PeerSpec.after_cursor.
    rewrite Z2Nat.id by (apply Z.mod_pos_bound; lia). f_equal.
    rewrite Z.add_0_r.
    replace ((ServerPool.current s + 1) mod n + 1 + Z.of_nat j)
      with ((ServerPool.current s + 1) mod n + (1 + Z.of_nat j)) by lia.
    rewrite Zplus_mod_idemp_l. f_equal. lia.
  - done.
  - right. cbn [s1 ServerPool.Store ServerPool.backends ServerPool.current]. lia.
  - cbn [s1 ServerPool.Store ServerPool.backends]. lia.
Qed.

Lemma after_cursor_inj c n i j :
  0 < n -> (Z.of_nat i < n) -> (Z.of_nat j < n) ->
  PeerSpec.after_cursor c n i = PeerSpec.after_cursor c n j -> i = j.
Proof.
  intros Hn Hi Hj Heq. unfold PeerSpec.after_cursor in Heq.
  apply Z2Nat.inj in Heq; [|apply Z.mod_pos_bound; lia..].
  pose proof (Z.div_mod (c + 1 + Z.of_nat i) n ltac:(lia)) as H1.
  pose proof (Z.div_mod (c + 1 + Z.of_nat j) n ltac:(lia)) as H2.
  rewrite Heq in H1.
  set (q1 := (c + 1 + Z.of_nat i) / n) in *. set (q2 := (c + 1 + Z.of_nat j) / n) in *.
  assert (q1 = q2) by nia. nia.
Qed.

(** X16.  While all Backends are alive, successive calls of [GetNextPeer]
    return the Backends in cyclic order from the one after the cursor:
    call [j] returns index [(c + 1 + j) mod n]; so [n] calls in a row
    return every Backend exactly once. *)
Theorem all_alive_backends_take_turns (k : nat) (s : ServerPool.t) :
  PeerSpec.all_up s ->
  cursor_in_slice s ->
  0 < Z.of_nat (length (ServerPool.backends s)) <= Int64.max_int ->
  let n := length (ServerPool.backends s) in
  fst (ServerPool.GetNextPeerSeq k s)
    = (fun j => Some (PeerSpec.after_cursor (ServerPool.current s) (Z.of_nat n) j)) <$> seq 0 k
  /\ fst (ServerPool.GetNextPeerSeq n s) ≡ₚ Some <$> seq 0 n.
Proof.
  intros Hup Hcur Hn n. split; [by apply GetNextPeerSeq_all_up|].
  rewrite GetNextPeerSeq_all_up by done. fold n.
  rewrite (list_fmap_compose (PeerSpec.after_cursor (ServerPool.current s) (Z.of_nat n)) Some).
  apply fmap_Permutation.
  apply NoDup_Permutation.
  - apply NoDup_fmap_2_strong; [|apply NoDup_seq].
    intros i j Hi%elem_of_seq Hj%elem_of_seq. apply after_cursor_inj; lia.
  - apply NoDup_seq.
  - intros x. rewrite list_elem_of_fmap, elem_of_seq. split.
    + intros (j & -> & Hj%elem_of_seq). unfold PeerSpec.after_cursor.
      pose proof (Z.mod_pos_bound (ServerPool.current s + 1 + Z.of_nat j) (Z.of_nat n)). lia.
    + intros Hx.
      exists (Z.to_nat ((Z.of_nat x - ServerPool.current s - 1) mod Z.of_nat n)).
      pose proof (Z.mod_pos_bound (Z.of_nat x - ServerPool.current s - 1) (Z.of_nat n) ltac:(lia)).
      split; [|apply elem_of_seq; lia].
      unfold PeerSpec.after_cursor. rewrite Z2Nat.id by lia.
      rewrite Zplus_mod_idemp_r.
      replace (ServerPool.current s + 1 + (Z.of_nat x - ServerPool.current s - 1))
        with (Z.of_nat x) by lia.
      rewrite Z.mod_small by lia. lia.
Qed.

Section HealthCheckTheory.

Variable url_Host : string -> string.
Variable net_DialTimeout : string -> string -> Time.Duration -> option string.

Lemma checkBackend_lookup i s j :
  let s1 := fst (ServerPool.checkBackend url_Host net_DialTimeout i s) in
  ServerPool.backends s1 !! j
  = (if decide (j = i) then PeerSpec.probed url_Host net_DialTimeout (ServerPool.healthCheckTimeout s) <$> ServerPool.backends s !! j
     else ServerPool.backends s !! j)
  /\ ServerPool.current s1 = ServerPool.current s
  /\ ServerPool.healthCheckTimeout s1 = ServerPool.healthCheckTimeout s
  /\ ServerPool.healthCheckInterval s1 = ServerPool.healthCheckInterval s.
Proof.
  unfold ServerPool.checkBackend. destruct (ServerPool.backends s !! i) as [b|] eqn:Hb; cbn [fst].
  - cbn [ServerPool.SetAlive ServerPool.backends ServerPool.current ServerPool.healthCheckTimeout
         ServerPool.healthCheckInterval]. split; [|done].
    destruct (decide (j = i)) as [->|Hne].
    + by rewrite list_lookup_alter_eq, Hb.
    + by rewrite list_lookup_alter_ne.
  - split; [|done]. destruct (decide (j = i)) as [->|Hne]; [by rewrite Hb|done].
Qed.

Lemma runGoroutines_lookup schedule : forall s j,
  let s1 := fst (ServerPool.runGoroutines url_Host net_DialTimeout schedule s) in
  ServerPool.backends s1 !! j
  = (if decide (j ∈ schedule)
     then PeerSpec.probed url_Host net_DialTimeout (ServerPool.healthCheckTimeout s) <$> ServerPool.backends s !! j
     else ServerPool.backends s !! j)
  /\ ServerPool.current s1 = ServerPool.current s
  /\ ServerPool.healthCheckTimeout s1 = ServerPool.healthCheckTimeout s
  /\ ServerPool.healthCheckInterval s1 = ServerPool.healthCheckInterval s.
Proof.
  induction schedule as [|i schedule IH]; intros s j; cbn [ServerPool.runGoroutines].
  - cbn [fst]. split; [|done]. destruct (decide (j ∈ [])) as [H|H]; [|done]. by apply elem_of_nil in H.
  - pose proof (checkBackend_lookup i s j) as Hc.
    destruct (ServerPool.checkBackend url_Host net_DialTimeout i s) as [s1 evs1]. cbn [fst] in Hc.
    specialize (IH s1 j).
    destruct (ServerPool.runGoroutines url_Host net_DialTimeout schedule s1) as [s2 evs2].
    cbn [fst] in *. destruct Hc as (Hc & Hcur & Ht & Hi). destruct IH as (IH & IHcur & IHt & IHi).
    split; [|by rewrite IHcur, IHt, IHi]. rewrite IH, Ht.
    destruct (decide (j = i)) as [->|Hne].
    + rewrite Hc.
      destruct (decide (i ∈ i :: schedule)) as [_|Hn]; [|exfalso; apply Hn; by left].
      destruct (decide (i ∈ schedule)); [|done].
      by destruct (ServerPool.backends s !! i) as [b|].
    + rewrite Hc.
      destruct (decide (j ∈ schedule)) as [Hin|Hnin].
      * destruct (decide (j ∈ i :: schedule)) as [_|Hn]; [done|exfalso; apply Hn; by right].
      * destruct (decide (j ∈ i :: schedule)) as [[?|?]%elem_of_cons|_]; done.
Qed.

(** X18.  One health-check cycle, whatever the order in which its
    goroutines run, sets the Alive flag of every Backend to whether the
    dial to its host succeeded, and changes nothing else: URLs, order,
    cursor and durations are as before. *)
Theorem health_check_cycle_sets_every_flag_to_what_the_dial_found
    (schedule : list nat) (s : ServerPool.t) :
  schedule ≡ₚ seq 0 (length (ServerPool.backends s)) ->
  let '(s', _) := ServerPool.runHealthCheckCycle url_Host net_DialTimeout schedule s in
  ServerPool.backends s' = PeerSpec.probed url_Host net_DialTimeout (ServerPool.healthCheckTimeout s) <$> ServerPool.backends s
  /\ ServerPool.current s' = ServerPool.current s
  /\ ServerPool.healthCheckInterval s' = ServerPool.healthCheckInterval s
  /\ ServerPool.healthCheckTimeout s' = ServerPool.healthCheckTimeout s.
Proof.
  intros Hperm. unfold ServerPool.runHealthCheckCycle.
  pose proof (fun j => runGoroutines_lookup schedule s j) as Hrun.
  destruct (ServerPool.runGoroutines url_Host net_DialTimeout schedule s) as [s1 evs].
  cbn [fst] in Hrun. destruct (Hrun 0%nat) as (_ & Hcur & Ht & Hi).
  split; [|done]. apply list_eq. intros j. destruct (Hrun j) as (-> & _).
  rewrite list_lookup_fmap.
  destruct (decide (j ∈ schedule)) as [Hin|Hnin]; [done|].
  rewrite lookup_ge_None_2; [done|].
  destruct (le_lt_dec (length (ServerPool.backends s)) j) as [Hge|Hlt]; [done|].
  exfalso. apply Hnin. rewrite Hperm. apply elem_of_seq. lia.
Qed.

Lemma positions_covers n start count x :
  0 < n -> 0 <= x < n -> n <= Z.of_nat count ->
  In x (PeerSpec.positions n start count).
Proof.
  intros Hn Hx Hcount.
  assert (Hgen : forall count start j, (j < count)%nat ->
            In ((start + Z.of_nat j) mod n) (PeerSpec.positions n start count)).
  { clear. induction count as [|count IH]; intros start j Hj; [lia|].
    cbn [PeerSpec.positions]. destruct j as [|j].
    - left. f_equal. lia.
    - right. replace (start + Z.of_nat (S j)) with ((start + 1) + Z.of_nat j) by lia.
      apply IH. lia. }
  pose proof (Z.mod_pos_bound (x - start) n Hn) as Hj.
  specialize (Hgen count start (Z.to_nat ((x - start) mod n)) ltac:(lia)).
  rewrite Z2Nat.id in Hgen by lia. rewrite Zplus_mod_idemp_r in Hgen.
  replace (start + (x - start)) with x in Hgen by lia.
  by rewrite Z.mod_small in Hgen by lia.
Qed.

Lemma GetNextPeer_none_all_down s :
  PeerSpec.cursor_ok s -> fst (ServerPool.GetNextPeer s) = None -> PeerSpec.all_down s.
Proof.
  intros Hok Hnone. rewrite GetNextPeer_refines in Hnone by done.
  unfold PeerSpec.GetNextPeer in Hnone. unfold PeerSpec.all_down.
  set (n := Z.of_nat (length (ServerPool.backends s))) in *.
  destruct (n =? 0) eqn:Hn0.
  - destruct (ServerPool.backends s); [constructor|]. simpl in n. lia.
  - destruct (List.find _ _) as [idx|] eqn:Hfind; [done|].
    apply Forall_lookup. intros i b Hb.
    pose proof (lookup_lt_Some _ _ _ Hb) as Hi.
    pose proof (List.find_none _ _ Hfind (Z.of_nat i)) as Hdead.
    unfold PeerSpec.alive_at in Hdead. rewrite Nat2Z.id, Hb in Hdead. apply Hdead.
    apply positions_covers; subst n; lia.
Qed.

(** X19.  Right after a health-check cycle, [GetNextPeer] returns a peer
    whose dial succeeded in that cycle, and it returns no peer only when
    every dial failed. *)
Theorem after_a_health_check_a_peer_is_found_iff_a_dial_succeeded
    (schedule : list nat) (s : ServerPool.t) :
  schedule ≡ₚ seq 0 (length (ServerPool.backends s)) ->
  cursor_in_slice s ->
  Z.of_nat (length (ServerPool.backends s)) <= Int64.max_int ->
  let '(s1, _) := ServerPool.runHealthCheckCycle url_Host net_DialTimeout schedule s in
  match ServerPool.GetNextPeer s1 with
  | (Some p, _) =>
      exists b, ServerPool.backends s !! p = Some b
                /\ ServerPool.isBackendAlive url_Host net_DialTimeout (Backend.URL b)
                     (ServerPool.healthCheckTimeout s) = true
  | (None, _) =>
      Forall (fun b => ServerPool.isBackendAlive url_Host net_DialTimeout (Backend.URL b)
                         (ServerPool.healthCheckTimeout s) = false)
             (ServerPool.backends s)
  end.
Proof.
  intros Hperm Hcur Hmax.
  pose proof (health_check_cycle_aux := runGoroutines_lookup schedule s).
  unfold ServerPool.runHealthCheckCycle.
  destruct (ServerPool.runGoroutines url_Host net_DialTimeout schedule s) as [s1 evs].
  cbn [fst] in health_check_cycle_aux.
  assert (Hbs : ServerPool.backends s1
                = PeerSpec.probed url_Host net_DialTimeout (ServerPool.healthCheckTimeout s) <$> ServerPool.backends s).
  { apply list_eq. intros j. destruct (health_check_cycle_aux j) as (-> & _).
    rewrite list_lookup_fmap.
    destruct (decide (j ∈ schedule)) as [Hin|Hnin]; [done|].
    rewrite lookup_ge_None_2; [done|].
    destruct (le_lt_dec (length (ServerPool.backends s)) j) as [Hge|Hlt]; [done|].
    exfalso. apply Hnin. rewrite Hperm. apply elem_of_seq. lia. }
  destruct (health_check_cycle_aux 0%nat) as (_ & Hc & _).
  assert (Hok : PeerSpec.cursor_ok s1).
  { apply cursor_in_slice_ok; [by rewrite Hbs, length_fmap|].
    unfold cursor_in_slice. by rewrite Hc, Hbs, length_fmap. }
  pose proof (GetNextPeer_result s1) as Hres.
  pose proof (GetNextPeer_none_all_down s1 Hok) as Hnone.
  destruct (ServerPool.GetNextPeer s1) as [[p|] s2].
  - destruct Hres as (_ & _ & Ha). unfold PeerSpec.alive_at in Ha.
    rewrite Nat2Z.id, Hbs, list_lookup_fmap in Ha.
    destruct (ServerPool.backends s !! p) as [b|]; [|done]. exists b. done.
  - specialize (Hnone eq_refl). unfold PeerSpec.all_down in Hnone. rewrite Hbs in Hnone.
    by apply Forall_fmap in Hnone.
Qed.

End HealthCheckTheory.

(** * The rate-limit filter *)

Section MiddlewareTheory.
Context `{arch : Float64.GoArch}.

(** X20.  A request of a client whose Bucket is empty, coming after a
    wait too short to earn a token, is answered 429 with the JSON body
    [{"code":429,"message":"Rate limit exceeded"}] and its newline; the
    next handler does not run (its state is untouched and the log holds
    only the lines of the filter), and the Bucket is left empty with
    [lastRefill] moved to this request. *)
Theorem request_of_a_drained_client_is_answered_429
    {S : Type} (clk : Limiter.Clock) (next : http.Handler S)
    (w : http.ResponseWriter) (r : http.Request) (l : Limiter.t) (s : S) (b : Bucket.t) :
  let ip := middleware.clientIP (http.RemoteAddr r) in
  http.status w = None ->
  BucketStore.buckets (Limiter.store l) !! ip = Some b ->
  0 < Bucket.capacity b ->
  Bucket.tokens b = 0 ->
  BucketSpec.earns_nothing (Bucket.refillRate b) (Limiter.atRefill clk - Bucket.lastRefill b) ->
  exists w' l',
    middleware.RateLimit clk next w r (l, s)
    = (w', (l', s),
       [Printf "WARN: Rate limit exceeded for client %s on %s" [AStr ip; AStr (http.Path r)];
        ReplySpec.responding 429 "Rate limit exceeded"])
    /\ http.status w' = Some 429
    /\ http.header w' !! "Content-Type" = Some ReplySpec.json_content_type
    /\ http.body w' = http.body w +:+ ReplySpec.too_many_requests +:+ http.newline
    /\ BucketStore.buckets (Limiter.store l') !! ip
       = Some (BucketSpec.stamped (Limiter.atRefill clk) b).
Proof.
  intros ip Hw Hb Hcap Hdrained Hwait.
  assert (Hshort : BucketSpec.under_one_token (Bucket.refillRate b)
                     (Limiter.atRefill clk - Bucket.lastRefill b)).
  { destruct Hwait as [H|H]; [done|by apply well_under_one_token_under]. }
  unfold middleware.RateLimit. fold ip. unfold Limiter.Allow, BucketStore.GetOrCreateBucket.
  rewrite Hb. rewrite Allow_under_one_token by done. cbn [negb app].
  pose proof (RespondWithError_writes w http.StatusTooManyRequests "Rate limit exceeded" Hw)
    as Hresp.
  assert (Hev : snd (httputil.RespondWithError w http.StatusTooManyRequests "Rate limit exceeded")
                = [ReplySpec.responding 429 "Rate limit exceeded"]) by done.
  destruct (httputil.RespondWithError _ _ _) as [w1 evs1]. cbn [fst snd] in Hresp, Hev.
  destruct Hresp as (Hst & Hct & Hbody). subst evs1.
  assert (Hm : httputil.Marshal {| httputil.Code := http.StatusTooManyRequests;
                                   httputil.Message := "Rate limit exceeded" |}
               = ReplySpec.too_many_requests) by (vm_compute; reflexivity).
  rewrite Hm in Hbody.
  eexists _, _. split; [done|]. split; [done|]. split; [done|]. split; [done|].
  cbn [Limiter.store BucketStore.buckets]. by rewrite lookup_insert_eq.
Qed.


End MiddlewareTheory.

(** * The admin API *)

Section AdminTheory.

Context {M : Type} `{manager : LimitManager M}.
Variable json_Decode : string -> adminapi.setLimitRequest.t + string.
Variable json_Marshal : adminapi.limitResponse.t -> string + string.

Lemma respond_writes w code message (m : M) :
  http.status w = None ->
  let '(w', m', evs) := adminapi.respond w code message m in
  m' = m /\ http.status w' = Some code
  /\ http.header w' !! "Content-Type" = Some ReplySpec.json_content_type
  /\ evs = [ReplySpec.responding code message].
Proof.
  intros Hw. unfold adminapi.respond.
  pose proof (RespondWithError_writes w code message Hw) as Hresp.
  assert (Hev : snd (httputil.RespondWithError w code message) = [ReplySpec.responding code message]) by done.
  destruct (httputil.RespondWithError _ _ _) as [w1 evs1]. cbn [fst snd] in *.
  destruct Hresp as (Hst & Hct & _). done.
Qed.

(** X22.  The admin handler answers a POST that names a client in the
    path, a DELETE that names none and every request with another method
    than POST, GET or DELETE with 405, and a GET that names no client
    with 501, each with a JSON error body and without touching the limit
    manager. *)
Theorem admin_request_off_the_routes_never_reaches_the_manager
    (w : http.ResponseWriter) (r : http.Request) (body : string) (m : M) :
  http.status w = None ->
  let path := adminapi.routePath r in
  let method := http.Method r in
  (method = "POST" /\ path <> EmptyString)
  \/ (method = "GET" /\ path = EmptyString)
  \/ (method = "DELETE" /\ path = EmptyString)
  \/ (method <> "POST" /\ method <> "GET" /\ method <> "DELETE") ->
  let '(w', m', _) := adminapi.ServeHTTP json_Decode json_Marshal w r body m in
  m' = m
  /\ http.status w' = Some (if String.eqb method "GET" then 501 else 405)
  /\ http.header w' !! "Content-Type" = Some ReplySpec.json_content_type.
Proof.
  intros Hw path method Hcase. unfold adminapi.ServeHTTP. fold path method.
  unfold http.MethodPost, http.MethodGet, http.MethodDelete.
  destruct Hcase as [[Hm Hp]|[[Hm Hp]|[[Hm Hp]|(H1 & H2 & H3)]]].
  - rewrite Hm. cbn [String.eqb Ascii.eqb Bool.eqb].
    apply String.eqb_neq in Hp. rewrite Hp.
    pose proof (respond_writes w http.StatusMethodNotAllowed
      "Method Not Allowed (POST expects no client ID in path)" m Hw) as Hr.
    destruct (adminapi.respond _ _ _ _) as [[w' m'] evs]. by destruct Hr as (? & ? & ? & ?).
  - rewrite Hm, Hp. cbn [String.eqb Ascii.eqb Bool.eqb negb].
    pose proof (respond_writes w http.StatusNotImplemented
      "Listing limits is not implemented" m Hw) as Hr.
    destruct (adminapi.respond _ _ _ _) as [[w' m'] evs]. by destruct Hr as (? & ? & ? & ?).
  - rewrite Hm, Hp. cbn [String.eqb Ascii.eqb Bool.eqb negb].
    pose proof (respond_writes w http.StatusMethodNotAllowed
      "Method Not Allowed (DELETE expects client ID in path)" m Hw) as Hr.
    destruct (adminapi.respond _ _ _ _) as [[w' m'] evs]. by destruct Hr as (? & ? & ? & ?).
  - apply String.eqb_neq in H1, H2, H3. rewrite H1, H2, H3.
    pose proof (respond_writes w http.StatusMethodNotAllowed "Method Not Allowed" m Hw) as Hr.
    destruct (adminapi.respond _ _ _ _) as [[w' m'] evs]. by destruct Hr as (? & ? & ? & ?).
Qed.

(** X23.  A POST whose body does not decode, or decodes to an empty
    [client_id], a capacity that is not positive or a rate that is not
    positive, is answered 400 with a JSON error body, and the limit
    manager is not touched: the API stores no such limit. *)
Theorem admin_rejects_an_invalid_limit_before_the_manager
    (w : http.ResponseWriter) (r : http.Request) (body : string) (m : M) :
  http.status w = None ->
  http.Method r = "POST" ->
  adminapi.routePath r = EmptyString ->
  match json_Decode body with
  | inr _ => True
  | inl req =>
      adminapi.setLimitRequest.ClientID req = EmptyString
      \/ adminapi.setLimitRequest.Capacity req <= 0
      \/ Float64.leb (adminapi.setLimitRequest.Rate req) Float64.zero = true
  end ->
  let '(w', m', _) := adminapi.ServeHTTP json_Decode json_Marshal w r body m in
  m' = m
  /\ http.status w' = Some 400
  /\ http.header w' !! "Content-Type" = Some ReplySpec.json_content_type.
Proof.
  intros Hw Hm Hp Hbad. unfold adminapi.ServeHTTP. rewrite Hm, Hp.
  unfold http.MethodPost. cbn [String.eqb Ascii.eqb Bool.eqb].
  unfold adminapi.handleSetLimit.
  destruct (json_Decode body) as [req|err].
  - destruct (String.eqb (adminapi.setLimitRequest.ClientID req) EmptyString) eqn:H1.
    { pose proof (respond_writes w http.StatusBadRequest "client_id is required" m Hw) as Hr.
      destruct (adminapi.respond _ _ _ _) as [[w' m'] evs]. by destruct Hr as (? & ? & ? & ?). }
    destruct (adminapi.setLimitRequest.Capacity req <=? 0) eqn:H2.
    { pose proof (respond_writes w http.StatusBadRequest "capacity must be positive" m Hw) as Hr.
      destruct (adminapi.respond _ _ _ _) as [[w' m'] evs]. by destruct Hr as (? & ? & ? & ?). }
    destruct (Float64.leb (adminapi.setLimitRequest.Rate req) Float64.zero) eqn:H3.
    { pose proof (respond_writes w http.StatusBadRequest "rate must be positive" m Hw) as Hr.
      destruct (adminapi.respond _ _ _ _) as [[w' m'] evs]. by destruct Hr as (? & ? & ? & ?). }
    apply String.eqb_neq in H1. destruct Hbad as [?|[?|?]]; [done|lia|done].
  - pose proof (respond_writes w http.StatusBadRequest ("Invalid request body: " +:+ err) m Hw) as Hr.
    destruct (adminapi.respond _ _ _ _) as [[w' m'] evs]. by destruct Hr as (? & ? & ? & ?).
Qed.

(** X24.  A POST with a non-empty [client_id], a positive capacity and a
    positive rate hands exactly these three values to [SetLimit]; when
    that succeeds and the response marshals, the answer is 200 with the
    same three values as JSON body; when [SetLimit] fails, or the
    response does not marshal, the answer is 500. *)
Theorem admin_stores_a_valid_limit_and_echoes_it
    (w : http.ResponseWriter) (r : http.Request) (body : string) (m : M)
    (req : adminapi.setLimitRequest.t) :
  http.status w = None ->
  http.Method r = "POST" ->
  adminapi.routePath r = EmptyString ->
  json_Decode body = inl req ->
  adminapi.setLimitRequest.ClientID req <> EmptyString ->
  0 < adminapi.setLimitRequest.Capacity req ->
  Float64.leb (adminapi.setLimitRequest.Rate req) Float64.zero = false ->
  let '(m1, err) :=
    SetLimit (adminapi.setLimitRequest.ClientID req) (adminapi.setLimitRequest.Capacity req)
             (adminapi.setLimitRequest.Rate req) m in
  let '(w', m', _) := adminapi.ServeHTTP json_Decode json_Marshal w r body m in
  m' = m1
  /\ http.header w' !! "Content-Type" = Some ReplySpec.json_content_type
  /\ match err, json_Marshal {| adminapi.limitResponse.ClientID := adminapi.setLimitRequest.ClientID req;
                                adminapi.limitResponse.Capacity := adminapi.setLimitRequest.Capacity req;
                                adminapi.limitResponse.Rate := adminapi.setLimitRequest.Rate req |} with
     | None, inl bytes => http.status w' = Some 200 /\ http.body w' = http.body w +:+ bytes
     | _, _ => http.status w' = Some 500
     end.
Proof.
  intros Hw Hm Hp Hdec Hid Hcap Hrate. unfold adminapi.ServeHTTP. rewrite Hm, Hp.
  unfold http.MethodPost. cbn [String.eqb Ascii.eqb Bool.eqb].
  unfold adminapi.handleSetLimit. rewrite Hdec.
  apply String.eqb_neq in Hid. rewrite Hid, Hrate.
  destruct (adminapi.setLimitRequest.Capacity req <=? 0) eqn:H2; [lia|].
  destruct (SetLimit _ _ _ m) as [m1 [e|]].
  - pose proof (respond_writes w http.StatusInternalServerError ("Failed to set limit: " +:+ e) m1 Hw)
      as Hr.
    destruct (adminapi.respond _ _ _ _) as [[w' m'] evs]. by destruct Hr as (? & ? & ? & ?).
  - unfold httputil.RespondWithJSON.
    destruct (json_Marshal _) as [bytes|merr].
    + unfold http.Write, http.WriteHeader, http.Header_Set. rewrite Hw.
      cbn [http.status http.header http.body]. split; [done|].
      by rewrite lookup_insert_eq.
    + pose proof (RespondWithError_writes w http.StatusInternalServerError
                    "Failed to generate response" Hw) as Hresp.
      destruct (httputil.RespondWithError _ _ _) as [w1 evs1]. cbn [fst] in Hresp.
      by destruct Hresp as (? & ? & _).
Qed.

End AdminTheory.

Lemma in_cutset_slash c : strings.in_cutset "/" c = Ascii.eqb c "/".
Proof. unfold strings.in_cutset. cbn. by rewrite orb_false_r. Qed.

Lemma string_app_assoc (a b c : string) : (a +:+ b) +:+ c = a +:+ (b +:+ c).
Proof.
  induction a as [|x a IH]; [by rewrite !string_app_nil|].
  by rewrite !string_app_cons, IH.
Qed.

Lemma TrimLeft_slashes k s :
  strings.TrimLeft (RouteSpec.slashes k +:+ s) "/" = strings.TrimLeft s "/".
Proof.
  induction k as [|k IH]; cbn [RouteSpec.slashes]; [by rewrite string_app_nil|].
  rewrite string_app_cons. cbn [strings.TrimLeft]. rewrite in_cutset_slash.
  by rewrite Ascii.eqb_refl.
Qed.

Lemma TrimRight_slashes_only k : strings.TrimRight (RouteSpec.slashes k) "/" = EmptyString.
Proof.
  induction k as [|k IH]; [done|]. cbn [RouteSpec.slashes strings.TrimRight]. rewrite IH.
  rewrite in_cutset_slash. by rewrite Ascii.eqb_refl.
Qed.

Lemma TrimRight_app_slashes s k :
  strings.TrimRight (s +:+ RouteSpec.slashes k) "/" = strings.TrimRight s "/".
Proof.
  induction s as [|c s IH].
  - rewrite string_app_nil. apply TrimRight_slashes_only.
  - rewrite string_app_cons. cbn [strings.TrimRight]. by rewrite IH.
Qed.

Lemma TrimRight_slashes_app k s :
  strings.TrimRight (RouteSpec.slashes k +:+ s) "/"
  = match strings.TrimRight s "/" with
    | EmptyString => EmptyString
    | kept => RouteSpec.slashes k +:+ kept
    end.
Proof.
  induction k as [|k IH]; cbn [RouteSpec.slashes].
  - rewrite string_app_nil. destruct (strings.TrimRight s "/"); [done|by rewrite string_app_nil].
  - rewrite string_app_cons. cbn [strings.TrimRight]. rewrite IH.
    destruct (strings.TrimRight s "/") as [|c kept].
    + rewrite in_cutset_slash. by rewrite Ascii.eqb_refl.
    + rewrite string_app_cons.
      destruct (RouteSpec.slashes k +:+ String c kept) eqn:Hk; [|done].
      destruct k; cbn [RouteSpec.slashes] in Hk; [by rewrite string_app_nil in Hk|by rewrite string_app_cons in Hk].
Qed.

Lemma Trim_slashes_around a s b :
  strings.Trim (RouteSpec.slashes a +:+ s +:+ RouteSpec.slashes b) "/" = strings.Trim s "/".
Proof.
  unfold strings.Trim.
  rewrite <- string_app_assoc, TrimRight_app_slashes, TrimRight_slashes_app.
  destruct (strings.TrimRight s "/") as [|c kept]; [done|].
  apply TrimLeft_slashes.
Qed.

Lemma HasSuffix_slash s : strings.HasSuffix s "/" = true <-> exists s', s = s' +:+ "/".
Proof.
  unfold strings.HasSuffix. split.
  - intros [Hlen Heq]%andb_true_iff. apply Nat.leb_le in Hlen. apply String.eqb_eq in Heq.
    change (String.length "/") with 1%nat in Hlen, Heq.
    exists (String.substring 0 (String.length s - 1) s).
    rewrite <- Heq. by apply substring_split_last.
  - intros [s' ->]. rewrite string_length_app.
    change (String.length "/") with 1%nat.
    replace (String.length s' + 1 - 1)%nat with (String.length s') by lia.
    rewrite substring_app_r.
    destruct (String.length s' + 1)%nat eqn:H; [lia|done].
Qed.

Lemma TrimRight_bare s : strings.HasSuffix s "/" = false -> strings.TrimRight s "/" = s.
Proof.
  induction s as [|c s IH]; [done|]. intros Hs. cbn [strings.TrimRight].
  destruct s as [|c' s].
  - cbn [strings.TrimRight]. rewrite in_cutset_slash.
    destruct (Ascii.eqb c "/") eqn:Hc; [|done].
    apply Ascii.eqb_eq in Hc. subst c. exfalso.
    assert (Ht : strings.HasSuffix "/" "/" = true) by done. congruence.
  - rewrite IH; [done|].
    apply not_true_is_false. intros [s' Hs']%HasSuffix_slash.
    assert (Ht : strings.HasSuffix (String c (String c' s)) "/" = true).
    { apply HasSuffix_slash. exists (String c s'). by rewrite string_app_cons, <- Hs'. }
    congruence.
Qed.

Lemma TrimLeft_bare s : strings.HasPrefix s "/" = false -> strings.TrimLeft s "/" = s.
Proof.
  destruct s as [|c s]; [done|]. unfold strings.HasPrefix. rewrite prefix_one_byte.
  intros Hc. cbn [strings.TrimLeft]. rewrite in_cutset_slash, Ascii.eqb_sym. by rewrite Hc.
Qed.

Lemma TrimPrefix_app prefix s : strings.TrimPrefix (prefix +:+ s) prefix = s.
Proof.
  unfold strings.TrimPrefix, strings.HasPrefix, strings.slice, strings.len.
  assert (Hp : String.prefix prefix (prefix +:+ s) = true).
  { induction prefix as [|c p IH]; [by rewrite string_app_nil; destruct s|].
    rewrite string_app_cons. cbn [String.prefix]. destruct (ascii_dec c c); [done|done]. }
  rewrite Hp, !Nat2Z.id. rewrite string_length_app.
  replace (Z.to_nat (Z.of_nat (String.length prefix + String.length s) - Z.of_nat (String.length prefix)))
    with (String.length s) by lia.
  clear Hp. induction prefix as [|c p IH]; [rewrite string_app_nil; apply substring_whole|].
  rewrite string_app_cons. cbn [String.length String.substring]. apply IH.
Qed.

(** X25.  The client a path names is what stands after [/admin/limits]
    with the slashes around it removed: for a [clientID] that neither
    begins nor ends with a slash, [/admin/limits], any number of slashes,
    [clientID] and any number of slashes make the route of
    [clientID]. *)
Theorem admin_route_names_the_client_between_the_slashes
    (r : http.Request) (clientID : string) (a b : nat) :
  http.Path r = "/admin/limits" +:+ RouteSpec.slashes a +:+ clientID +:+ RouteSpec.slashes b ->
  RouteSpec.bare clientID ->
  adminapi.routePath r = clientID.
Proof.
  intros Hpath [Hp Hs]. unfold adminapi.routePath. rewrite Hpath.
  rewrite TrimPrefix_app, Trim_slashes_around.
  unfold strings.Trim. rewrite TrimRight_bare by done. by apply TrimLeft_bare.
Qed.

Section AdminTheory2.

Context {M : Type} `{manager : LimitManager M}.
Variable json_Decode : string -> adminapi.setLimitRequest.t + string.
Variable json_Marshal : adminapi.limitResponse.t -> string + string.

(** X26.  A GET that names a client asks the manager once and leaves it
    as it is: a limit that is found is answered 200 with the client and
    the values found as JSON body (500 when the response does not
    marshal), one that is not found 404 with a message that names the
    client. *)
Theorem admin_get_answers_with_the_limit_or_404
    (w : http.ResponseWriter) (r : http.Request) (body : string) (m : M) :
  http.status w = None ->
  http.Method r = "GET" ->
  adminapi.routePath r <> EmptyString ->
  let clientID := adminapi.routePath r in
  let '(capacity, rate, found) := GetLimit clientID m in
  let '(w', m', evs) := adminapi.ServeHTTP json_Decode json_Marshal w r body m in
  m' = m
  /\ http.header w' !! "Content-Type" = Some ReplySpec.json_content_type
  /\ if found then
       match json_Marshal {| adminapi.limitResponse.ClientID := clientID;
                             adminapi.limitResponse.Capacity := capacity;
                             adminapi.limitResponse.Rate := rate |} with
       | inl bytes => http.status w' = Some 200 /\ http.body w' = http.body w +:+ bytes
       | inr _ => http.status w' = Some 500
       end
     else http.status w' = Some 404
          /\ evs = [ReplySpec.responding 404 ("Limit not found for client " +:+ clientID)].
Proof.
  intros Hw Hm Hp clientID. unfold adminapi.ServeHTTP. fold clientID. rewrite Hm.
  unfold http.MethodPost, http.MethodGet. cbn [String.eqb Ascii.eqb Bool.eqb].
  apply String.eqb_neq in Hp. fold clientID in Hp. rewrite Hp. cbn [negb].
  unfold adminapi.handleGetLimit. rewrite Hp.
  destruct (GetLimit clientID m) as [[capacity rate] found]. destruct found; cbn [negb].
  - unfold httputil.RespondWithJSON. destruct (json_Marshal _) as [bytes|merr].
    + unfold http.Write, http.WriteHeader, http.Header_Set. rewrite Hw.
      cbn [http.status http.header http.body]. split; [done|].
      by rewrite lookup_insert_eq.
    + pose proof (RespondWithError_writes w http.StatusInternalServerError
                    "Failed to generate response" Hw) as Hresp.
      destruct (httputil.RespondWithError _ _ _) as [w1 evs1]. cbn [fst] in Hresp.
      by destruct Hresp as (? & ? & _).
  - pose proof (respond_writes w http.StatusNotFound
                  ("Limit not found for client " +:+ clientID) m Hw) as Hr.
    destruct (adminapi.respond _ _ _ _) as [[w' m'] evs]. by destruct Hr as (? & ? & ? & ?).
Qed.

(** X27.  A DELETE that names a client calls [DeleteLimit] for it; when
    the manager reports no error the answer is 204 with nothing written
    and no header set, whether or not a limit was there; when it reports
    an error the answer is 500. *)
Theorem admin_delete_answers_204_without_a_body
    (w : http.ResponseWriter) (r : http.Request) (body : string) (m : M) :
  http.status w = None ->
  http.Method r = "DELETE" ->
  adminapi.routePath r <> EmptyString ->
  let '(m1, err) := DeleteLimit (adminapi.routePath r) m in
  let '(w', m', evs) := adminapi.ServeHTTP json_Decode json_Marshal w r body m in
  m' = m1
  /\ match err with
     | None => w' = {| http.header := http.header w; http.status := Some 204;
                       http.body := http.body w |}
               /\ evs = []
     | Some e => http.status w' = Some 500
                 /\ evs = [ReplySpec.responding 500 ("Failed to delete limit: " +:+ e)]
     end.
Proof.
  intros Hw Hm Hp. unfold adminapi.ServeHTTP. rewrite Hm.
  unfold http.MethodPost, http.MethodGet, http.MethodDelete. cbn [String.eqb Ascii.eqb Bool.eqb].
  apply String.eqb_neq in Hp. rewrite Hp. cbn [negb].
  unfold adminapi.handleDeleteLimit. rewrite Hp.
  destruct (DeleteLimit _ m) as [m1 [e|]].
  - pose proof (respond_writes w http.StatusInternalServerError
                  ("Failed to delete limit: " +:+ e) m1 Hw) as Hr.
    destruct (adminapi.respond _ _ _ _) as [[w' m'] evs]. by destruct Hr as (? & ? & ? & ?).
  - unfold http.WriteHeader. by rewrite Hw.
Qed.

End AdminTheory2.

(** * The configuration *)

(** A rate that the check [<= 0] lets through is above 0 or not a
    number. *)
Lemma Float64_not_leb_zero r :
  Float64.leb r Float64.zero = false -> Float64.gtb r Float64.zero = true \/ r = S754_nan.
Proof. destruct r as [[]|[]| |[] m e]; try done; by (left + right). Qed.

Section ConfigTheory.

Variable os_ReadFile : string -> string + string.
Variable os_IsNotExist : string -> bool.
Variable yaml_Unmarshal : string -> config.Config -> config.Config * option string.
Variable os_Getenv : string -> string.
Variable time_ParseDuration : string -> Time.Duration + string.

Lemma validate_loaded cfg cfg' :
  config.validate cfg = config.Loaded cfg' ->
  cfg' = cfg
  /\ (config.Enabled (config.RateLimiter cfg) = true ->
      0 < config.DefaultCapacity (config.RateLimiter cfg)
      /\ Float64.leb (config.DefaultRefillRate (config.RateLimiter cfg)) Float64.zero = false
      /\ (config.Driver (config.DB (config.RateLimiter cfg)) = EmptyString
          \/ (config.Driver (config.DB (config.RateLimiter cfg)) = "sqlite"
              /\ config.Path (config.DB (config.RateLimiter cfg)) <> EmptyString))).
Proof.
  unfold config.validate.
  destruct (config.Enabled (config.RateLimiter cfg)); [|by intros [= ->]].
  destruct (config.DefaultCapacity (config.RateLimiter cfg) <=? 0) eqn:Hc; [done|].
  destruct (Float64.leb _ _) eqn:Hr; [done|].
  destruct (String.eqb (config.Driver _) EmptyString) eqn:Hd; cbn [negb].
  - intros [= ->]. split; [done|]. intros _. split; [lia|]. split; [done|].
    left. by apply String.eqb_eq.
  - destruct (String.eqb (config.Driver _) "sqlite") eqn:Hs; cbn [negb]; [|done].
    destruct (String.eqb (config.Path _) EmptyString) eqn:Hp; [done|].
    intros [= ->]. split; [done|]. intros _. split; [lia|]. split; [done|].
    right. split; [by apply String.eqb_eq|by apply String.eqb_neq].
Qed.

(** What [LoadConfig] does after the file and the environment are read. *)
Lemma LoadConfig_loaded configPath cfg evs :
  config.LoadConfig os_ReadFile os_IsNotExist yaml_Unmarshal os_Getenv
    time_ParseDuration configPath = (config.Loaded cfg, evs) ->
  exists cfg0 : config.Config,
    config.validate cfg = config.Loaded cfg
    /\ config.Backends cfg <> []
    /\ config.RateLimiter cfg = config.RateLimiter cfg0
    /\ (cfg0 = config.defaults
        \/ exists data, os_ReadFile configPath = inl data
                        /\ cfg0 = fst (yaml_Unmarshal data config.defaults)).
Proof.
  unfold config.LoadConfig. intros Hload.
  set (read := match os_ReadFile configPath with inl _ => _ | inr _ => _ end) in Hload.
  assert (Hread : fst read = config.defaults
                  \/ exists data, os_ReadFile configPath = inl data
                                  /\ fst read = fst (yaml_Unmarshal data config.defaults)).
  { subst read. destruct (os_ReadFile configPath) as [data|err].
    - right. exists data. split; [done|].
      destruct (yaml_Unmarshal data config.defaults) as [cfg1 [e|]]; done.
    - left. by destruct (negb (os_IsNotExist err)). }
  destruct read as [cfg0 evs1]. cbn [fst] in Hread.
  set (cfg1 := if negb (String.eqb (os_Getenv "LB_LISTEN_ADDR") EmptyString) then _ else cfg0)
    in Hload.
  assert (H1 : config.RateLimiter cfg1 = config.RateLimiter cfg0
               /\ config.Backends cfg1 = config.Backends cfg0).
  { subst cfg1. by destruct (negb _). }
  set (p2 := match time_ParseDuration (config.HealthCheckIntervalStr cfg1) with
             | inl _ => _ | inr _ => _ end) in Hload.
  assert (H2 : config.RateLimiter (fst p2) = config.RateLimiter cfg1
               /\ config.Backends (fst p2) = config.Backends cfg1
               /\ config.HealthCheckTimeoutStr (fst p2) = config.HealthCheckTimeoutStr cfg1).
  { subst p2. by destruct (time_ParseDuration _). }
  destruct p2 as [cfg2 evs2]. cbn [fst] in H2.
  set (p3 := match time_ParseDuration (config.HealthCheckTimeoutStr cfg2) with
             | inl _ => _ | inr _ => _ end) in Hload.
  assert (H3 : config.RateLimiter (fst p3) = config.RateLimiter cfg2
               /\ config.Backends (fst p3) = config.Backends cfg2).
  { subst p3. by destruct (time_ParseDuration _). }
  destruct p3 as [cfg3 evs3]. cbn [fst] in H3.
  destruct (length (config.Backends cfg3) =? 0)%nat eqn:Hlen; [done|].
  injection Hload as Hval _.
  destruct (validate_loaded _ _ Hval) as [-> _].
  exists cfg0. split; [done|]. split.
  { apply Nat.eqb_neq in Hlen. by destruct (config.Backends cfg3). }
  destruct H1 as [H1 _], H2 as (H2 & _), H3 as [H3 _].
  split; [congruence|done].
Qed.

(** X28.  A configuration that [LoadConfig] returns names at least one
    backend, and when the rate limiter is enabled its database driver is
    empty or [sqlite] with a path, its default capacity is above 0, and
    its default rate is above 0 or not a number: the check [<= 0] is
    false on NaN, in [LoadConfig] as in [NewBucketStore].  So
    [NewBucketStore] on these defaults returns a store, which holds
    them. *)
Theorem loaded_configuration_passes_NewBucketStore
    (configPath : string) (cfg : config.Config) (evs : list Event)
    (provider : option BucketStore.LimitProvider) :
  config.LoadConfig os_ReadFile os_IsNotExist yaml_Unmarshal os_Getenv
    time_ParseDuration configPath = (config.Loaded cfg, evs) ->
  config.Backends cfg <> []
  /\ (config.Enabled (config.RateLimiter cfg) = true ->
      (config.Driver (config.DB (config.RateLimiter cfg)) = EmptyString
       \/ (config.Driver (config.DB (config.RateLimiter cfg)) = "sqlite"
           /\ config.Path (config.DB (config.RateLimiter cfg)) <> EmptyString))
      /\ 0 < config.DefaultCapacity (config.RateLimiter cfg)
      /\ (Float64.gtb (config.DefaultRefillRate (config.RateLimiter cfg)) Float64.zero = true
          \/ config.DefaultRefillRate (config.RateLimiter cfg) = S754_nan)
      /\ exists evs',
           BucketStore.NewBucketStore (config.DefaultCapacity (config.RateLimiter cfg))
             (config.DefaultRefillRate (config.RateLimiter cfg)) provider
           = (Some {| BucketStore.buckets := ∅;
                      BucketStore.defaultCapacity :=
                        config.DefaultCapacity (config.RateLimiter cfg);
                      BucketStore.defaultRefillRate :=
                        config.DefaultRefillRate (config.RateLimiter cfg);
                      BucketStore.limitProvider := provider |},
              evs')).
Proof.
  intros Hload. destruct (LoadConfig_loaded _ _ _ Hload) as (cfg0 & Hval & Hb & _).
  split; [done|]. intros Hen.
  destruct (validate_loaded _ _ Hval) as [_ Hvalid]. destruct (Hvalid Hen) as (Hc & Hr & Hd).
  split; [done|]. split; [done|]. split; [by apply Float64_not_leb_zero|].
  unfold BucketStore.NewBucketStore. rewrite Hr.
  destruct (config.DefaultCapacity (config.RateLimiter cfg) <=? 0) eqn:Hle; [lia|].
  cbn [orb]. by eexists.
Qed.

(** X29.  [LoadConfig] parses the two health-check durations and never
    [cleanup_interval]: as the YAML decoder leaves the field
    [CleanupInterval] alone, every configuration it returns has
    [CleanupInterval = 0], and [NewLimiter] on it logs its warning and
    runs with the default of 5 minutes, whatever the file says. *)
Theorem configured_cleanup_interval_never_reaches_the_limiter
    (configPath : string) (cfg : config.Config) (evs : list Event) (store : BucketStore.t) :
  (forall data cfg0,
     config.CleanupInterval (config.RateLimiter (fst (yaml_Unmarshal data cfg0)))
     = config.CleanupInterval (config.RateLimiter cfg0)) ->
  config.LoadConfig os_ReadFile os_IsNotExist yaml_Unmarshal os_Getenv
    time_ParseDuration configPath = (config.Loaded cfg, evs) ->
  config.CleanupInterval (config.RateLimiter cfg) = 0
  /\ exists evs',
       Limiter.NewLimiter (Some store) (config.CleanupInterval (config.RateLimiter cfg))
       = (Some {| Limiter.store := store; Limiter.cleanupInterval := 5 * Time.Minute |}, evs')
       /\ existsb is_warning evs' = true.
Proof.
  intros Hyaml Hload. destruct (LoadConfig_loaded _ _ _ Hload) as (cfg0 & _ & _ & Hrl & Hsrc).
  assert (H0 : config.CleanupInterval (config.RateLimiter cfg) = 0).
  { rewrite Hrl. destruct Hsrc as [->|(data & _ & ->)]; [done|]. by rewrite Hyaml. }
  split; [done|]. rewrite H0. eexists. split; [vm_compute; reflexivity|done].
Qed.

End ConfigTheory.

(** * The further properties on sample values *)

Lemma fresh_bucket_allows_capacity_calls_then_none_witness :
  fst (Bucket.AllowSeq (arch := Float64.amd64) Sample.every_100ms Sample.full3)
  = [true; true; true; false; false]
  /\ BucketSpec.successes
       (fst (Bucket.AllowSeq (arch := Float64.amd64) Sample.every_100ms Sample.full3)) = 3.
Proof.
  apply (fresh_bucket_allows_capacity_calls_then_none (arch := Float64.amd64)
           0 3 Sample.one Sample.full3 Sample.every_100ms).
  - reflexivity.
  - vm_compute. discriminate.
  - repeat (apply List.Forall_cons || apply List.Forall_nil); right;
      vm_compute; repeat split; discriminate.
Defined.

Lemma tokens_in_range_after_every_call_witness :
  BucketSpec.tokens_in_range
    (snd (Bucket.AllowSeq (arch := Float64.amd64) (take 2 Sample.every_900ms) Sample.full3)).
Proof.
  apply (tokens_in_range_after_every_call (arch := Float64.amd64) Sample.every_900ms Sample.full3 2).
  - vm_compute. split; discriminate.
  - repeat (apply List.Forall_cons || apply List.Forall_nil);
      vm_compute; repeat split; discriminate.
Defined.

Lemma refill_needs_the_clock_to_advance_witness :
  Bucket.refill (arch := Float64.amd64) 500 (Sample.drained 5 1000) = Sample.drained 5 1000
  /\ fst (Bucket.Allow (arch := Float64.amd64) 500 500 (Sample.drained 5 1000)) = false.
Proof.
  apply (refill_needs_the_clock_to_advance (arch := Float64.amd64) 500 500 (Sample.drained 5 1000)).
  vm_compute. discriminate.
Defined.


Lemma GetOrCreateBucket_never_fails_witness :
  exists b s' evs,
    BucketStore.GetOrCreateBucket 0 "6.6.6.6" Sample.store = (Some b, s', evs)
    /\ BucketStore.buckets s' !! "6.6.6.6" = Some b
    /\ existsb is_error evs = false.
Proof.
  destruct (GetOrCreateBucket_never_fails 0 "6.6.6.6" Sample.store)
    as (b & s' & evs & H1 & H2 & _ & H4 & _).
  - split; vm_compute; reflexivity.
  - exists b, s', evs. split; [exact H1|]. split; [exact H2|exact H4].
Defined.

Lemma GetOrCreateBucket_keeps_the_limits_of_an_existing_bucket_witness :
  let '(b, s1, _) := BucketStore.GetOrCreateBucket 0 "1.2.3.4" Sample.store in
  b <> None
  /\ BucketStore.GetOrCreateBucket 7 "1.2.3.4" (BucketSpec.withProvider None s1)
     = (b, BucketSpec.withProvider None s1, []).
Proof.
  apply (GetOrCreateBucket_keeps_the_limits_of_an_existing_bucket 0 7 "1.2.3.4" Sample.store None).
  split; vm_compute; reflexivity.
Defined.

Lemma first_request_of_a_client_is_allowed_witness :
  exists l' evs,
    Limiter.Allow (arch := Float64.amd64) Sample.clk "1.2.3.4" Sample.limiter = (true, l', evs)
    /\ BucketStore.buckets (Limiter.store l') !! "1.2.3.4"
       = Some {| Bucket.capacity := 5; Bucket.tokens := 5 - 1; Bucket.refillRate := Sample.two;
                 Bucket.lastRefill := 10; Bucket.lastAccess := 20 |}.
Proof.
  destruct (first_request_of_a_client_is_allowed (arch := Float64.amd64) Sample.clk "1.2.3.4"
              Sample.limiter 5 Sample.two true
              [Printf "INFO: Using custom rate limit for client %s: capacity=%d, rate=%.2f/s"
                      [AStr "1.2.3.4"; AInt 5; AFloat Sample.two]])
    as (l' & evs & H1 & H2 & _).
  - vm_compute. reflexivity.
  - split; vm_compute; reflexivity.
  - vm_compute. reflexivity.
  - vm_compute. repeat split; discriminate.
  - exists l', evs. split; [exact H1|exact H2].
Defined.

Lemma cleanup_removes_exactly_the_inactive_witness :
  let '(l', _, _) :=
    Limiter.cleanup Sample.at_130s
      (map_to_list (BucketStore.buckets (Limiter.store Sample.busy_limiter))) Sample.busy_limiter in
  BucketStore.buckets (Limiter.store l') !! "1.2.3.4" = None
  /\ BucketStore.buckets (Limiter.store l') !! "5.6.7.8" = Some Sample.recent.
Proof.
  pose proof (cleanup_removes_exactly_the_inactive Sample.at_130s
                (map_to_list (BucketStore.buckets (Limiter.store Sample.busy_limiter)))
                Sample.busy_limiter) as H.
  destruct (Limiter.cleanup _ _ _) as [[l' c] evs].
  destruct H as [H _]; [reflexivity|].
  split; [exact (H "1.2.3.4")|exact (H "5.6.7.8")].
Defined.

Lemma cleanup_counts_the_removed_witness :
  let '(l', cleanedCount, evs) :=
    Limiter.cleanup Sample.at_130s
      (map_to_list (BucketStore.buckets (Limiter.store Sample.busy_limiter))) Sample.busy_limiter in
  cleanedCount
  = Z.of_nat (size (BucketStore.buckets (Limiter.store Sample.busy_limiter)))
    - Z.of_nat (size (BucketStore.buckets (Limiter.store l')))
  /\ (In (Printf "INFO: Limiter cleanup finished. Removed %d inactive buckets." [AInt cleanedCount])
         evs
      <-> 0 < cleanedCount).
Proof.
  apply (cleanup_counts_the_removed Sample.at_130s
           (map_to_list (BucketStore.buckets (Limiter.store Sample.busy_limiter)))
           Sample.busy_limiter).
  - reflexivity.
  - vm_compute. discriminate.
Defined.


Lemma served_client_survives_cleanup_witness :
  let '(l'', _, _) :=
    Limiter.cleanup Sample.at_30s
      (map_to_list (BucketStore.buckets (Limiter.store Sample.served))) Sample.served in
  is_Some (BucketStore.buckets (Limiter.store l'') !! "1.2.3.4")
  /\ BucketStore.buckets (Limiter.store l'') !! "1.2.3.4"
     = BucketStore.buckets (Limiter.store Sample.served) !! "1.2.3.4".
Proof.
  apply (served_client_survives_cleanup (arch := Float64.amd64) Sample.clk "1.2.3.4"
           Sample.limiter Sample.served
           (snd (Limiter.Allow (arch := Float64.amd64) Sample.clk "1.2.3.4" Sample.limiter))).
  - vm_compute. reflexivity.
  - reflexivity.
  - vm_compute. split; discriminate.
Defined.

Lemma inactive_client_starts_afresh_witness :
  let '(l', _, _) :=
    Limiter.cleanup Sample.at_130s
      (map_to_list (BucketStore.buckets (Limiter.store Sample.busy_limiter))) Sample.busy_limiter in
  let '(capacity, rate, _, _) :=
    BucketStore.chooseLimits "1.2.3.4" (Limiter.store Sample.busy_limiter) in
  BucketStore.buckets (Limiter.store l') !! "1.2.3.4" = None
  /\ exists s' evs,
       BucketStore.GetOrCreateBucket 140000000000 "1.2.3.4" (Limiter.store l')
       = (Some (BucketSpec.fresh 140000000000 capacity rate), s', evs)
       /\ BucketStore.buckets s' !! "1.2.3.4" = Some (BucketSpec.fresh 140000000000 capacity rate).
Proof.
  apply (inactive_client_starts_afresh Sample.at_130s
           (map_to_list (BucketStore.buckets (Limiter.store Sample.busy_limiter)))
           Sample.busy_limiter "1.2.3.4" Sample.idle 140000000000).
  - split; vm_compute; reflexivity.
  - reflexivity.
  - vm_compute. reflexivity.
  - vm_compute. reflexivity.
Defined.

Lemma no_request_is_forwarded_while_every_backend_is_down_witness :
  exists w' s' evs,
    Dispatcher.NewLoadBalancerHandler Sample.quiet Sample.unreachable (Some Sample.pool_all_dead)
      http.NewRecorder Sample.get_root = Some (w', Some s', evs)
    /\ http.status w' = Some 503
    /\ ReplySpec.calls "GetNextPeer" evs = 3%nat
    /\ ReplySpec.sleeps evs = [10000000; 10000000; 10000000].
Proof.
  destruct (no_request_is_forwarded_while_every_backend_is_down Sample.quiet Sample.unreachable
              http.NewRecorder Sample.get_root Sample.pool_all_dead)
    as (w' & s' & evs & H1 & _ & H3 & _ & _ & H6 & H7).
  - intros k s H. exact H.
  - repeat constructor.
  - discriminate.
  - reflexivity.
  - exists w', s', evs. split; [exact H1|]. split; [exact H3|]. split; [exact H6|exact H7].
Defined.

Lemma handler_of_a_missing_or_empty_pool_answers_500_witness :
  exists w' evs,
    Dispatcher.NewLoadBalancerHandler Sample.quiet Sample.unreachable None
      http.NewRecorder Sample.get_root = Some (w', None, evs)
    /\ http.status w' = Some 500.
Proof.
  destruct (handler_of_a_missing_or_empty_pool_answers_500 Sample.quiet Sample.unreachable None
              http.NewRecorder Sample.get_root)
    as (w' & evs & H1 & H2 & _).
  - exact I.
  - reflexivity.
  - exists w', evs. split; [exact H1|exact H2].
Defined.

Lemma all_alive_backends_take_turns_witness :
  fst (ServerPool.GetNextPeerSeq 3 Sample.pool_all_up) = [Some 1%nat; Some 2%nat; Some 0%nat]
  /\ fst (ServerPool.GetNextPeerSeq 3 Sample.pool_all_up) ≡ₚ [Some 0%nat; Some 1%nat; Some 2%nat].
Proof.
  apply (all_alive_backends_take_turns 3 Sample.pool_all_up).
  - repeat constructor.
  - left. reflexivity.
  - vm_compute. split; [reflexivity|discriminate].
Defined.

Lemma connect_error_is_answered_502_and_marks_the_backend_down_witness :
  exists w' evs,
    Dispatcher.NewLoadBalancerHandler Sample.quiet Sample.unreachable (Some Sample.pool_1dead)
      http.NewRecorder Sample.get_root
    = Some (w', Some (ServerPool.SetAlive 2 false (ServerPool.Store 2 Sample.pool_1dead)), evs)
    /\ http.status w' = Some 502
    /\ fst (ServerPool.GetNextPeer
              (ServerPool.SetAlive 2 false (ServerPool.Store 2 Sample.pool_1dead))) <> Some 2%nat.
Proof.
  destruct (connect_error_is_answered_502_and_marks_the_backend_down Sample.quiet
              Sample.unreachable http.NewRecorder Sample.get_root Sample.pool_1dead
              (ServerPool.Store 2 Sample.pool_1dead) 2 "dial tcp: connection refused")
    as (w' & evs & H1 & H2 & _ & _ & _ & H6).
  - reflexivity.
  - vm_compute. reflexivity.
  - reflexivity.
  - exists w', evs. split; [exact H1|]. split; [exact H2|exact H6].
Defined.

Lemma schedule_201 : [2; 0; 1]%nat ≡ₚ seq 0 3.
Proof.
  change (seq 0 3) with [0; 1; 2]%nat.
  apply (Permutation_cons_app [0; 1]%nat [] 2%nat). reflexivity.
Defined.

Lemma health_check_cycle_sets_every_flag_to_what_the_dial_found_witness :
  let '(s', _) :=
    ServerPool.runHealthCheckCycle Sample.host Sample.dial [2; 0; 1]%nat Sample.pool_all_dead in
  ServerPool.backends s'
  = [ {| Backend.URL := "http://backend1:8081"; Backend.Alive := true |};
      {| Backend.URL := "http://backend2:8082"; Backend.Alive := false |};
      {| Backend.URL := "http://backend3:8083"; Backend.Alive := true |} ]
  /\ ServerPool.current s' = 0.
Proof.
  pose proof (health_check_cycle_sets_every_flag_to_what_the_dial_found Sample.host Sample.dial
                [2; 0; 1]%nat Sample.pool_all_dead schedule_201) as H.
  destruct (ServerPool.runHealthCheckCycle _ _ _ _) as [s' evs].
  destruct H as (H1 & H2 & _). split; [exact H1|exact H2].
Defined.

Lemma after_a_health_check_a_peer_is_found_iff_a_dial_succeeded_witness :
  let '(s1, _) :=
    ServerPool.runHealthCheckCycle Sample.host Sample.dial [2; 0; 1]%nat Sample.pool_all_dead in
  match ServerPool.GetNextPeer s1 with
  | (Some p, _) =>
      exists b, ServerPool.backends Sample.pool_all_dead !! p = Some b
                /\ ServerPool.isBackendAlive Sample.host Sample.dial (Backend.URL b)
                     (ServerPool.healthCheckTimeout Sample.pool_all_dead) = true
  | (None, _) =>
      Forall (fun b => ServerPool.isBackendAlive Sample.host Sample.dial (Backend.URL b)
                         (ServerPool.healthCheckTimeout Sample.pool_all_dead) = false)
             (ServerPool.backends Sample.pool_all_dead)
  end.
Proof.
  apply (after_a_health_check_a_peer_is_found_iff_a_dial_succeeded Sample.host Sample.dial
           [2; 0; 1]%nat Sample.pool_all_dead schedule_201).
  - left. reflexivity.
  - vm_compute. discriminate.
Defined.


Lemma request_of_a_drained_client_is_answered_429_witness :
  exists w' l',
    middleware.RateLimit (arch := Float64.amd64) Sample.at_1500ms Sample.counting
      http.NewRecorder Sample.get_root (Sample.drained_limiter, 0)
    = (w', (l', 0),
       [Printf "WARN: Rate limit exceeded for client %s on %s" [AStr "127.0.0.1"; AStr "/"];
        ReplySpec.responding 429 "Rate limit exceeded"])
    /\ http.status w' = Some 429
    /\ http.body w' = ReplySpec.too_many_requests +:+ http.newline.
Proof.
  destruct (request_of_a_drained_client_is_answered_429 (arch := Float64.amd64)
              Sample.at_1500ms Sample.counting http.NewRecorder Sample.get_root
              Sample.drained_limiter 0 (Sample.drained 5 1000000000))
    as (w' & l' & H1 & H2 & _ & H4 & _).
  - reflexivity.
  - vm_compute. reflexivity.
  - reflexivity.
  - reflexivity.
  - right. vm_compute. repeat split; discriminate.
  - exists w', l'. split; [exact H1|]. split; [exact H2|exact H4].
Defined.


Lemma admin_request_off_the_routes_never_reaches_the_manager_witness :
  let '(w', m', _) :=
    adminapi.ServeHTTP (manager := Sample.table_manager) Sample.decode Sample.marshal
      http.NewRecorder (Sample.admin_request "PUT" "/admin/limits/1.2.3.4") "good"
      Sample.limits in
  m' = Sample.limits
  /\ http.status w' = Some 405
  /\ http.header w' !! "Content-Type" = Some ReplySpec.json_content_type.
Proof.
  apply (admin_request_off_the_routes_never_reaches_the_manager (manager := Sample.table_manager)
           Sample.decode Sample.marshal http.NewRecorder
           (Sample.admin_request "PUT" "/admin/limits/1.2.3.4") "good" Sample.limits).
  - reflexivity.
  - right. right. right. repeat split; discriminate.
Defined.

Lemma admin_rejects_an_invalid_limit_before_the_manager_witness :
  let '(w', m', _) :=
    adminapi.ServeHTTP (manager := Sample.table_manager) Sample.decode Sample.marshal
      http.NewRecorder (Sample.admin_request "POST" "/admin/limits") "empty" Sample.limits in
  m' = Sample.limits
  /\ http.status w' = Some 400
  /\ http.header w' !! "Content-Type" = Some ReplySpec.json_content_type.
Proof.
  apply (admin_rejects_an_invalid_limit_before_the_manager (manager := Sample.table_manager)
           Sample.decode Sample.marshal http.NewRecorder
           (Sample.admin_request "POST" "/admin/limits") "empty" Sample.limits).
  - reflexivity.
  - reflexivity.
  - vm_compute. reflexivity.
  - left. reflexivity.
Defined.

Lemma admin_stores_a_valid_limit_and_echoes_it_witness :
  let '(w', m', _) :=
    adminapi.ServeHTTP (manager := Sample.table_manager) Sample.decode Sample.marshal
      http.NewRecorder (Sample.admin_request "POST" "/admin/limits/") "good" ∅ in
  m' = Sample.limits
  /\ http.status w' = Some 200
  /\ http.body w' = json.encode_string "1.2.3.4".
Proof.
  pose proof (admin_stores_a_valid_limit_and_echoes_it (manager := Sample.table_manager)
                Sample.decode Sample.marshal http.NewRecorder
                (Sample.admin_request "POST" "/admin/limits/") "good" (∅ : Sample.table)
                {| adminapi.setLimitRequest.ClientID := "1.2.3.4";
                   adminapi.setLimitRequest.Capacity := 5;
                   adminapi.setLimitRequest.Rate := Sample.two |}) as H.
  cbn [SetLimit Sample.table_manager adminapi.setLimitRequest.ClientID
       adminapi.setLimitRequest.Capacity adminapi.setLimitRequest.Rate] in H.
  destruct (adminapi.ServeHTTP _ _ _ _ _ _) as [[w' m'] evs].
  destruct H as (H1 & _ & H3 & H4).
  - reflexivity.
  - reflexivity.
  - vm_compute. reflexivity.
  - reflexivity.
  - discriminate.
  - reflexivity.
  - reflexivity.
  - split; [exact H1|]. split; [exact H3|exact H4].
Defined.

Lemma admin_route_names_the_client_between_the_slashes_witness :
  adminapi.routePath (Sample.admin_request "GET" "/admin/limits//1.2.3.4/") = "1.2.3.4".
Proof.
  apply (admin_route_names_the_client_between_the_slashes
           (Sample.admin_request "GET" "/admin/limits//1.2.3.4/") "1.2.3.4" 2 1).
  - reflexivity.
  - split; vm_compute; reflexivity.
Defined.

Lemma admin_get_answers_with_the_limit_or_404_witness :
  let '(w', m', evs) :=
    adminapi.ServeHTTP (manager := Sample.table_manager) Sample.decode Sample.marshal
      http.NewRecorder (Sample.admin_request "GET" "/admin/limits/9.9.9.9") EmptyString
      Sample.limits in
  m' = Sample.limits
  /\ http.status w' = Some 404
  /\ evs = [ReplySpec.responding 404 "Limit not found for client 9.9.9.9"].
Proof.
  pose proof (admin_get_answers_with_the_limit_or_404 (manager := Sample.table_manager)
                Sample.decode Sample.marshal http.NewRecorder
                (Sample.admin_request "GET" "/admin/limits/9.9.9.9") EmptyString
                Sample.limits) as H.
  cbv zeta in H.
  replace (GetLimit (adminapi.routePath (Sample.admin_request "GET" "/admin/limits/9.9.9.9"))
             Sample.limits) with (0, Float64.zero, false) in H by (vm_compute; reflexivity).
  destruct (adminapi.ServeHTTP _ _ _ _ _ _) as [[w' m'] evs].
  destruct H as (H1 & _ & H3 & H4).
  - reflexivity.
  - reflexivity.
  - vm_compute. discriminate.
  - split; [exact H1|]. split; [exact H3|exact H4].
Defined.

Lemma admin_delete_answers_204_without_a_body_witness :
  let '(w', m', evs) :=
    adminapi.ServeHTTP (manager := Sample.table_manager) Sample.decode Sample.marshal
      http.NewRecorder (Sample.admin_request "DELETE" "/admin/limits/1.2.3.4") EmptyString
      Sample.limits in
  m' = delete "1.2.3.4" Sample.limits
  /\ w' = {| http.header := ∅; http.status := Some 204; http.body := EmptyString |}
  /\ evs = [].
Proof.
  pose proof (admin_delete_answers_204_without_a_body (manager := Sample.table_manager)
                Sample.decode Sample.marshal http.NewRecorder
                (Sample.admin_request "DELETE" "/admin/limits/1.2.3.4") EmptyString
                Sample.limits) as H.
  cbn [DeleteLimit Sample.table_manager] in H.
  destruct (adminapi.ServeHTTP _ _ _ _ _ _) as [[w' m'] evs].
  destruct H as (H1 & H2 & H3).
  - reflexivity.
  - reflexivity.
  - vm_compute. discriminate.
  - split; [|split; [exact H2|exact H3]].
    rewrite H1. reflexivity.
Defined.


Lemma sample_configuration_loads :
  config.LoadConfig Sample.read_file Sample.is_not_exist Sample.unmarshal Sample.getenv
    Sample.parse_duration "config.yaml"
  = (config.Loaded Sample.loaded,
     [Printf "INFO: Loaded configuration from %s" [AStr "config.yaml"]]).
Proof. vm_compute. reflexivity. Defined.

Lemma loaded_configuration_passes_NewBucketStore_witness :
  0 < 3
  /\ (Float64.gtb Sample.one Float64.zero = true \/ Sample.one = S754_nan)
  /\ exists evs',
       BucketStore.NewBucketStore 3 Sample.one None
       = (Some {| BucketStore.buckets := ∅; BucketStore.defaultCapacity := 3;
                  BucketStore.defaultRefillRate := Sample.one;
                  BucketStore.limitProvider := None |}, evs').
Proof.
  destruct (loaded_configuration_passes_NewBucketStore Sample.read_file Sample.is_not_exist
              Sample.unmarshal Sample.getenv Sample.parse_duration "config.yaml"
              Sample.loaded _ None sample_configuration_loads) as [_ H].
  destruct (H eq_refl) as (_ & Hc & Hr & Hstore).
  split; [exact Hc|]. split; [exact Hr|exact Hstore].
Defined.

(** The second case of the rate is there: a file whose default rate is
    [.nan] is loaded, and [NewBucketStore] makes a store of it. *)
Remark configuration_with_NaN_rate_loads :
  fst (config.LoadConfig Sample.read_file Sample.is_not_exist Sample.unmarshal_nan
         Sample.getenv Sample.parse_duration "config.yaml")
  = config.Loaded Sample.loaded_nan
  /\ config.DefaultRefillRate (config.RateLimiter Sample.loaded_nan) = S754_nan
  /\ Float64.gtb (config.DefaultRefillRate (config.RateLimiter Sample.loaded_nan)) Float64.zero
     = false
  /\ fst (BucketStore.NewBucketStore 3 S754_nan None) <> None.
Proof. repeat split; vm_compute; congruence. Qed.

Lemma configured_cleanup_interval_never_reaches_the_limiter_witness :
  config.CleanupIntervalStr (config.RateLimiter Sample.loaded) = "1m"
  /\ config.CleanupInterval (config.RateLimiter Sample.loaded) = 0
  /\ exists evs',
       Limiter.NewLimiter (Some Sample.store)
         (config.CleanupInterval (config.RateLimiter Sample.loaded))
       = (Some {| Limiter.store := Sample.store; Limiter.cleanupInterval := 5 * Time.Minute |},
          evs')
       /\ existsb is_warning evs' = true.
Proof.
  split; [reflexivity|].
  apply (configured_cleanup_interval_never_reaches_the_limiter Sample.read_file
           Sample.is_not_exist Sample.unmarshal Sample.getenv Sample.parse_duration
           "config.yaml" Sample.loaded
           [Printf "INFO: Loaded configuration from %s" [AStr "config.yaml"]] Sample.store).
  - intros data cfg0. reflexivity.
  - exact sample_configuration_loads.
Defined.
